(** * tweet2vec: the preprocessing pipeline of [preprocess.py]

    A shallow embedding of the text normaliser ([clean], [split_hashtags]),
    the feature encoder ([text2mat]), the tweet sequence ([TweetIterator])
    and the batch aggregator ([KerasIterator]), followed by the properties
    established about them.

    Conventions of the embedding.
    - A Python [str] is a list of code points.  The development covers the
      Latin-1 range: one [ascii] (eight bits) stands for one code point
      U+0000 .. U+00FF, and [str.lower], [str.isspace] and the regular
      expression classes are those of Python 3 on that range.  Code points
      above U+00FF are outside the embedding; there [str.lower] can yield
      ASCII letters (U+212A gives [k]), so statements about the characters
      of a text are made about its lower-cased form where that matters.
    - numpy entries are kept abstract: a carrier with [zero], [one] and
      [add] (class [Scalar]); the code only writes zeros, ones, sums of ones
      and copies of stored vectors.
    - Exceptions are values of [error]; a function that can raise returns
      [result]. *)

From Stdlib Require Import Ascii String ZArith Lia.
From stdpp Require Import base list.

Open Scope nat_scope.
Open Scope list_scope.

(** ** Python strings *)

Abbreviation pystr := (list ascii).

Definition str (s : string) : pystr := list_ascii_of_string s.

Definition code (c : ascii) : nat := nat_of_ascii c.

Definition in_range (lo hi : nat) (c : ascii) : bool :=
  (lo <=? code c) && (code c <=? hi).

Definition is_char (n : nat) (c : ascii) : bool := code c =? n.

(** [str.isspace] / [Py_UNICODE_ISSPACE] on U+0000 .. U+00FF:
    TAB..CR, FS..US, SPACE, NEL and NBSP. *)
Definition isspace (c : ascii) : bool :=
  in_range 9 13 c || in_range 28 32 c || is_char 133 c || is_char 160 c.

(** Upper-case letters of Latin-1: A-Z, U+00C0..U+00D6, U+00D8..U+00DE.
    Their lower-case forms sit 32 code points above. *)
Definition isupper (c : ascii) : bool :=
  in_range 65 90 c || in_range 192 214 c || in_range 216 222 c.

Definition lower_char (c : ascii) : ascii :=
  if isupper c then ascii_of_nat (code c + 32) else c.

(** [str.lower()] *)
Definition lower (s : pystr) : pystr := map lower_char s.

(** [str.isalnum] on Latin-1: letters, decimal digits, the superscript
    digits and the vulgar fractions. *)
Definition isalnum (c : ascii) : bool :=
  in_range 48 57 c || in_range 65 90 c || in_range 97 122 c
  || is_char 170 c || is_char 178 c || is_char 179 c || is_char 181 c
  || is_char 185 c || is_char 186 c || in_range 188 190 c
  || in_range 192 214 c || in_range 216 246 c || in_range 248 255 c.

Fixpoint lstrip (s : pystr) : pystr :=
  match s with
  | [] => []
  | c :: s' => if isspace c then lstrip s' else s
  end.

Definition rstrip (s : pystr) : pystr := rev (lstrip (rev s)).

(** [str.strip()] with no argument *)
Definition strip (s : pystr) : pystr := rstrip (lstrip s).

(** [str.split()] with no argument: the maximal runs of non-whitespace, in
    order.  [cur] is the token being read. *)
Fixpoint split_from (cur : pystr) (s : pystr) : list pystr :=
  match s with
  | [] => match cur with [] => [] | _ => [cur] end
  | c :: s' =>
      if isspace c
      then match cur with
           | [] => split_from [] s'
           | _ => cur :: split_from [] s'
           end
      else split_from (cur ++ [c]) s'
  end.

Definition split (s : pystr) : list pystr := split_from [] s.

(** [c in s] and [s.index(c)] for a character [c] *)
Definition mem_char (c : ascii) (s : pystr) : bool :=
  existsb (Ascii.eqb c) s.

Fixpoint index_of (c : ascii) (s : pystr) : nat :=
  match s with
  | [] => 0
  | d :: s' => if Ascii.eqb c d then 0 else S (index_of c s')
  end.

(** Equality of two strings, as [==] on [str] *)
Fixpoint text_eqb (s t : pystr) : bool :=
  match s, t with
  | [], [] => true
  | c :: s', d :: t' => Ascii.eqb c d && text_eqb s' t'
  | _, _ => false
  end.

Definition mem_text (s : pystr) (l : list pystr) : bool :=
  existsb (text_eqb s) l.

(** ** Regular expressions

    The patterns of the program are alternations of sequences whose items
    are a character class, a greedy [+] over a character class, or the
    anchor [\A].  [re] matches by backtracking: alternatives in order,
    [+] longest first. *)

Module Re.

Inductive atom :=
| One (cls : ascii -> bool)
| Many (cls : ascii -> bool)
| Bos.

Definition pattern := list (list atom).

(** Length of the longest prefix of [s] inside the class *)
Fixpoint span (cls : ascii -> bool) (s : pystr) : nat :=
  match s with
  | [] => 0
  | c :: s' => if cls c then S (span cls s') else 0
  end.

(** Try [k] for the counts [n], [n-1], ..., [1] of a greedy [+]. *)
Fixpoint longest_first (k : nat -> option nat) (n : nat) : option nat :=
  match n with
  | 0 => None
  | S m =>
      match k n with
      | Some r => Some (n + r)
      | None => longest_first k m
      end
  end.

(** [match_seq atoms bos s]: the number of characters of [s] that the
    sequence consumes, matching at the head of [s]; [bos] tells whether the
    head of [s] is the start of the whole string. *)
Fixpoint match_seq (atoms : list atom) (bos : bool) (s : pystr) : option nat :=
  match atoms with
  | [] => Some 0
  | One cls :: rest =>
      match s with
      | c :: s' =>
          if cls c
          then match match_seq rest false s' with
               | Some r => Some (S r)
               | None => None
               end
          else None
      | [] => None
      end
  | Many cls :: rest =>
      longest_first (fun n => match_seq rest false (drop n s)) (span cls s)
  | Bos :: rest =>
      if bos then match_seq rest bos s else None
  end.

Fixpoint match_here (p : pattern) (bos : bool) (s : pystr) : option nat :=
  match p with
  | [] => None
  | alt :: alts =>
      match match_seq alt bos s with
      | Some n => Some n
      | None => match_here alts bos s
      end
  end.

(** [pattern.sub(repl, s)]: scan from the left; where the pattern matches,
    emit [repl] and resume after the match, else copy one character.
    [skip] counts the characters of the current match still to pass.
    Every pattern of the program consumes at least one character, so a
    match of length 0 does not arise; it is treated as no match. *)
Fixpoint sub_from (p : pattern) (repl : pystr) (bos : bool) (skip : nat)
    (s : pystr) : pystr :=
  match s with
  | [] => []
  | c :: s' =>
      match skip with
      | S k => sub_from p repl false k s'
      | 0 =>
          match match_here p bos s with
          | Some (S n) => repl ++ sub_from p repl false n s'
          | _ => c :: sub_from p repl false 0 s'
          end
      end
  end.

Definition sub (p : pattern) (repl : pystr) (s : pystr) : pystr :=
  sub_from p repl true 0 s.

(** [pattern.findall(s)] for a pattern without groups: the matched spans,
    left to right, not overlapping. *)
Fixpoint findall_from (p : pattern) (bos : bool) (skip : nat) (s : pystr)
    : list pystr :=
  match s with
  | [] => []
  | c :: s' =>
      match skip with
      | S k => findall_from p false k s'
      | 0 =>
          match match_here p bos s with
          | Some (S n) => take (S n) s :: findall_from p false n s'
          | _ => findall_from p false 0 s'
          end
      end
  end.

Definition findall (p : pattern) (s : pystr) : list pystr :=
  findall_from p true 0 s.

(** [pattern.search(s)] as a truth value: is there a match anywhere? *)
Fixpoint search_from (p : pattern) (bos : bool) (s : pystr) : bool :=
  match s with
  | [] => false
  | c :: s' =>
      match match_here p bos s with
      | Some (S n) => true
      | _ => search_from p false s'
      end
  end.

Definition search (p : pattern) (s : pystr) : bool := search_from p true s.

End Re.

(** ** Module-level values of [preprocess.py] *)

Definition chr (s : string) : ascii -> bool :=
  match s with
  | String c _ => Ascii.eqb c
  | EmptyString => fun _ => false
  end.

(** [\w], [\s], [\S] and [.] *)
Definition word_char (c : ascii) : bool := isalnum c || is_char 95 c.
Definition space_char (c : ascii) : bool := isspace c.
Definition nonspace_char (c : ascii) : bool := negb (isspace c).
Definition any_char (c : ascii) : bool := negb (is_char 10 c).

(** [[^@0-9a-zA-Z]] *)
Definition noncharacter_class (c : ascii) : bool :=
  negb (is_char 64 c || in_range 48 57 c || in_range 97 122 c
        || in_range 65 90 c).

Definition hashtag_regex : Re.pattern :=
  [ [Re.Bos; Re.One (chr "#"); Re.Many word_char];
    [Re.One space_char; Re.One (chr "#"); Re.Many word_char] ].

Definition mention_regex : Re.pattern :=
  [ [Re.Bos; Re.One (chr "@"); Re.Many word_char];
    [Re.One space_char; Re.One (chr "@"); Re.Many word_char] ].

Definition email_regex : Re.pattern :=
  [ [Re.Many nonspace_char; Re.One (chr "@"); Re.Many nonspace_char;
     Re.One any_char; Re.Many nonspace_char] ].

Definition url_regex : Re.pattern :=
  [ [Re.Bos; Re.One (chr "h"); Re.One (chr "t"); Re.One (chr "t");
     Re.One (chr "p"); Re.Many nonspace_char];
    [Re.One space_char; Re.One (chr "h"); Re.One (chr "t"); Re.One (chr "t");
     Re.One (chr "p"); Re.Many nonspace_char] ].

Definition retweet_regex : Re.pattern :=
  [ [Re.Bos; Re.One (chr "r"); Re.One (chr "t"); Re.One space_char];
    [Re.One space_char; Re.One (chr "r"); Re.One (chr "t");
     Re.One space_char] ].

Definition noncharacter_regex : Re.pattern := [ [Re.Many noncharacter_class] ].

Definition multspace_regex : Re.pattern := [ [Re.Many space_char] ].

(** [string.ascii_lowercase + string.digits + string.punctuation]; the
    double quote is code point 34. *)
Definition char_options : pystr :=
  str "abcdefghijklmnopqrstuvwxyz0123456789!" ++ [ascii_of_nat 34]
  ++ str "#$%&'()*+,-./:;<=>?@[\]^_`{|}~".

Definition in_char_options_set (c : ascii) : bool := mem_char c char_options.

(** ** The text normaliser *)

Definition clean (tweet : pystr) : pystr :=
  let tweet := lower tweet in
  let tweet := Re.sub url_regex (str " httpurl") tweet in
  let tweet := Re.sub noncharacter_regex (str " ") tweet in
  let tweet := Re.sub email_regex (str " email@address ") tweet in
  let tweet := Re.sub mention_regex (str " @user") tweet in
  let tweet := Re.sub retweet_regex (str " ") tweet in
  let tweet := Re.sub multspace_regex (str " ") tweet in
  strip tweet.

(** [split_hashtags] on one text: the text without its hashtag spans, and
    the hashtags, cleaned and prefixed again with [#]. *)
Definition split_hashtags (tweet : pystr) : pystr * list pystr :=
  let hashtags := Re.findall hashtag_regex tweet in
  let hashtags := map (fun h => str "#" ++ clean h) hashtags in
  let hashtags := filter (fun h => negb (text_eqb h (str "#"))) hashtags in
  let tweet := Re.sub hashtag_regex [] tweet in
  (tweet, hashtags).

(** ** Exceptions *)

Inductive error :=
| NameError (name : string)
| UnboundLocalError (name : string)
| IndexError (i len : Z)
| ZeroDivisionError
| ValueError
| TypeError
| StopIteration.

Inductive result (A : Type) :=
| Ok (a : A)
| Raise (e : error).

Arguments Ok {A} a.
Arguments Raise {A} e.

Definition bind {A B} (r : result A) (k : A -> result B) : result B :=
  match r with
  | Ok a => k a
  | Raise e => Raise e
  end.

Notation "'let*' x ':=' r 'in' k" := (bind r (fun x => k))
  (at level 10, x name, r at level 100, k at level 200).

(** ** numpy arrays and the external collaborators *)

Class Scalar (A : Type) := {
  zero : A;
  one : A;
  add : A -> A -> A
}.

(** The word2vec model: [w2v.layer1_size], [word in w2v], [w2v[word]] *)
Record Word2Vec (A : Type) := {
  layer1_size : nat;
  vector : pystr -> option (list A)
}.

Arguments layer1_size {A} _.
Arguments vector {A} _ _.

(** sklearn's fitted [MultiLabelBinarizer]: its ordered [classes_] *)
Record MultiLabelBinarizer := {
  classes_ : list pystr
}.

(** The module-level names [w2v] and [mlb]; [w2v] is [False] and [mlb] is
    not defined at all when the model files are missing. *)
Record globals (A : Type) := {
  w2v : option (Word2Vec A);
  mlb : option MultiLabelBinarizer
}.

Arguments w2v {A} _.
Arguments mlb {A} _.

Definition valid_hashtags {A} (g : globals A) : list pystr :=
  match mlb g with
  | Some m => classes_ m
  | None => []
  end.

Section Arrays.
Context {A : Type} `{Scalar A}.

Abbreviation matrix := (list (list A)).

#[local] Unset Elimination Schemes.
Inductive value :=
| VStr (s : pystr)
| VStrs (l : list pystr)
| VNum (a : A)
| VVec (v : list A)
| VMat (M : matrix)
| VTen (T : list matrix)
| VList (l : list value).
#[local] Set Elimination Schemes.

(** [np.zeros((r, c))] *)
Definition np_zeros (r c : nat) : matrix := replicate r (replicate c zero).

(** [M[i, j] = v] and [M[i, j] += 1]; the code only uses them with [i]
    and [j] inside the shape. *)
Definition set_entry (i j : nat) (v : A) (M : matrix) : matrix :=
  alter (fun row => <[j := v]> row) i M.

Definition incr_entry (i j : nat) (M : matrix) : matrix :=
  alter (alter (fun v => add v one) j) i M.

(** [M[i, :] = v]: the components of [v] must fill the row; a vector of
    one component is broadcast. *)
Definition set_row (d i : nat) (v : list A) (M : matrix) : result matrix :=
  if length v =? d then Ok (<[i := v]> M)
  else match v with
       | [x] => Ok (<[i := replicate d x]> M)
       | _ => Raise ValueError
       end.

(** [mlb.transform(ys)]: one indicator row over [classes_] per element *)
Definition transform (m : MultiLabelBinarizer) (ys : list (list pystr))
    : matrix :=
  map (fun hs => map (fun c => if mem_text c hs then one else zero)
                     (classes_ m)) ys.

(** ** The feature encoder *)

Fixpoint char_loop (max_chars i : nat) (s : pystr) (M : matrix) : matrix :=
  match s with
  | [] => M
  | c :: s' =>
      if max_chars <=? i then M
      else
        let M := if in_char_options_set c
                 then set_entry i (index_of c char_options) one M
                 else M in
        char_loop max_chars (S i) s' M
  end.

Fixpoint word_loop (store : Word2Vec A) (max_words i : nat)
    (words : list pystr) (M : matrix) : result matrix :=
  match words with
  | [] => Ok M
  | word :: words' =>
      if max_words <=? i then Ok M
      else
        match vector store word with
        | Some v =>
            let* M := set_row (layer1_size store) i v M in
            word_loop store max_words (S i) words' M
        | None => word_loop store max_words (S i) words' M
        end
  end.

Fixpoint chrd_word (i : nat) (word : pystr) (M : matrix) : matrix :=
  match word with
  | [] => M
  | c :: word' =>
      let M := if in_char_options_set c
               then incr_entry i (index_of c char_options) M
               else M in
      chrd_word i word' M
  end.

Fixpoint chrd_loop (max_words i : nat) (words : list pystr) (M : matrix)
    : matrix :=
  match words with
  | [] => M
  | word :: words' =>
      if max_words <=? i then M
      else chrd_loop max_words (S i) words' (chrd_word i word M)
  end.

(** [text2mat(text, mat_type, max_chars, max_words)]; the sizes are
    natural numbers.  [word_d] is only bound when a model is loaded, and
    [M] only in the three branches. *)
Definition text2mat (g : globals A) (text : pystr) (mat_type : string)
    (max_chars max_words : nat) : result matrix :=
  let text := strip (lower text) in
  if String.eqb mat_type "char" then
    Ok (char_loop max_chars 0 text
          (np_zeros max_chars (length char_options)))
  else if String.eqb mat_type "word" then
    let text := clean text in
    match w2v g with
    | None => Raise (NameError "word_d")
    | Some store =>
        word_loop store max_words 0 (split text)
          (np_zeros max_words (layer1_size store))
    end
  else if String.eqb mat_type "chrd" then
    Ok (chrd_loop max_words 0 (split text)
          (np_zeros max_words (length char_options)))
  else Raise (UnboundLocalError "M").

End Arrays.

Arguments value A : clear implicits.

(** ** The tweet sequence *)

(** A source is a list of texts: the elements of a Python list, or the
    lines of the file. *)
Record TweetIterator := {
  source : list pystr;
  yield_list : list string;
  skip_nohashtag : bool;
  length_ : option nat        (* [self.length]; [None] stands for [False] *)
}.

Definition yw_options : list string :=
  ["hashtags"; "raw_tweet"; "raw_tweet_nohashtags"; "tokenized_tweet";
   "clean_tweet"; "word_mat"; "char_mat"; "chrd_mat"; "label"]%string.

Definition mem_string (s : string) (l : list string) : bool :=
  existsb (String.eqb s) l.

(** The loop of [__init__] over the requested names: a known name is
    appended, an unknown one only warned about. *)
Fixpoint keep_options (requested : list string) (kept : list string)
    : list string :=
  match requested with
  | [] => kept
  | yw :: rest =>
      if mem_string yw yw_options
      then keep_options rest (kept ++ [yw])
      else keep_options rest kept
  end.

(** [TweetIterator(source, skip_nohashtag, *yield_list)].  The body of
    [__init__] reads no global and has no statement that raises. *)
Definition TweetIterator_init {A} (g : globals A) (src : list pystr)
    (skip : bool) (requested : list string) : result TweetIterator :=
  Ok {| source := src;
        yield_list := keep_options requested [];
        skip_nohashtag := skip;
        length_ := None |}.

Section Sequence.
Context {A : Type} `{Scalar A}.

(** The loop of [yield_] over [self.yield_list] *)
Fixpoint yield_fields (g : globals A) (text tweet : pystr)
    (hashtags : list pystr) (yl : list string) (out : list (value A))
    : result (list (value A)) :=
  match yl with
  | [] => Ok out
  | yw :: rest =>
      let continue := yield_fields g text tweet hashtags rest in
      if String.eqb yw "hashtags" then
        continue (out ++ [VStrs hashtags])
      else if String.eqb yw "raw_tweet" then
        continue (out ++ [VStr (strip text)])
      else if String.eqb yw "raw_tweet_nohashtags" then
        continue (out ++ [VStr tweet])
      else if String.eqb yw "clean_tweet" then
        continue (out ++ [VStr (clean tweet)])
      else if String.eqb yw "tokenized_tweet" then
        continue (out ++ [VStrs (split (clean tweet))])
      else if String.eqb yw "word_mat" then
        let* M := text2mat g tweet "word" 140 30 in
        continue (out ++ [VMat M])
      else if String.eqb yw "char_mat" then
        let* M := text2mat g tweet "char" 140 30 in
        continue (out ++ [VMat M])
      else if String.eqb yw "chrd_mat" then
        let* M := text2mat g tweet "chrd" 140 30 in
        continue (out ++ [VMat M])
      else if String.eqb yw "label" then
        match mlb g with
        | None => Raise (NameError "mlb")
        | Some m => continue (out ++ [VMat (transform m [hashtags])])
        end
      else continue out
  end.

(** The hashtags of a text that count: all of them, or those of
    [valid_hashtags] when that set is not empty. *)
Definition known_hashtags (g : globals A) (text : pystr) : list pystr :=
  let hashtags := snd (split_hashtags text) in
  match valid_hashtags g with
  | [] => hashtags
  | _ => filter (fun h => mem_text h (valid_hashtags g)) hashtags
  end.

Definition yield_ (g : globals A) (ti : TweetIterator) (text : pystr)
    : result (list (value A)) :=
  let tweet := fst (split_hashtags text) in
  let hashtags := known_hashtags g text in
  if (length hashtags =? 0) && skip_nohashtag ti then Ok []
  else yield_fields g text tweet hashtags (yield_list ti) [].

(** One resumption of a generator: a value and the state to resume from,
    the end, or an exception. *)
Inductive resumed (V S : Type) :=
| Yielded (v : V) (s : S)
| Exhausted
| Thrown (e : error).

Arguments Yielded {V S} v s.
Arguments Exhausted {V S}.
Arguments Thrown {V S} e.

(** [next] on the generator of [__iter__]; its state is the part of the
    source not read yet. *)
Fixpoint iter_next (g : globals A) (ti : TweetIterator) (rest : list pystr)
    : resumed (value A) (list pystr) :=
  match rest with
  | [] => Exhausted
  | text :: rest' =>
      match yield_ g ti text with
      | Raise e => Thrown e
      | Ok [] => iter_next g ti rest'
      | Ok [v] => Yielded v rest'
      | Ok yw => Yielded (VList yw) rest'
      end
  end.

(** A whole pass [for x in ti]: what was yielded, and the exception that
    ended the pass if one did. *)
Fixpoint iter_all (g : globals A) (ti : TweetIterator) (rest : list pystr)
    : list (value A) * option error :=
  match rest with
  | [] => ([], None)
  | text :: rest' =>
      match yield_ g ti text with
      | Raise e => ([], Some e)
      | Ok [] => iter_all g ti rest'
      | Ok [v] =>
          let r := iter_all g ti rest' in (v :: fst r, snd r)
      | Ok yw =>
          let r := iter_all g ti rest' in (VList yw :: fst r, snd r)
      end
  end.

(** Modelled from the spec: [countLines] of [utils], which is not part of
    the sources at hand.  The spec gives the length without skipping as
    the number of lines (of a file) or elements (of a list) of the raw
    source. *)
Definition countLines (src : list pystr) : nat := length src.

(** The counting loop of [__len__]:
    [for _ in TweetIterator(self.source, True, 'hashtags'): i += 1] *)
Fixpoint count_loop (g : globals A) (counter : TweetIterator)
    (fuel : nat) (rest : list pystr) (i : nat) : result nat :=
  match fuel with
  | 0 => Ok i
  | S fuel' =>
      match iter_next g counter rest with
      | Yielded _ rest' => count_loop g counter fuel' rest' (S i)
      | Exhausted => Ok i
      | Thrown e => Raise e
      end
  end.

(** [len(ti)]: the length and the instance with its cache filled.  The
    counting pass resumes its generator at most once per source element
    and once more for the end. *)
Definition len (g : globals A) (ti : TweetIterator)
    : result (nat * TweetIterator) :=
  match length_ ti with
  | Some n => Ok (n, ti)
  | None =>
      let* n :=
        (if skip_nohashtag ti then
           let* counter := TweetIterator_init g (source ti) true
                             ["hashtags"%string] in
           count_loop g counter (S (length (source ti))) (source ti) 0
         else Ok (countLines (source ti))) in
      Ok (n, {| source := source ti;
                yield_list := yield_list ti;
                skip_nohashtag := skip_nohashtag ti;
                length_ := Some n |})
  end.

(** The loop [while j <= i: t = next(iter_); j += 1] for [i = k]: [k + 1]
    resumptions, of which the last value is kept. *)
Fixpoint advance (g : globals A) (ti : TweetIterator) (k : nat)
    (rest : list pystr) : result (value A) :=
  match iter_next g ti rest with
  | Yielded t rest' =>
      match k with
      | 0 => Ok t
      | S k' => advance g ti k' rest'
      end
  | Exhausted => Raise StopIteration
  | Thrown e => Raise e
  end.

(** [ti[i]] for an integer [i] *)
Definition getitem (g : globals A) (ti : TweetIterator) (i : Z)
    : result (value A * TweetIterator) :=
  let* r := len g ti in
  let n := Z.of_nat (fst r) in
  let ti := snd r in
  let* i :=
    (if (i <? 0)%Z then
       if (n =? 0)%Z then Raise ZeroDivisionError else Ok (i mod n)%Z
     else if (i >=? n)%Z then Raise (IndexError i n)
     else Ok i) in
  let* t := advance g ti (Z.to_nat i) (source ti) in
  Ok (t, ti).

End Sequence.

Arguments Yielded {V S} v s.
Arguments Exhausted {V S}.
Arguments Thrown {V S} e.

(** ** The batch aggregator *)

Record KerasIterator := {
  tweet_iterator : TweetIterator;
  char : bool;
  chrd : bool;
  word : bool;
  batch_size : Z
}.

Definition mat_types (char chrd word : bool) : list string :=
  (if char then ["char_mat"%string] else [])
  ++ (if chrd then ["chrd_mat"%string] else [])
  ++ (if word then ["word_mat"%string] else [])
  ++ ["label"%string].

(** [KerasIterator(source, batch_size, char, chrd, word)] *)
Definition KerasIterator_init {A} (g : globals A) (src : list pystr)
    (batch_size : Z) (char chrd word : bool) : result KerasIterator :=
  let* ti := TweetIterator_init g src true (mat_types char chrd word) in
  Ok {| tweet_iterator := ti;
        char := char; chrd := chrd; word := word;
        batch_size := batch_size |}.

Section Batches.
Context {A : Type} `{Scalar A}.

(** [v[k]] on a yielded value *)
Definition index (v : value A) (k : nat) : result (value A) :=
  let out_of_range {X} (l : list X) :=
    Raise (IndexError (Z.of_nat k) (Z.of_nat (length l))) in
  match v with
  | VList l => match l !! k with Some x => Ok x | None => out_of_range l end
  | VStrs l =>
      match l !! k with Some x => Ok (VStr x) | None => out_of_range l end
  | VStr s =>
      match s !! k with Some c => Ok (VStr [c]) | None => out_of_range s end
  | VTen T =>
      match T !! k with Some M => Ok (VMat M) | None => out_of_range T end
  | VMat M =>
      match M !! k with Some r => Ok (VVec r) | None => out_of_range M end
  | VVec r =>
      match r !! k with Some a => Ok (VNum a) | None => out_of_range r end
  | VNum _ => Raise TypeError
  end.

Fixpoint all_mats (l : list (value A)) : option (list (list (list A))) :=
  match l with
  | [] => Some []
  | VMat M :: l' =>
      match all_mats l' with Some Ms => Some (M :: Ms) | None => None end
  | _ => None
  end.

Fixpoint all_vecs (l : list (value A)) : option (list (list A)) :=
  match l with
  | [] => Some []
  | VVec v :: l' =>
      match all_vecs l' with Some vs => Some (v :: vs) | None => None end
  | _ => None
  end.

(** [np.stack(l)]: a new first axis over arrays of one shape (the arrays
    stacked here are the fixed-shape results of [text2mat]); an empty list
    is refused. *)
Definition np_stack (l : list (value A)) : result (value A) :=
  match l with
  | [] => Raise ValueError
  | _ =>
      match all_mats l, all_vecs l with
      | Some Ms, _ => Ok (VTen Ms)
      | None, Some vs => Ok (VMat vs)
      | None, None => Raise ValueError
      end
  end.

(** The rows that one array contributes to [np.vstack] *)
Definition rows_of (v : value A) : option (list (list A)) :=
  match v with
  | VMat M => Some M
  | VVec r => Some [r]
  | VNum a => Some [[a]]
  | _ => None
  end.

Fixpoint all_rows (l : list (value A)) : option (list (list A)) :=
  match l with
  | [] => Some []
  | v :: l' =>
      match rows_of v, all_rows l' with
      | Some rs, Some rest => Some (rs ++ rest)
      | _, _ => None
      end
  end.

(** [np.vstack(l)] *)
Definition np_vstack (l : list (value A)) : result (value A) :=
  match l with
  | [] => Raise ValueError
  | _ =>
      match all_rows l with
      | Some rs => Ok (VMat rs)
      | None => Raise ValueError
      end
  end.

(** The four accumulators and the counter [i] of [__iter__] *)
Record accum := {
  output_charX : list (value A);
  output_chrdX : list (value A);
  output_wordX : list (value A);
  output_y : list (value A);
  count : nat
}.

Definition fresh : accum :=
  {| output_charX := []; output_chrdX := []; output_wordX := [];
     output_y := []; count := 0 |}.

(** A batch: [(out, output_y)] *)
Definition batch : Type := list (value A) * value A.

(** The body of the inner loop up to [i += 1] *)
Definition collect (ki : KerasIterator) (outs : value A) (a : accum)
    : result accum :=
  let argout := 0 in
  let* r1 :=
    (if char ki then
       let* x := index outs argout in
       Ok (output_charX a ++ [x], S argout)
     else Ok (output_charX a, argout)) in
  let argout := snd r1 in
  let* r2 :=
    (if chrd ki then
       let* x := index outs argout in
       Ok (output_chrdX a ++ [x], S argout)
     else Ok (output_chrdX a, argout)) in
  let argout := snd r2 in
  let* r3 :=
    (if word ki then
       let* x := index outs argout in
       Ok (output_wordX a ++ [x], S argout)
     else Ok (output_wordX a, argout)) in
  let argout := snd r3 in
  let* y := index outs argout in
  Ok {| output_charX := fst r1; output_chrdX := fst r2;
        output_wordX := fst r3; output_y := output_y a ++ [y];
        count := S (count a) |}.

(** The stacking before a [yield] *)
Definition stacked (ki : KerasIterator) (a : accum) : result batch :=
  let out := [] in
  let* out :=
    (if char ki then
       let* x := np_stack (output_charX a) in Ok (out ++ [x])
     else Ok out) in
  let* out :=
    (if chrd ki then
       let* x := np_stack (output_chrdX a) in Ok (out ++ [x])
     else Ok out) in
  let* out :=
    (if word ki then
       let* x := np_stack (output_wordX a) in Ok (out ++ [x])
     else Ok out) in
  let* y := np_vstack (output_y a) in
  Ok (out, y).

(** The state of the generator of [__iter__]: what the current pass over
    [tweet_iterator] has not read yet, and the accumulators. *)
Record kstate := {
  pending : list pystr;
  acc : accum
}.

Definition start (ki : KerasIterator) : kstate :=
  {| pending := source (tweet_iterator ki); acc := fresh |}.

Inductive progress :=
| Emitted (b : batch) (s : kstate)
| Failed (e : error)
| Silent (s : kstate).

(** One turn of the loops: either the inner loop takes the next element of
    the pass, or the pass is over, the rest is flushed and [repeat] hands
    out the sequence again. *)
Definition turn (g : globals A) (ki : KerasIterator) (s : kstate)
    : progress :=
  match iter_next g (tweet_iterator ki) (pending s) with
  | Thrown e => Failed e
  | Yielded outs rest =>
      match collect ki outs (acc s) with
      | Raise e => Failed e
      | Ok a =>
          if (Z.of_nat (count a) =? batch_size ki)%Z then
            match stacked ki a with
            | Raise e => Failed e
            | Ok b => Emitted b {| pending := rest; acc := fresh |}
            end
          else Silent {| pending := rest; acc := a |}
      end
  | Exhausted =>
      let again := source (tweet_iterator ki) in
      if 0 <? count (acc s) then
        match stacked ki (acc s) with
        | Raise e => Failed e
        | Ok b => Emitted b {| pending := again; acc := fresh |}
        end
      else Silent {| pending := again; acc := acc s |}
  end.

(** [next(ki)]: turns until a batch is yielded.  [None]: still running
    after [fuel] turns. *)
Fixpoint KerasIterator_next (g : globals A) (ki : KerasIterator)
    (fuel : nat) (s : kstate) : option (resumed batch kstate) :=
  match fuel with
  | 0 => None
  | S fuel' =>
      match turn g ki s with
      | Emitted b s' => Some (Yielded b s')
      | Failed e => Some (Thrown e)
      | Silent s' => KerasIterator_next g ki fuel' s'
      end
  end.

(** The first [k] batches, each obtained within [fuel] turns *)
Fixpoint first_batches (g : globals A) (ki : KerasIterator) (fuel k : nat)
    (s : kstate) : option (list batch) :=
  match k with
  | 0 => Some []
  | S k' =>
      match KerasIterator_next g ki fuel s with
      | Some (Yielded b s') =>
          match first_batches g ki fuel k' s' with
          | Some bs => Some (b :: bs)
          | None => None
          end
      | _ => None
      end
  end.

(** Number of examples in a batch: the rows of its label matrix *)
Definition batch_len (b : batch) : nat :=
  match snd b with
  | VMat M => length M
  | _ => 0
  end.

End Batches.

Arguments accum A : clear implicits.
Arguments kstate A : clear implicits.
Arguments batch A : clear implicits.
Arguments progress A : clear implicits.

(** ** Reference notions used by the statements *)

(** Integer entries, for concrete runs *)
#[export] Instance Z_scalar : Scalar Z :=
  {| zero := 0%Z; one := 1%Z; add := Z.add |}.

Section Reference.
Context {A : Type} `{Scalar A}.

(** The entry reached from [zero] by [n] increments [+= 1] *)
Definition counted (n : nat) : A := Nat.iter n (fun v => add v one) zero.

Fixpoint occurrences (c : ascii) (s : pystr) : nat :=
  match s with
  | [] => 0
  | d :: s' => (if Ascii.eqb c d then 1 else 0) + occurrences c s'
  end.

(** The row of per-character counts of one token, over [char_options] *)
Definition token_counts (w : pystr) : list A :=
  map (fun c => counted (occurrences c w)) char_options.

(** The one-hot row of a character *)
Definition one_hot (c : ascii) : list A :=
  <[index_of c char_options := one]> (replicate (length char_options) zero).

(** What the inner loop of the [chrd] branch does to the row of a token *)
Fixpoint bump (w : pystr) (row : list A) : list A :=
  match w with
  | [] => row
  | c :: w' =>
      bump w' (if in_char_options_set c
               then alter (fun v => add v one) (index_of c char_options) row
               else row)
  end.

(** [M.shape == (r, c)] *)
Definition has_shape (r c : nat) (M : list (list A)) : Prop :=
  length M = r /\ Forall (fun row => length row = c) M.

(** A matrix of [max_words] rows whose row [i] holds the counts of the
    [i]-th token, or zeros where the tokens have run out *)
Definition rows_from_tokens (tokens : list pystr) (max_words : nat)
    (M : list (list A)) : Prop :=
  length M = max_words
  /\ forall i, i < max_words ->
       M !! i = Some (match tokens !! i with
                      | Some w => token_counts w
                      | None => replicate (length char_options) zero
                      end).

(** Every stored vector has [layer1_size] components. *)
Definition well_formed (store : Word2Vec A) : Prop :=
  forall w v, vector store w = Some v -> length v = layer1_size store.

End Reference.

Definition no_models : globals Z := {| w2v := None; mlb := None |}.


(** A two-dimensional model that knows one word, and a binarizer that
    knows one hashtag *)
Definition toy_store : Word2Vec Z :=
  {| layer1_size := 2;
     vector := fun w => if text_eqb w (str "hello")
                        then Some [1%Z; 2%Z] else None |}.

Definition toy_mlb : MultiLabelBinarizer := {| classes_ := [str "#ok"] |}.

Definition toy_models : globals Z :=
  {| w2v := Some toy_store; mlb := Some toy_mlb |}.

(** ** Reference notions for the sequence *)

Section SequenceReference.
Context {A : Type} `{Scalar A}.

(** What one field name stands for on one text; [None] for a name that
    is not a field. *)
Definition field_value (g : globals A) (text : pystr) (yw : string)
    : option (result (value A)) :=
  let tweet := fst (split_hashtags text) in
  let hashtags := known_hashtags g text in
  let mat (mat_type : string) :=
    Some (let* M := text2mat g tweet mat_type 140 30 in Ok (VMat M)) in
  if String.eqb yw "hashtags" then Some (Ok (VStrs hashtags))
  else if String.eqb yw "raw_tweet" then Some (Ok (VStr (strip text)))
  else if String.eqb yw "raw_tweet_nohashtags" then Some (Ok (VStr tweet))
  else if String.eqb yw "clean_tweet" then Some (Ok (VStr (clean tweet)))
  else if String.eqb yw "tokenized_tweet"
  then Some (Ok (VStrs (split (clean tweet))))
  else if String.eqb yw "word_mat" then mat "word"%string
  else if String.eqb yw "char_mat" then mat "char"%string
  else if String.eqb yw "chrd_mat" then mat "chrd"%string
  else if String.eqb yw "label" then
    Some (match mlb g with
          | None => Raise (NameError "mlb")
          | Some m => Ok (VMat (transform m [hashtags]))
          end)
  else None.

(** The values of the fields [yl], in the order of [yl], up to the first
    that raises *)
Fixpoint fields_in_order (g : globals A) (text : pystr) (yl : list string)
    : result (list (value A)) :=
  match yl with
  | [] => Ok []
  | yw :: rest =>
      match field_value g text yw with
      | None => fields_in_order g text rest
      | Some r =>
          let* v := r in
          let* vs := fields_in_order g text rest in
          Ok (v :: vs)
      end
  end.

(** The order of the field list in the documentation of the sequence *)
Definition canonical_order (yl : list string) : list string :=
  filter (fun o => mem_string o yl) yw_options.

(** Does the text pass the filter [skip_nohashtag]? *)
Definition survives (g : globals A) (text : pystr) : bool :=
  negb (length (known_hashtags g text) =? 0).

(** The texts of a source from which the sequence yields *)
Definition survivors (g : globals A) (ti : TweetIterator) : list pystr :=
  if skip_nohashtag ti then filter (survives g) (source ti) else source ti.

(** The instance that [__len__] builds for its counting pass *)
Definition counter (src : list pystr) : TweetIterator :=
  {| source := src; yield_list := ["hashtags"%string];
     skip_nohashtag := true; length_ := None |}.

(** The instance after [self.length = n] *)
Definition with_length (n : nat) (ti : TweetIterator) : TweetIterator :=
  {| source := source ti; yield_list := yield_list ti;
     skip_nohashtag := skip_nohashtag ti; length_ := Some n |}.

(** The exceptions that producing an item can raise: an unbound name or
    a vector that does not fit its row *)
Definition production_error (e : error) : Prop :=
  match e with
  | NameError _ | UnboundLocalError _ | ValueError => True
  | _ => False
  end.

(** Exceptions other than [IndexError] *)
Definition not_index_error (e : error) : Prop :=
  match e with
  | IndexError _ _ => False
  | _ => True
  end.

Definition with_source (src : list pystr) (ti : TweetIterator)
    : TweetIterator :=
  {| source := src; yield_list := yield_list ti;
     skip_nohashtag := skip_nohashtag ti; length_ := length_ ti |}.

End SequenceReference.

(** ** Reference notions for the batches *)

Section BatchReference.
Context {A : Type} `{Scalar A}.

(** The rows of the label matrix of a batch *)
Definition y_rows (b : batch A) : list (list A) :=
  match snd b with
  | VMat M => M
  | _ => []
  end.

(** What [__iter__] of the sequence yields for the result of [yield_]:
    nothing, the bare value, or the list *)
Definition yielded (yw : list (value A)) : option (value A) :=
  match yw with
  | [] => None
  | [v] => Some v
  | _ => Some (VList yw)
  end.

(** The batches that the aggregator emits from the texts [rest] of the
    current pass and the accumulators [a], up to and including the flush
    at the end of the pass *)
Fixpoint rest_of_pass (g : globals A) (ki : KerasIterator)
    (rest : list pystr) (a : accum A) : result (list (batch A)) :=
  match rest with
  | [] =>
      if 0 <? count a
      then let* b := stacked ki a in Ok [b]
      else Ok []
  | t :: rest' =>
      let* yw := yield_ g (tweet_iterator ki) t in
      match yielded yw with
      | None => rest_of_pass g ki rest' a
      | Some outs =>
          let* a' := collect ki outs a in
          if (Z.of_nat (count a') =? batch_size ki)%Z then
            let* b := stacked ki a' in
            let* bs := rest_of_pass g ki rest' fresh in
            Ok (b :: bs)
          else rest_of_pass g ki rest' a'
      end
  end.

(** One pass from its beginning *)
Definition one_pass (g : globals A) (ki : KerasIterator)
    : result (list (batch A)) :=
  rest_of_pass g ki (source (tweet_iterator ki)) fresh.

(** The accumulators hold what can be stacked: under an enabled flag one
    matrix per example, under a disabled flag nothing *)
Definition stackable (flag : bool) (l : list (value A)) (n : nat) : Prop :=
  if flag then length l = n /\ exists Ms, all_mats l = Some Ms
  else l = [].

(** The accumulators after the examples whose label rows are [R] *)
Definition holds (ki : KerasIterator) (a : accum A) (R : list (list A))
    : Prop :=
  count a = length R
  /\ length (output_y a) = length R
  /\ all_rows (output_y a) = Some R
  /\ stackable (char ki) (output_charX a) (length R)
  /\ stackable (chrd ki) (output_chrdX a) (length R)
  /\ stackable (word ki) (output_wordX a) (length R).

(** The aggregator as its constructor wires it: the sequence skips texts
    without hashtags and yields the enabled matrices, then the label *)
Definition wired (ki : KerasIterator) : Prop :=
  yield_list (tweet_iterator ki) = mat_types (char ki) (chrd ki) (word ki)
  /\ skip_nohashtag (tweet_iterator ki) = true.

(** A model is loaded, and well formed, if [word_mat] is asked for. *)
Definition word_ready (g : globals A) (ki : KerasIterator) : Prop :=
  word ki = true -> exists store, w2v g = Some store /\ well_formed store.

(** The matrix of a text for one matrix type, as the sequence yields it:
    [text2mat] of the text without its hashtags (the empty matrix where
    [text2mat] raises) *)
Definition mat_of (g : globals A) (mat_type : string) (t : pystr)
    : list (list A) :=
  match text2mat g (fst (split_hashtags t)) mat_type 140 30 with
  | Ok M => M
  | Raise _ => []
  end.

(** The tensors of the batch made of the texts [ts]: for each enabled
    matrix type, in the order char, chrd, word, the matrices of the texts
    stacked in the order of the texts *)
Definition tensors_of (g : globals A) (ki : KerasIterator)
    (ts : list pystr) : list (value A) :=
  (if char ki then [VTen (map (mat_of g "char") ts)] else [])
  ++ (if chrd ki then [VTen (map (mat_of g "chrd") ts)] else [])
  ++ (if word ki then [VTen (map (mat_of g "word") ts)] else []).

(** The batch made of the texts [ts]: the tensors, and the label matrix
    with one row per text *)
Definition batch_of (g : globals A) (ki : KerasIterator)
    (m : MultiLabelBinarizer) (ts : list pystr) : batch A :=
  (tensors_of g ki ts, VMat (transform m (map (known_hashtags g) ts))).

(** The matrix accumulators after the texts [ts] *)
Definition gathered (g : globals A) (ki : KerasIterator) (a : accum A)
    (ts : list pystr) : Prop :=
  output_charX a
  = (if char ki then map (fun t => VMat (mat_of g "char" t)) ts else [])
  /\ output_chrdX a
     = (if chrd ki then map (fun t => VMat (mat_of g "chrd" t)) ts else [])
  /\ output_wordX a
     = (if word ki then map (fun t => VMat (mat_of g "word" t)) ts else []).

(** The sizes of the batches of a pass of [n] examples that starts with
    [c] examples accumulated, for the batch size [B] *)
Definition sizes (B c n : nat) : list nat :=
  replicate ((c + n) / B) B
  ++ (if (c + n) mod B =? 0 then [] else [(c + n) mod B]).

End BatchReference.

(** Seven tweets with the known hashtag *)
Definition seven_tweets : list pystr :=
  [str "#ok a"; str "b #ok"; str "#ok c"; str "d #ok"; str "#ok e";
   str "f #ok"; str "#ok g"].

(** The aggregator over [seven_tweets] with batch size 3 and all three
    matrices enabled *)
Definition seven_by_three : KerasIterator :=
  {| tweet_iterator :=
       {| source := seven_tweets;
          yield_list := mat_types true true true;
          skip_nohashtag := true;
          length_ := None |};
     char := true; chrd := true; word := true;
     batch_size := 3 |}.

(** ** Reference notions for the normaliser *)

(** The six substitutions of [clean], between [lower] and [strip] *)
Inductive stage := Url | Collapse | Email | Mention | Retweet | Multspace.

Definition apply_stage (st : stage) (s : pystr) : pystr :=
  match st with
  | Url => Re.sub url_regex (str " httpurl") s
  | Collapse => Re.sub noncharacter_regex (str " ") s
  | Email => Re.sub email_regex (str " email@address ") s
  | Mention => Re.sub mention_regex (str " @user") s
  | Retweet => Re.sub retweet_regex (str " ") s
  | Multspace => Re.sub multspace_regex (str " ") s
  end.

(** [lower], the substitutions in the given order, [strip] *)
Definition run_stages (order : list stage) (tweet : pystr) : pystr :=
  strip (fold_left (fun s st => apply_stage st s) order (lower tweet)).

(** The order of the statements of [clean] *)
Definition code_order : list stage :=
  [Url; Collapse; Email; Mention; Retweet; Multspace].

(** An order with the email and mention substitutions before the
    collapse *)
Definition stated_order : list stage :=
  [Url; Email; Mention; Collapse; Retweet; Multspace].

Definition stage_eqb (x y : stage) : bool :=
  match x, y with
  | Url, Url | Collapse, Collapse | Email, Email | Mention, Mention
  | Retweet, Retweet | Multspace, Multspace => true
  | _, _ => false
  end.

Fixpoint position (x : stage) (order : list stage) : nat :=
  match order with
  | [] => 0
  | y :: rest => if stage_eqb x y then 0 else S (position x rest)
  end.

(** [x] comes before [y] in the order *)
Definition before (x y : stage) (order : list stage) : bool :=
  position x order <? position y order.

(** What a substitution of [cls+] by [repl] does: each maximal run of the
    class becomes one [repl].  [in_run]: the previous character was of the
    class. *)
Fixpoint squeeze (cls : ascii -> bool) (repl : pystr) (in_run : bool)
    (s : pystr) : pystr :=
  match s with
  | [] => []
  | c :: s' =>
      if cls c
      then if in_run then squeeze cls repl true s'
           else repl ++ squeeze cls repl true s'
      else c :: squeeze cls repl false s'
  end.

(** The characters of a cleaned text: [@], digits, lower-case ASCII
    letters, and the space *)
Definition kept_char (c : ascii) : bool :=
  is_char 64 c || in_range 48 57 c || in_range 97 122 c.

Definition plain_char (c : ascii) : bool := kept_char c || is_char 32 c.

Definition not_upper_ascii (c : ascii) : bool := negb (in_range 65 90 c).

(** No two spaces in a row *)
Fixpoint single_spaced (s : pystr) : bool :=
  match s with
  | c :: (d :: _) as s' =>
      negb (is_char 32 c && is_char 32 d) && single_spaced s'
  | _ => true
  end.

(** The first character, if any, is not a space; is not whitespace *)
Definition starts_unspaced (s : pystr) : Prop :=
  match s with
  | c :: _ => is_char 32 c = false
  | [] => True
  end.

Definition starts_nonspace (s : pystr) : Prop :=
  match s with
  | c :: _ => isspace c = false
  | [] => True
  end.

(** No whitespace at either end *)
Definition trimmed (s : pystr) : Prop :=
  lstrip s = s /\ lstrip (rev s) = rev s.

(** The shape of a cleaned text *)
Definition normal (s : pystr) : Prop :=
  Forall (fun c => plain_char c = true) s
  /\ single_spaced s = true
  /\ trimmed s.

(** ** Reference notions for a second pass of the normaliser *)

(** [s.startswith(prefix)] *)
Fixpoint starts_with (prefix s : pystr) : bool :=
  match prefix, s with
  | [], _ => true
  | p :: prefix', c :: s' => Ascii.eqb p c && starts_with prefix' s'
  | _ :: _, [] => false
  end.

(** A token that the URL pattern matches: [http] and at least one more
    character *)
Definition url_like (t : pystr) : bool :=
  starts_with (str "http") t && (4 <? length t).

(** The characters [s] of a token after its first one give the email
    pattern nothing to match: every [@] among them ends the token or, in
    the last token of the text, has at most two characters after it. *)
Fixpoint at_ok (last : bool) (s : pystr) : bool :=
  match s with
  | [] => true
  | c :: s' =>
      (if Ascii.eqb c "@"
       then (length s' =? 0) || (last && (length s' <=? 2))
       else true)
      && at_ok last s'
  end.

(** In a token that starts with [@], the word characters that follow are
    none or exactly [user]. *)
Definition mention_ok (t : pystr) : bool :=
  match t with
  | c :: t' =>
      if Ascii.eqb c "@"
      then let k := Re.span word_char t' in
           (k =? 0) || text_eqb (take k t') (str "user")
      else true
  | [] => true
  end.

(** A token that each substitution of [clean] passes over or replaces by
    itself; [last]: it is the last token of the text *)
Definition ordinary (last : bool) (t : pystr) : bool :=
  at_ok last (tail t)
  && mention_ok t
  && (negb (url_like t) || text_eqb t (str "httpurl"))
  && (negb (text_eqb t (str "rt")) || last).

(** The same, or the placeholder of an email address at the end of the
    text *)
Definition settled_token (last : bool) (t : pystr) : bool :=
  (last && text_eqb t (str "email@address")) || ordinary last t.

(** The tokens of a text that a second [clean] leaves as it is *)
Fixpoint settled (ts : list pystr) : bool :=
  match ts with
  | [] => true
  | t :: ts' =>
      match ts' with
      | [] => settled_token true t
      | _ :: _ => settled_token false t && settled ts'
      end
  end.

(** Tokens, each after one space *)
Definition sp_join (ts : list pystr) : pystr :=
  concat (map (fun t => " "%char :: t) ts).

(** What follows a token: nothing, or a space *)
Definition gap (r : pystr) : Prop := r = [] \/ exists r', r = " "%char :: r'.

(** A pattern [\A body | \s body] *)
Definition anchored (body : list Re.atom) : Re.pattern :=
  [Re.Bos :: body; Re.One space_char :: body].

(** On the token [t] followed by [r], the body matches nothing, or
    matches a head [w] of the token, which the replacement gives back *)
Definition reproduced (body : list Re.atom) (w t r : pystr) : Prop :=
  (forall b, Re.match_seq body b (t ++ r) = None)
  \/ (w <> []
      /\ (exists u, t = w ++ u)
      /\ forall b, Re.match_seq body b (t ++ r) = Some (length w)).

(** [P t r] for every token [t] of [T] and what follows it in
    [sp_join T ++ rest] *)
Fixpoint each_token (P : pystr -> pystr -> Prop) (T : list pystr)
    (rest : pystr) : Prop :=
  match T with
  | [] => True
  | t :: T' => P t (sp_join T' ++ rest) /\ each_token P T' rest
  end.

(** Is nothing left after a token? *)
Definition is_last (r : pystr) : bool :=
  match r with
  | [] => true
  | _ :: _ => false
  end.

(** The token [t], followed by [r], is one that a second pass leaves *)
Definition passes (t r : pystr) : Prop :=
  t <> []
  /\ Forall (fun c => isspace c = false) t
  /\ gap r
  /\ ordinary (is_last r) t = true.

(** The patterns of [clean] after their anchor *)
Definition url_body : list Re.atom :=
  [Re.One (chr "h"); Re.One (chr "t"); Re.One (chr "t"); Re.One (chr "p");
   Re.Many nonspace_char].

Definition mention_body : list Re.atom :=
  [Re.One (chr "@"); Re.Many word_char].

Definition retweet_body : list Re.atom :=
  [Re.One (chr "r"); Re.One (chr "t"); Re.One space_char].

From Stdlib Require Import Sorting.Sorted.

(** ** Further reference notions *)

(** The characters of the class [[^@0-9a-zA-Z]] only *)
Definition no_characters (s : pystr) : Prop :=
  Forall (fun c => noncharacter_class c = true) s.

(** No [#] in the text *)
Definition no_hash (s : pystr) : Prop :=
  Forall (fun c => chr "#" c = false) s.

Section EncoderReference.
Context {A : Type} `{Scalar A}.

(** A loop that rewrites row [i], [i+1], ... of [M] from the elements of
    [xs], one row per element, and stops at row [cap] *)
Fixpoint rows_loop {X : Type} (f : X -> list A -> list A) (cap i : nat)
    (xs : list X) (M : list (list A)) : list (list A) :=
  match xs with
  | [] => M
  | x :: xs' =>
      if cap <=? i then M
      else rows_loop f cap (S i) xs' (alter (f x) i M)
  end.

(** What the [char] branch does to the row of a character *)
Definition mark (c : ascii) (row : list A) : list A :=
  if in_char_options_set c
  then <[index_of c char_options := one]> row
  else row.

(** What the [word] branch does to the row of a word *)
Definition embed (store : Word2Vec A) (w : pystr) (row : list A) : list A :=
  match vector store w with
  | Some v => v
  | None => row
  end.

(** The row of a character in the [char] matrix *)
Definition char_row (c : ascii) : list A :=
  if in_char_options_set c then one_hot c
  else replicate (length char_options) zero.

(** The row of a word in the [word] matrix *)
Definition word_row (store : Word2Vec A) (w : pystr) : list A :=
  match vector store w with
  | Some v => v
  | None => replicate (layer1_size store) zero
  end.

End EncoderReference.

Section IterationReference.
Context {A : Type} `{Scalar A}.

(** The item that the sequence yields for a text, if it yields one *)
Definition item_of (g : globals A) (ti : TweetIterator) (t : pystr)
    (item : value A) : Prop :=
  exists vs, yield_ g ti t = Ok vs /\ yielded vs = Some item.

(** What ends a scan that runs out of items: the exception that ended the
    pass, or [StopIteration] *)
Definition scan_end (err : option error) : error :=
  match err with
  | Some e => e
  | None => StopIteration
  end.

End IterationReference.

Section StackReference.
Context {A : Type} `{Scalar A}.

(** How many of the three matrices the aggregator has enabled *)
Definition enabled (ki : KerasIterator) : nat :=
  Nat.b2n (char ki) + Nat.b2n (chrd ki) + Nat.b2n (word ki).

(** The shapes of the three matrices of a text: [(140, 68)], [(30, 68)]
    and, with a well-formed model loaded, [(30, layer1_size)] *)
Definition shaped (g : globals A) (t : pystr) : Prop :=
  has_shape 140 (length char_options) (mat_of g "char" t)
  /\ has_shape 30 (length char_options) (mat_of g "chrd" t)
  /\ forall store,
       w2v g = Some store -> well_formed store ->
       has_shape 30 (layer1_size store) (mat_of g "word" t).

(** A batch made of some texts [ts]: one tensor per enabled matrix type,
    first the stacked [char] matrices of the texts, then the stacked
    [chrd] matrices, then the stacked [word] matrices, each with one
    matrix per text in the order of the texts, and as many label rows *)
Definition well_stacked (g : globals A) (ki : KerasIterator) (b : batch A)
    : Prop :=
  exists ts,
    ts <> []
    /\ fst b
       = (if char ki then [VTen (map (mat_of g "char") ts)] else [])
         ++ (if chrd ki then [VTen (map (mat_of g "chrd") ts)] else [])
         ++ (if word ki then [VTen (map (mat_of g "word") ts)] else [])
    /\ length (fst b) = enabled ki
    /\ batch_len b = length ts
    /\ Forall (shaped g) ts.

End StackReference.

(** ** Counting hashtags: [PrepareHashtags] *)

(** A Python [dict] with string keys: the items in insertion order *)
Definition dict (V : Type) : Type := list (pystr * V).

Fixpoint dict_get {V : Type} (d : dict V) (k : pystr) : option V :=
  match d with
  | [] => None
  | (k', v) :: d' => if text_eqb k k' then Some v else dict_get d' k
  end.

Definition keys {V : Type} (d : dict V) : list pystr := map fst d.

(** The body of the inner loop on [counts]:
    [counts[h] = 1] for a new key, [counts[h] += 1] for a known one *)
Fixpoint count_one (h : pystr) (counts : dict nat) : dict nat :=
  match counts with
  | [] => [(h, 1)]
  | (k, n) :: rest =>
      if text_eqb h k then (k, S n) :: rest
      else (k, n) :: count_one h rest
  end.

(** [counts[x]] for a key of the dictionary *)
Definition count_of (counts : dict nat) (x : pystr) : nat :=
  match dict_get counts x with
  | Some n => n
  | None => 0
  end.

(** [sorted(l, key=key)]: the stable sort; each element goes behind the
    elements placed so far whose key is not larger *)
Fixpoint insert_by (key : pystr -> Z) (x : pystr) (l : list pystr)
    : list pystr :=
  match l with
  | [] => [x]
  | y :: l' =>
      if (key x <? key y)%Z then x :: l else y :: insert_by key x l'
  end.

Definition sorted_by (key : pystr -> Z) (l : list pystr) : list pystr :=
  fold_left (fun placed x => insert_by key x placed) l [].

(** [l[:n]] for an integer [n] *)
Definition up_to {X : Type} (n : Z) (l : list X) : list X :=
  if (0 <=? n)%Z then take (Z.to_nat n) l
  else take (length l - Z.to_nat (- n)) l.

(** Occurrences of a string in a list of strings *)
Fixpoint tally (k : pystr) (l : list pystr) : nat :=
  match l with
  | [] => 0
  | h :: l' => (if text_eqb k h then 1 else 0) + tally k l'
  end.

Section Prepare.
Context {A : Type} `{Scalar A}.

(** The strings that [for h in hashtags] visits; the sequence is built
    with the one field ['hashtags'], whose items are lists of strings *)
Definition hashtags_of (item : value A) : list pystr :=
  match item with
  | VStrs l => l
  | _ => []
  end.

(** [PrepareHashtags(source, top_n)]: what it hands to [saveList] and to
    [savePickle].  The progress messages and the creation of the
    directory are left out, and so is [counts_details], which is filled
    next to [counts] and never read. *)
Definition PrepareHashtags (g : globals A) (src : list pystr) (top_n : Z)
    : result (list pystr * dict nat) :=
  let* ti := TweetIterator_init g src true ["hashtags"%string] in
  let pass := iter_all g ti src in
  match snd pass with
  | Some e => Raise e
  | None =>
      let counts :=
        fold_left
          (fun counts item => fold_left (fun counts h => count_one h counts)
                                (hashtags_of item) counts)
          (fst pass) [] in
      let counts_sorted :=
        sorted_by (fun x => (- Z.of_nat (count_of counts x))%Z)
          (keys counts) in
      let top_hashtags := up_to top_n counts_sorted in
      Ok (top_hashtags, counts)
  end.

End Prepare.

(** ** [sub] *)

(** [sep.join(words)] *)
Fixpoint join (sep : pystr) (words : list pystr) : pystr :=
  match words with
  | [] => []
  | [w] => w
  | w :: rest => w ++ sep ++ join sep rest
  end.

Section Substitution.
Context {A : Type}.

(** [w2v.most_similar(word)], the neighbours of a word with their scores,
    and [>] on scores *)
Variable most_similar : Word2Vec A -> pystr -> list (pystr * A).
Variable gt : A -> A -> bool.

(** The loop of [sub] over the indices [range_]; it ends at the first
    replacement ([break]). *)
Fixpoint sub_loop (m : Word2Vec A) (thresh : A) (range_ : list nat)
    (words : list pystr) : result (list pystr) :=
  match range_ with
  | [] => Ok words
  | i :: range_ =>
      match words !! i with
      | None => Raise (IndexError (Z.of_nat i) (Z.of_nat (length words)))
      | Some word =>
          match vector m word with
          | None => sub_loop m thresh range_ words
          | Some _ =>
              match most_similar m word with
              | [] => Raise (IndexError 0 0)
              | most_sim :: _ =>
                  if gt (snd most_sim) thresh
                  then Ok (<[i := fst most_sim]> words)
                  else sub_loop m thresh range_ words
              end
          end
      end
  end.

(** [sub(tweet, thresh)].  With no model [w2v] is [False], and
    [words[i] in w2v] is a [TypeError] at the first word. *)
Definition sub (g : globals A) (tweet : pystr) (thresh : A)
    : result pystr :=
  let words := split tweet in
  let* words :=
    match w2v g with
    | Some m => sub_loop m thresh (seq 0 (length words)) words
    | None =>
        match words with
        | [] => Ok words
        | _ :: _ => Raise TypeError
        end
    end in
  Ok (join (str " ") words).

(** A word that the loop passes over: not in the model, or its nearest
    neighbour does not score above the threshold *)
Definition passed_over (m : Word2Vec A) (thresh : A) (word : pystr)
    : bool :=
  match vector m word with
  | None => true
  | Some _ =>
      match most_similar m word with
      | [] => false
      | most_sim :: _ => negb (gt (snd most_sim) thresh)
      end
  end.

(** A word of the model whose nearest neighbour [word'] scores above the
    threshold *)
Definition replaced_by (m : Word2Vec A) (thresh : A) (word word' : pystr)
    : Prop :=
  vector m word <> None
  /\ exists score others,
       most_similar m word = (word', score) :: others
       /\ gt score thresh = true.

End Substitution.

(** A token: not empty and free of whitespace *)
Definition token (w : pystr) : Prop :=
  w <> [] /\ Forall (fun c => isspace c = false) w.

(** A toy model for [sub]: it knows [cat] and [dog], and the nearest
    neighbour of each is the other, with score 95 for [cat] and 50 for
    [dog] *)
Definition toy_neighbours (m : Word2Vec Z) (word : pystr)
    : list (pystr * Z) :=
  if text_eqb word (str "cat") then [(str "dog", 95%Z)]
  else if text_eqb word (str "dog") then [(str "cat", 50%Z)]
  else [].

Definition pets : Word2Vec Z :=
  {| layer1_size := 1;
     vector := fun w => if text_eqb w (str "cat") || text_eqb w (str "dog")
                        then Some [0%Z] else None |}.

Definition pet_models : globals Z := {| w2v := Some pets; mlb := None |}.

(** ** Slices of a sequence *)

Module Slice.

(** [slice(start, stop, step)], with [None] for a part left out *)
Record slice := {
  start : option Z;
  stop : option Z;
  step : option Z
}.

(** [s.indices(n)]: the start, stop and step of the slice on a sequence
    of length [n] *)
Definition indices (s : slice) (n : Z) : result (Z * Z * Z) :=
  let step := match step s with None => 1%Z | Some k => k end in
  if (step =? 0)%Z then Raise ValueError
  else
    let lower := if (step <? 0)%Z then (-1)%Z else 0%Z in
    let upper := if (step <? 0)%Z then (n - 1)%Z else n in
    let clip (bound : Z) :=
      if (bound <? 0)%Z then Z.max (bound + n) lower
      else Z.min bound upper in
    let start :=
      match start s with
      | None => if (step <? 0)%Z then upper else lower
      | Some a => clip a
      end in
    let stop :=
      match stop s with
      | None => if (step <? 0)%Z then lower else upper
      | Some b => clip b
      end in
    Ok (start, stop, step).

(** [len(range(start, stop, step))] *)
Definition range_len (start stop step : Z) : Z :=
  if (0 <? step)%Z then
    if (start <? stop)%Z then ((stop - start - 1) / step + 1)%Z else 0%Z
  else if (step <? 0)%Z then
    if (stop <? start)%Z then ((start - stop - 1) / (- step) + 1)%Z
    else 0%Z
  else 0%Z.

(** [range(start, stop, step)] *)
Definition range (start stop step : Z) : list Z :=
  map (fun k => (start + Z.of_nat k * step)%Z)
    (seq 0 (Z.to_nat (range_len start stop step))).

End Slice.

Section Slicing.
Context {A : Type} `{Scalar A}.

(** [[self[j] for j in js]]; every [self[j]] may fill the length cache *)
Fixpoint getitems (g : globals A) (ti : TweetIterator) (js : list Z)
    : result (list (value A) * TweetIterator) :=
  match js with
  | [] => Ok ([], ti)
  | j :: js' =>
      let* r := getitem g ti j in
      let* rs := getitems g (snd r) js' in
      Ok (fst r :: fst rs, snd rs)
  end.

(** [ti[i]] for a slice [i] *)
Definition getitem_slice (g : globals A) (ti : TweetIterator)
    (i : Slice.slice) : result (list (value A) * TweetIterator) :=
  let* r := len g ti in
  let* idx := Slice.indices i (Z.of_nat (fst r)) in
  getitems g (snd r) (Slice.range (fst (fst idx)) (snd (fst idx)) (snd idx)).

End Slicing.
(** * Properties *)

(** ** The feature encoder *)

Section EncoderFacts.
Context {A : Type} `{Scalar A}.

Lemma np_zeros_shape (r c : nat) : has_shape r c (np_zeros r c).
Proof.
  split.
  - apply length_replicate.
  - apply Forall_replicate, length_replicate.
Qed.

Lemma set_entry_shape (r c i j : nat) (v : A) (M : list (list A)) :
  has_shape r c M -> has_shape r c (set_entry i j v M).
Proof.
  intros [Hl Hr]. split.
  - unfold set_entry. now rewrite length_alter.
  - unfold set_entry. apply Forall_alter; [exact Hr|].
    intros row _ Hrow. now rewrite length_insert.
Qed.

Lemma incr_entry_shape (r c i j : nat) (M : list (list A)) :
  has_shape r c M -> has_shape r c (incr_entry i j M).
Proof.
  intros [Hl Hr]. split.
  - unfold incr_entry. now rewrite length_alter.
  - unfold incr_entry. apply Forall_alter; [exact Hr|].
    intros row _ Hrow. now rewrite length_alter.
Qed.

Lemma char_loop_shape (r c : nat) (s : pystr) :
  forall max_chars i M,
    has_shape r c M -> has_shape r c (char_loop max_chars i s M).
Proof.
  induction s as [|ch s IH]; intros max_chars i M HM; simpl; [exact HM|].
  destruct (max_chars <=? i); [exact HM|].
  apply IH. destruct (in_char_options_set ch); [|exact HM].
  now apply set_entry_shape.
Qed.

Lemma chrd_word_shape (r c i : nat) (w : pystr) :
  forall M, has_shape r c M -> has_shape r c (chrd_word i w M).
Proof.
  induction w as [|ch w IH]; intros M HM; simpl; [exact HM|].
  apply IH. destruct (in_char_options_set ch); [|exact HM].
  now apply incr_entry_shape.
Qed.

Lemma chrd_loop_shape (r c : nat) (ws : list pystr) :
  forall max_words i M,
    has_shape r c M -> has_shape r c (chrd_loop max_words i ws M).
Proof.
  induction ws as [|w ws IH]; intros max_words i M HM; simpl; [exact HM|].
  destruct (max_words <=? i); [exact HM|].
  apply IH. now apply chrd_word_shape.
Qed.

Lemma set_row_shape (r d i : nat) (v : list A) (M : list (list A)) :
  length v = d -> has_shape r d M ->
  set_row d i v M = Ok (<[i := v]> M) /\ has_shape r d (<[i := v]> M).
Proof.
  intros Hv [Hl Hr]. unfold set_row.
  rewrite (proj2 (Nat.eqb_eq _ _) Hv). split; [reflexivity|].
  split.
  - now rewrite length_insert.
  - apply Forall_insert; assumption.
Qed.

Lemma word_loop_shape (store : Word2Vec A) (r : nat) (ws : list pystr) :
  well_formed store ->
  forall max_words i M,
    has_shape r (layer1_size store) M ->
    exists M', word_loop store max_words i ws M = Ok M'
               /\ has_shape r (layer1_size store) M'.
Proof.
  intros Hwf. induction ws as [|w ws IH]; intros max_words i M HM; simpl.
  - now exists M.
  - destruct (max_words <=? i); [now exists M|].
    destruct (vector store w) as [v|] eqn:Hv; [|now apply IH].
    destruct (set_row_shape r _ i v M (Hwf _ _ Hv) HM) as [-> HM'].
    simpl. now apply IH.
Qed.

(** Rows that no in-vocabulary character reaches are left as they were. *)
Lemma char_loop_untouched (s : pystr) :
  forall max_chars i M k,
    (forall j c, s !! j = Some c -> i + j = k ->
                 in_char_options_set c = false) ->
    char_loop max_chars i s M !! k = M !! k.
Proof.
  induction s as [|ch s IH]; intros max_chars i M k Hoov; simpl;
    [reflexivity|].
  destruct (max_chars <=? i); [reflexivity|].
  rewrite IH.
  - destruct (in_char_options_set ch) eqn:Hin; [|reflexivity].
    unfold set_entry. apply list_lookup_alter_ne.
    intros ->. specialize (Hoov 0 ch eq_refl (Nat.add_0_r _)). congruence.
  - intros j c Hj Hk. apply (Hoov (S j) c Hj). lia.
Qed.

Lemma word_loop_untouched (store : Word2Vec A) (ws : list pystr) :
  forall max_words i M M' k,
    word_loop store max_words i ws M = Ok M' ->
    (forall j w, ws !! j = Some w -> i + j = k -> vector store w = None) ->
    M' !! k = M !! k.
Proof.
  induction ws as [|w ws IH]; intros max_words i M M' k Hrun Hoov;
    simpl in Hrun.
  - now inversion Hrun.
  - destruct (max_words <=? i); [now inversion Hrun|].
    assert (Hrest : forall j w', ws !! j = Some w' -> S i + j = k ->
                                 vector store w' = None).
    { intros j w' Hj Hk. apply (Hoov (S j) w' Hj). lia. }
    destruct (vector store w) as [v|] eqn:Hv.
    + unfold set_row in Hrun.
      assert (Hik : i <> k).
      { intros ->. specialize (Hoov 0 w eq_refl (Nat.add_0_r _)).
        congruence. }
      destruct (length v =? layer1_size store).
      * simpl in Hrun. rewrite (IH _ _ _ _ _ Hrun Hrest).
        now apply list_lookup_insert_ne.
      * destruct v as [|x [|? ?]]; simpl in Hrun; try discriminate.
        rewrite (IH _ _ _ _ _ Hrun Hrest).
        now apply list_lookup_insert_ne.
    + now apply (IH _ _ _ _ _ Hrun Hrest).
Qed.

End EncoderFacts.

Section ChrdFacts.
Context {A : Type} `{Scalar A}.

Lemma chrd_word_alter (i : nat) (w : pystr) :
  forall M : list (list A), chrd_word i w M = alter (bump w) i M.
Proof.
  induction w as [|c w IH]; intros M; simpl.
  - symmetry. apply list_alter_id. reflexivity.
  - rewrite IH. destruct (in_char_options_set c); [|reflexivity].
    unfold incr_entry. rewrite list_alter_alter_eq. reflexivity.
Qed.

Lemma chrd_loop_lookup (ws : list pystr) :
  forall max_words i (M : list (list A)) k,
    chrd_loop max_words i ws M !! k =
    match ws !! (k - i) with
    | Some w =>
        if decide (i <= k /\ k < max_words)
        then bump w <$> M !! k
        else M !! k
    | None => M !! k
    end.
Proof.
  induction ws as [|w ws IH]; intros max_words i M k; simpl.
  - reflexivity.
  - destruct (max_words <=? i) eqn:Hcap.
    + apply Nat.leb_le in Hcap.
      destruct ((w :: ws) !! (k - i)); [|reflexivity].
      destruct (decide _) as [[? ?]|]; [lia|reflexivity].
    + apply Nat.leb_gt in Hcap.
      rewrite IH, chrd_word_alter.
      destruct (decide (k < i)) as [Hlt|Hge].
      * replace (k - S i) with 0 by lia. replace (k - i) with 0 by lia.
        simpl. rewrite list_lookup_alter_ne by lia.
        destruct ws as [|w' ws']; simpl;
          repeat destruct (decide _); try reflexivity; lia.
      * destruct (decide (k = i)) as [->|Hne].
        -- replace (i - S i) with 0 by lia. rewrite Nat.sub_diag. simpl.
           rewrite list_lookup_alter_eq.
           destruct (decide (i <= i /\ i < max_words)) as [_|Hn]; [|lia].
           destruct ws as [|w' ws']; simpl; [reflexivity|].
           destruct (decide _) as [[? ?]|]; [lia|reflexivity].
        -- rewrite list_lookup_alter_ne by lia.
           replace (k - i) with (S (k - S i)) by lia. simpl.
           destruct (ws !! (k - S i)); [|reflexivity].
           destruct (decide (S i <= k /\ k < max_words)) as [[? ?]|Hn];
             destruct (decide (i <= k /\ k < max_words)) as [[? ?]|Hn'];
             try reflexivity; lia.
Qed.

End ChrdFacts.

Section CountFacts.
Context {A : Type} `{Scalar A}.

Lemma index_of_char_options (j : nat) (c : ascii) :
  char_options !! j = Some c ->
  index_of c char_options = j /\ in_char_options_set c = true.
Proof.
  intros Hj. unfold char_options in Hj. simpl in Hj.
  do 68 (destruct j as [|j];
         [inversion Hj; subst c; split; vm_compute; reflexivity|]).
  discriminate.
Qed.

Lemma lookup_index_of (c : ascii) (l : pystr) :
  mem_char c l = true -> l !! index_of c l = Some c.
Proof.
  induction l as [|d l IH]; simpl; [discriminate|].
  destruct (Ascii.eqb c d) eqn:Hcd.
  - apply Ascii.eqb_eq in Hcd. now subst.
  - simpl. exact IH.
Qed.

Lemma bump_length (w : pystr) :
  forall row : list A, length (bump w row) = length row.
Proof.
  induction w as [|c w IH]; intros row; cbn [bump]; [reflexivity|].
  rewrite IH. destruct (in_char_options_set c); [|reflexivity].
  apply length_alter.
Qed.

Lemma bump_lookup (w : pystr) :
  forall (row : list A) j cj,
    char_options !! j = Some cj ->
    bump w row !! j =
    (fun v => Nat.iter (occurrences cj w) (fun v => add v one) v)
      <$> row !! j.
Proof.
  induction w as [|c w IH]; intros row j cj Hj; cbn [bump occurrences].
  - now destruct (row !! j).
  - rewrite (IH _ j cj Hj).
    destruct (index_of_char_options j cj Hj) as [Hidx Hin].
    destruct (Ascii.eqb cj c) eqn:Hc.
    + apply Ascii.eqb_eq in Hc. subst c. rewrite Hin, Hidx.
      rewrite list_lookup_alter_eq. destruct (row !! j) as [a|]; [|easy].
      cbn [fmap option_fmap option_map]. f_equal.
      symmetry. exact (Nat.iter_succ_r (occurrences cj w) _ a).
    + assert (Hne : cj <> c) by (now apply Ascii.eqb_neq).
      destruct (in_char_options_set c) eqn:Hcin; [|reflexivity].
      rewrite list_lookup_alter_ne; [reflexivity|].
      intros Heq. apply lookup_index_of in Hcin. rewrite Heq in Hcin.
      congruence.
Qed.

Lemma bump_zeros (w : pystr) :
  bump w (replicate (length char_options) (zero : A)) = token_counts w.
Proof.
  apply list_eq. intros j. unfold token_counts.
  rewrite list_lookup_fmap.
  destruct (char_options !! j) as [cj|] eqn:Hj;
    cbn [fmap option_fmap option_map].
  - rewrite (bump_lookup w _ j cj Hj).
    rewrite lookup_replicate_2; [reflexivity|].
    now apply lookup_lt_Some in Hj.
  - apply lookup_ge_None. rewrite bump_length, length_replicate.
    now apply lookup_ge_None in Hj.
Qed.

Lemma chrd_loop_rows (tokens : list pystr) (max_words : nat) :
  rows_from_tokens (A := A) tokens max_words
    (chrd_loop max_words 0 tokens
       (np_zeros max_words (length char_options))).
Proof.
  split.
  - apply (chrd_loop_shape max_words (length char_options)),
      np_zeros_shape.
  - intros i Hi. rewrite chrd_loop_lookup, Nat.sub_0_r.
    unfold np_zeros. rewrite lookup_replicate_2 by exact Hi.
    destruct (tokens !! i) as [w|]; [|reflexivity].
    destruct (decide _) as [_|Hn]; [|lia].
    simpl. now rewrite bump_zeros.
Qed.

End CountFacts.

(** C1, as amended.  The [chrd] matrix has [max_words] rows, and its row
    [i] holds the per-character counts, over the character vocabulary, of
    the [i]-th whitespace-delimited token of the lower-cased and trimmed
    text as it was passed in (the branch does not call [clean]); rows past
    the last token are zero and tokens past [max_words] are dropped. *)
Theorem chrd_rows_count_raw_tokens :
  forall (A : Type) (S : Scalar A) (g : globals A) (text : pystr)
         (max_chars max_words : nat),
    exists M,
      text2mat g text "chrd" max_chars max_words = Ok M
      /\ rows_from_tokens (split (strip (lower text))) max_words M.
Proof.
  intros A S g text max_chars max_words.
  eexists. split; [reflexivity|]. apply chrd_loop_rows.
Qed.

(** The rows of the [chrd] matrix of ["a!"] are not the counts of the
    tokens of [clean "a!"]: the [!] is counted. *)
Lemma chrd_rows_not_of_cleaned_text :
  exists M,
    text2mat no_models (str "a!") "chrd" 140 30 = Ok M
    /\ ~ rows_from_tokens (split (clean (str "a!"))) 30 M.
Proof.
  eexists. split; [vm_compute; reflexivity|].
  intros [_ Hrows]. specialize (Hrows 0 ltac:(lia)).
  vm_compute in Hrows. discriminate Hrows.
Qed.

(** C10.  For a [mat_type] other than ['char'], ['word'] and ['chrd'] no
    branch binds [M], and [return M] raises: no matrix is returned. *)
Theorem text2mat_other_type_unbound :
  forall (A : Type) (S : Scalar A) (g : globals A) (text : pystr)
         (mat_type : string) (max_chars max_words : nat),
    mat_type <> "char"%string -> mat_type <> "word"%string ->
    mat_type <> "chrd"%string ->
    text2mat g text mat_type max_chars max_words
    = Raise (UnboundLocalError "M").
Proof.
  intros A S g text mat_type max_chars max_words Hc Hw Hd.
  unfold text2mat.
  apply String.eqb_neq in Hc, Hw, Hd. now rewrite Hc, Hw, Hd.
Qed.

Lemma text2mat_other_type_unbound_witness :
  text2mat no_models (str "Hello") "one_hot" 140 30
  = Raise (UnboundLocalError "M").
Proof.
  apply (text2mat_other_type_unbound Z Z_scalar no_models (str "Hello")
           "one_hot" 140 30); discriminate.
Defined.

Section ZeroRows.
Context {A : Type} `{Scalar A}.

Lemma occurrences_absent (cj : ascii) (w : pystr) :
  in_char_options_set cj = true ->
  Forall (fun c => in_char_options_set c = false) w ->
  occurrences cj w = 0.
Proof.
  intros Hcj Hw. induction Hw as [|c w Hc _ IH]; [reflexivity|].
  cbn [occurrences]. rewrite IH.
  destruct (Ascii.eqb cj c) eqn:E; [|reflexivity].
  apply Ascii.eqb_eq in E. congruence.
Qed.

Lemma token_counts_absent (w : pystr) :
  Forall (fun c => in_char_options_set c = false) w ->
  token_counts (A := A) w = replicate (length char_options) zero.
Proof.
  intros Hw. apply list_eq. intros j. unfold token_counts.
  rewrite list_lookup_fmap.
  destruct (char_options !! j) as [cj|] eqn:Hj;
    cbn [fmap option_fmap option_map].
  - destruct (index_of_char_options j cj Hj) as [_ Hin].
    rewrite (occurrences_absent cj w Hin Hw).
    symmetry. apply lookup_replicate_2. now apply lookup_lt_Some in Hj.
  - symmetry. apply lookup_ge_None. rewrite length_replicate.
    now apply lookup_ge_None in Hj.
Qed.

End ZeroRows.

(** C7.  Each of the three variants returns a matrix of the declared
    shape for every text, without raising (the [word] variant given a
    loaded model whose vectors have [layer1_size] components); the empty
    text gives the zero matrix; a character outside the vocabulary, a
    word unknown to the model and a token without vocabulary characters
    leave their row zero. *)
Theorem text2mat_total_fixed_shape :
  forall (A : Type) (S : Scalar A) (g : globals A) (text : pystr)
         (max_chars max_words : nat),
    let t := strip (lower text) in
    let W := length char_options in
    (exists M,
        text2mat g text "char" max_chars max_words = Ok M
        /\ has_shape max_chars W M
        /\ (text = [] -> M = np_zeros max_chars W)
        /\ (forall i c, i < max_chars -> t !! i = Some c ->
                        in_char_options_set c = false ->
                        M !! i = Some (replicate W zero)))
    /\ (forall store, w2v g = Some store -> well_formed store ->
        exists M,
          text2mat g text "word" max_chars max_words = Ok M
          /\ has_shape max_words (layer1_size store) M
          /\ (text = [] -> M = np_zeros max_words (layer1_size store))
          /\ (forall i w, i < max_words ->
                          split (clean t) !! i = Some w ->
                          vector store w = None ->
                          M !! i = Some (replicate (layer1_size store) zero)))
    /\ (exists M,
        text2mat g text "chrd" max_chars max_words = Ok M
        /\ has_shape max_words W M
        /\ (text = [] -> M = np_zeros max_words W)
        /\ (forall i w, i < max_words -> split t !! i = Some w ->
                        Forall (fun c => in_char_options_set c = false) w ->
                        M !! i = Some (replicate W zero))).
Proof.
  intros A S g text max_chars max_words t W. split; [|split].
  - eexists. split; [reflexivity|]. fold t. fold W.
    split; [apply char_loop_shape, np_zeros_shape|]. split.
    + intros ->. reflexivity.
    + intros i c Hi Hc Hoov. rewrite char_loop_untouched.
      * unfold np_zeros. now apply lookup_replicate_2.
      * intros j c' Hj Hij. simpl in Hij. subst j. congruence.
  - intros store Hg Hwf. unfold text2mat. rewrite Hg. fold t.
    cbn [String.eqb Ascii.eqb Bool.eqb].
    destruct (word_loop_shape store max_words (split (clean t)) Hwf
                max_words 0 _ (np_zeros_shape max_words (layer1_size store)))
      as (M & Hrun & Hshape).
    exists M. split; [exact Hrun|]. split; [exact Hshape|]. split.
    + intros ->. vm_compute in Hrun. now inversion Hrun.
    + intros i w Hi Hw Hoov.
      rewrite (word_loop_untouched store _ _ _ _ M i Hrun).
      * unfold np_zeros. now apply lookup_replicate_2.
      * intros j w' Hj Hij. simpl in Hij. subst j. congruence.
  - eexists. split; [reflexivity|]. fold t.
    destruct (chrd_loop_rows (A := A) (split t) max_words) as [Hlen Hrows].
    split; [apply chrd_loop_shape, np_zeros_shape|]. split.
    + intros ->. reflexivity.
    + intros i w Hi Hw Hoov. rewrite (Hrows i Hi), Hw.
      now rewrite token_counts_absent.
Qed.

Lemma toy_store_well_formed : well_formed toy_store.
Proof.
  intros w v. unfold toy_store. cbn [vector layer1_size].
  destruct (text_eqb w (str "hello")); intros Hv; inversion Hv.
  reflexivity.
Defined.

Lemma text2mat_total_fixed_shape_witness :
  exists M,
    text2mat toy_models (str "Hello qwerty") "word" 140 30 = Ok M
    /\ has_shape 30 2 M
    /\ (str "Hello qwerty" = [] -> M = np_zeros 30 2)
    /\ (forall i w, i < 30 ->
          split (clean (strip (lower (str "Hello qwerty")))) !! i = Some w ->
          vector toy_store w = None ->
          M !! i = Some (replicate 2 zero)).
Proof.
  destruct (text2mat_total_fixed_shape Z Z_scalar toy_models
              (str "Hello qwerty") 140 30) as (_ & Hword & _).
  exact (Hword toy_store eq_refl toy_store_well_formed).
Defined.

(** ** The tweet sequence *)

Lemma keep_options_filter (requested kept : list string) :
  keep_options requested kept
  = kept ++ filter (fun yw => mem_string yw yw_options) requested.
Proof.
  revert kept. induction requested as [|yw rest IH]; intros kept.
  - cbn [keep_options filter]. now rewrite app_nil_r.
  - cbn [keep_options]. rewrite filter_cons.
    destruct (mem_string yw yw_options) eqn:E.
    + rewrite IH, <- app_assoc. cbn [app].
      destruct (decide _) as [_|Hn]; [reflexivity|].
      exfalso. apply Hn. exact I.
    + rewrite IH. destruct (decide _) as [Hy|_]; [|reflexivity].
      exfalso. exact Hy.
Qed.

Section SequenceFacts.
Context {A : Type} `{Scalar A}.

Ltac by_cases_on_name yw :=
  destruct (String.eqb yw "hashtags");
  [|destruct (String.eqb yw "raw_tweet");
    [|destruct (String.eqb yw "raw_tweet_nohashtags");
      [|destruct (String.eqb yw "clean_tweet");
        [|destruct (String.eqb yw "tokenized_tweet");
          [|destruct (String.eqb yw "word_mat");
            [|destruct (String.eqb yw "char_mat");
              [|destruct (String.eqb yw "chrd_mat");
                [|destruct (String.eqb yw "label")]]]]]]]].

(** The loop of [yield_] appends the values of the fields, in the order of
    the list it walks. *)
Lemma yield_fields_in_order (g : globals A) (text : pystr) (yl : list string) :
  forall out,
    yield_fields g text (fst (split_hashtags text)) (known_hashtags g text)
      yl out
    = let* vs := fields_in_order g text yl in Ok (out ++ vs).
Proof.
  induction yl as [|yw rest IH]; intros out.
  - cbn [yield_fields fields_in_order bind]. now rewrite app_nil_r.
  - cbn [yield_fields fields_in_order]. unfold field_value.
    by_cases_on_name yw; cbn [bind];
      try (rewrite IH; destruct (fields_in_order g text rest);
           cbn [bind]; [rewrite <- app_assoc|]; reflexivity).
    + destruct (text2mat g _ "word" 140 30); cbn [bind]; [|reflexivity].
      rewrite IH. destruct (fields_in_order g text rest);
        cbn [bind]; [rewrite <- app_assoc|]; reflexivity.
    + destruct (text2mat g _ "char" 140 30); cbn [bind]; [|reflexivity].
      rewrite IH. destruct (fields_in_order g text rest);
        cbn [bind]; [rewrite <- app_assoc|]; reflexivity.
    + destruct (text2mat g _ "chrd" 140 30); cbn [bind]; [|reflexivity].
      rewrite IH. destruct (fields_in_order g text rest);
        cbn [bind]; [rewrite <- app_assoc|]; reflexivity.
    + destruct (mlb g); cbn [bind]; [|reflexivity].
      rewrite IH. destruct (fields_in_order g text rest);
        cbn [bind]; [rewrite <- app_assoc|]; reflexivity.
    + apply IH.
Qed.

Lemma yield_unfold (g : globals A) (ti : TweetIterator) (text : pystr) :
  yield_ g ti text
  = if negb (survives g text) && skip_nohashtag ti then Ok []
    else fields_in_order g text (yield_list ti).
Proof.
  unfold yield_, survives. rewrite Bool.negb_involutive.
  destruct (_ && _); [reflexivity|].
  rewrite yield_fields_in_order.
  now destruct (fields_in_order g text (yield_list ti)).
Qed.

Lemma field_value_known (g : globals A) (text : pystr) (yw : string) :
  mem_string yw yw_options = true ->
  exists r, field_value g text yw = Some r.
Proof.
  unfold mem_string, yw_options, field_value. cbn [existsb].
  by_cases_on_name yw; cbn [orb]; intros Hm; try discriminate;
    eexists; reflexivity.
Qed.

(** Position by position, the values are those of the valid names. *)
Lemma fields_in_order_lookup (g : globals A) (text : pystr)
    (yl : list string) :
  Forall (fun yw => mem_string yw yw_options = true) yl ->
  forall vs,
    fields_in_order g text yl = Ok vs ->
    length vs = length yl
    /\ forall k yw, yl !! k = Some yw ->
         exists v, field_value g text yw = Some (Ok v) /\ vs !! k = Some v.
Proof.
  induction 1 as [|yw rest Hyw Hrest IH]; intros vs Hrun.
  - inversion Hrun. split; [reflexivity|]. intros k yw Hk. discriminate.
  - cbn [fields_in_order] in Hrun.
    destruct (field_value_known g text yw Hyw) as [r Hr].
    rewrite Hr in Hrun. destruct r as [v|e]; cbn [bind] in Hrun;
      [|discriminate].
    destruct (fields_in_order g text rest) as [vs'|e]; cbn [bind] in Hrun;
      [|discriminate].
    inversion Hrun; subst vs. destruct (IH vs' eq_refl) as [Hlen Hpos].
    split; [cbn [length]; now rewrite Hlen|].
    intros [|k] yw' Hk.
    + inversion Hk; subst yw'. exists v. now split.
    + apply (Hpos k yw' Hk).
Qed.

Lemma init_yield_list (g : globals A) (src : list pystr) (skip : bool)
    (requested : list string) (ti : TweetIterator) :
  TweetIterator_init g src skip requested = Ok ti ->
  source ti = src /\ skip_nohashtag ti = skip /\ length_ ti = None
  /\ yield_list ti = filter (fun yw => mem_string yw yw_options) requested.
Proof.
  unfold TweetIterator_init. intros Hi. inversion Hi.
  cbn [source skip_nohashtag length_ yield_list].
  now rewrite keep_options_filter.
Qed.

Lemma valid_names_filter (requested : list string) :
  Forall (fun yw => mem_string yw yw_options = true)
    (filter (fun yw => mem_string yw yw_options) requested).
Proof.
  apply Forall_forall. intros yw Hyw.
  apply list_elem_of_filter in Hyw as [Hm _].
  destruct (mem_string yw yw_options); [reflexivity|]. contradiction.
Qed.

End SequenceFacts.

(** C3, as amended.  For a text that is not skipped, the values produced
    are those of the valid requested names in the order in which the
    caller requested them (unknown names dropped); iteration yields the
    bare value when there is exactly one, the list when there are two or
    more, and nothing when there is none. *)
Theorem yielded_fields_follow_request :
  forall (A : Type) (S : Scalar A) (g : globals A) (src : list pystr)
         (skip : bool) (requested : list string) (ti : TweetIterator)
         (text : pystr) (rest : list pystr) (vs : list (value A)),
    TweetIterator_init g src skip requested = Ok ti ->
    skip = false \/ survives g text = true ->
    yield_ g ti text = Ok vs ->
    let valid := filter (fun yw => mem_string yw yw_options) requested in
    length vs = length valid
    /\ (forall k yw, valid !! k = Some yw ->
          exists v, field_value g text yw = Some (Ok v) /\ vs !! k = Some v)
    /\ iter_next g ti (text :: rest)
       = match vs with
         | [] => iter_next g ti rest
         | [v] => Yielded v rest
         | _ => Yielded (VList vs) rest
         end.
Proof.
  intros A S g src skip requested ti text rest vs Hinit Hkeep Hrun valid.
  destruct (init_yield_list g src skip requested ti Hinit)
    as (_ & Hskip & _ & Hyl).
  assert (Hfields : fields_in_order g text valid = Ok vs).
  { rewrite yield_unfold, Hskip, Hyl in Hrun. fold valid in Hrun.
    destruct Hkeep as [Hk | Hk]; rewrite Hk in Hrun;
      [rewrite Bool.andb_false_r in Hrun|]; exact Hrun. }
  destruct (fields_in_order_lookup g text valid
              (valid_names_filter requested) vs Hfields) as [Hlen Hpos].
  split; [exact Hlen|]. split; [exact Hpos|].
  cbn [iter_next]. rewrite Hrun. reflexivity.
Qed.

Lemma yielded_fields_follow_request_witness :
  exists ti vs,
    TweetIterator_init no_models [str "#a b"] false
      ["clean_tweet"; "bogus"; "hashtags"]%string = Ok ti
    /\ yield_ no_models ti (str "#a b") = Ok vs
    /\ length vs = 2
    /\ iter_next no_models ti [str "#a b"] = Yielded (VList vs) [].
Proof.
  eexists. eexists.
  split; [reflexivity|]. split; [vm_compute; reflexivity|].
  destruct (yielded_fields_follow_request Z Z_scalar no_models
              [str "#a b"] false ["clean_tweet"; "bogus"; "hashtags"]%string
              _ (str "#a b") [] _ eq_refl (or_introl eq_refl) eq_refl)
    as (Hlen & _ & Hnext).
  split; [exact Hlen|exact Hnext].
Defined.

(** Requested as [clean_tweet], [hashtags], the two values are yielded in
    that order, while the documented order of the fields puts the hashtags
    first. *)
Lemma yield_order_is_not_canonical :
  exists ti,
    TweetIterator_init no_models [str "#a b"] false
      ["clean_tweet"; "hashtags"]%string = Ok ti
    /\ iter_next no_models ti [str "#a b"]
       = Yielded (VList [VStr (str "b"); VStrs [str "#a"]]) []
    /\ fields_in_order no_models (str "#a b")
         (canonical_order ["clean_tweet"; "hashtags"]%string)
       = Ok [VStrs [str "#a"]; VStr (str "b")].
Proof.
  eexists. split; [reflexivity|]. split; vm_compute; reflexivity.
Qed.

Section LabelFacts.
Context {A : Type} `{Scalar A}.

Lemma field_value_label_unbound (g : globals A) (text : pystr) :
  mlb g = None ->
  field_value g text "label" = Some (Raise (NameError "mlb")).
Proof. intros Hmlb. unfold field_value. cbn. now rewrite Hmlb. Qed.

Lemma fields_with_label_raise (g : globals A) (text : pystr)
    (yl : list string) :
  mlb g = None -> In "label"%string yl ->
  exists e, fields_in_order g text yl = Raise e.
Proof.
  intros Hmlb. induction yl as [|yw rest IH]; intros Hin; [contradiction|].
  cbn [fields_in_order].
  destruct Hin as [-> | Hin].
  - unfold field_value. cbn [String.eqb Ascii.eqb Bool.eqb andb].
    rewrite Hmlb. eexists. reflexivity.
  - destruct (IH Hin) as [e He]. rewrite He.
    destruct (field_value g text yw) as [[v|e']|]; cbn [bind];
      eexists; reflexivity.
Qed.

End LabelFacts.

Section LabelOrder.
Context {A : Type} `{Scalar A}.

Lemma first_label (l : list string) :
  In "label"%string l ->
  exists pre post,
    l = pre ++ "label"%string :: post /\ ~ In "label"%string pre.
Proof.
  induction l as [|yw rest IH]; intros Hin; [contradiction|].
  destruct (String.eqb_spec yw "label") as [->|Hne].
  - exists [], rest. split; [reflexivity|]. intros [].
  - destruct Hin as [Heq|Hin]; [congruence|].
    destruct (IH Hin) as (pre & post & -> & Hpre).
    exists (yw :: pre), post. split; [reflexivity|].
    intros [Heq|Hin']; [congruence|contradiction].
Qed.

Lemma fields_in_order_app (g : globals A) (text : pystr)
    (l1 l2 : list string) :
  fields_in_order g text (l1 ++ l2)
  = let* a := fields_in_order g text l1 in
    let* b := fields_in_order g text l2 in
    Ok (a ++ b).
Proof.
  induction l1 as [|yw l1 IH]; cbn [app fields_in_order bind].
  - now destruct (fields_in_order g text l2).
  - destruct (field_value g text yw) as [[v|e]|]; cbn [bind];
      [|reflexivity|exact IH].
    rewrite IH. destruct (fields_in_order g text l1); cbn [bind];
      [|reflexivity].
    now destruct (fields_in_order g text l2).
Qed.

Lemma fields_in_order_filter (g : globals A) (text : pystr)
    (l : list string) :
  fields_in_order g text (filter (fun yw => mem_string yw yw_options) l)
  = fields_in_order g text l.
Proof.
  induction l as [|yw l IH]; [reflexivity|].
  rewrite filter_cons. destruct (decide _) as [Hyes|Hno].
  - cbn [fields_in_order]. now rewrite IH.
  - rewrite IH. cbn [fields_in_order].
    replace (field_value g text yw) with (@None (result (value A)));
      [reflexivity|].
    apply Is_true_false_1 in Hno.
    unfold mem_string, yw_options in Hno. cbn [existsb] in Hno.
    unfold field_value.
    repeat match goal with
           | |- context [String.eqb yw ?s] =>
               destruct (String.eqb yw s); [discriminate Hno|]
           end.
    reflexivity.
Qed.

(** Of the fields other than [label] only [word_mat] can raise; the
    fields before the first that raises are produced. *)
Lemma fields_up_to_label (g : globals A) (text : pystr) (l : list string) :
  ~ In "label"%string l ->
  match fields_in_order g text l with
  | Ok _ =>
      mem_string "word_mat" l = true ->
      exists M, text2mat g (fst (split_hashtags text)) "word" 140 30 = Ok M
  | Raise e =>
      mem_string "word_mat" l = true
      /\ text2mat g (fst (split_hashtags text)) "word" 140 30 = Raise e
  end.
Proof.
  induction l as [|yw rest IH]; intros Hno; [discriminate|].
  assert (Hrest : ~ In "label"%string rest) by (intros Hin; apply Hno; now right).
  assert (Hyw : yw <> "label"%string) by (intros ->; apply Hno; now left).
  specialize (IH Hrest). cbn [fields_in_order]. unfold field_value.
  unfold mem_string in *. cbn [existsb].
  rewrite (String.eqb_sym "word_mat" yw).
  destruct (String.eqb yw "hashtags") eqn:E1;
    [apply String.eqb_eq in E1; subst yw; cbn [String.eqb Ascii.eqb Bool.eqb orb bind];
     destruct (fields_in_order g text rest); exact IH|].
  destruct (String.eqb yw "raw_tweet") eqn:E2;
    [apply String.eqb_eq in E2; subst yw; cbn [String.eqb Ascii.eqb Bool.eqb orb bind];
     destruct (fields_in_order g text rest); exact IH|].
  destruct (String.eqb yw "raw_tweet_nohashtags") eqn:E3;
    [apply String.eqb_eq in E3; subst yw; cbn [String.eqb Ascii.eqb Bool.eqb orb bind];
     destruct (fields_in_order g text rest); exact IH|].
  destruct (String.eqb yw "clean_tweet") eqn:E4;
    [apply String.eqb_eq in E4; subst yw; cbn [String.eqb Ascii.eqb Bool.eqb orb bind];
     destruct (fields_in_order g text rest); exact IH|].
  destruct (String.eqb yw "tokenized_tweet") eqn:E5;
    [apply String.eqb_eq in E5; subst yw; cbn [String.eqb Ascii.eqb Bool.eqb orb bind];
     destruct (fields_in_order g text rest); exact IH|].
  destruct (String.eqb yw "word_mat") eqn:E6.
  { cbn [orb].
    destruct (text2mat g (fst (split_hashtags text)) "word" 140 30)
      as [M|e] eqn:Ht; cbn [bind].
    - destruct (fields_in_order g text rest); cbn [bind].
      + intros _. now exists M.
      + destruct IH as [_ IH]. discriminate IH.
    - now split. }
  cbn [orb].
  destruct (String.eqb yw "char_mat") eqn:E7;
    [unfold text2mat; cbn [String.eqb Ascii.eqb Bool.eqb bind];
     destruct (fields_in_order g text rest); exact IH|].
  destruct (String.eqb yw "chrd_mat") eqn:E8;
    [unfold text2mat; cbn [String.eqb Ascii.eqb Bool.eqb bind];
     destruct (fields_in_order g text rest); exact IH|].
  destruct (String.eqb_spec yw "label") as [Heq|_]; [contradiction|].
  exact IH.
Qed.

End LabelOrder.

(** C2, as amended.  Without a binarizer, constructing a sequence that
    requests [label], or an aggregator, succeeds; the failure comes when an
    item is produced: a skipped text raises nothing, and every text that
    is not skipped raises the [NameError] on [mlb], unless [word_mat] is
    requested before the first [label] and its matrix cannot be built, in
    which case the exception of [text2mat] comes first. *)
Theorem label_fails_at_production_not_construction :
  forall (A : Type) (S : Scalar A) (g : globals A) (src : list pystr)
         (skip : bool) (requested : list string),
    mlb g = None -> In "label"%string requested ->
    exists ti pre post,
      TweetIterator_init g src skip requested = Ok ti
      /\ (forall batch_size char chrd word,
            exists ki,
              KerasIterator_init g src batch_size char chrd word = Ok ki)
      /\ requested = pre ++ "label"%string :: post
      /\ ~ In "label"%string pre
      /\ forall text,
           if negb (survives g text) && skip
           then yield_ g ti text = Ok []
           else yield_ g ti text
                = Raise
                    (if mem_string "word_mat" pre
                     then match text2mat g (fst (split_hashtags text))
                                  "word" 140 30 with
                          | Raise e => e
                          | Ok _ => NameError "mlb"
                          end
                     else NameError "mlb").
Proof.
  intros A S g src skip requested Hmlb Hin.
  destruct (first_label requested Hin) as (pre & post & Hsplit & Hpre).
  eexists. exists pre, post. split; [reflexivity|]. split.
  { intros batch_size char chrd word. eexists. reflexivity. }
  split; [exact Hsplit|]. split; [exact Hpre|].
  intros text. rewrite yield_unfold. cbn [skip_nohashtag yield_list].
  destruct (negb (survives g text) && skip); [reflexivity|].
  rewrite keep_options_filter. cbn [app].
  rewrite fields_in_order_filter, Hsplit, fields_in_order_app.
  pose proof (fields_up_to_label g text pre Hpre) as Hfields.
  destruct (fields_in_order g text pre) as [vs|e]; cbn [bind].
  - cbn [fields_in_order]. rewrite field_value_label_unbound by exact Hmlb.
    cbn [bind]. destruct (mem_string "word_mat" pre); [|reflexivity].
    destruct (Hfields eq_refl) as [M ->]. reflexivity.
  - destruct Hfields as [-> ->]. reflexivity.
Qed.

Lemma label_fails_at_production_not_construction_witness :
  exists ti pre post,
    TweetIterator_init no_models [str "#a b"] false
      ["word_mat"; "label"]%string = Ok ti
    /\ (forall batch_size char chrd word,
          exists ki,
            KerasIterator_init no_models [str "#a b"] batch_size
              char chrd word = Ok ki)
    /\ ["word_mat"; "label"]%string = pre ++ "label"%string :: post
    /\ ~ In "label"%string pre
    /\ forall text,
         if negb (survives no_models text) && false
         then yield_ no_models ti text = Ok []
         else yield_ no_models ti text
              = Raise
                  (if mem_string "word_mat" pre
                   then match text2mat no_models (fst (split_hashtags text))
                                "word" 140 30 with
                        | Raise e => e
                        | Ok _ => NameError "mlb"
                        end
                   else NameError "mlb").
Proof.
  apply (label_fails_at_production_not_construction Z Z_scalar no_models
           [str "#a b"] false ["word_mat"; "label"]%string eq_refl).
  right. left. reflexivity.
Defined.

(** Without a binarizer the construction with [label] returns an instance;
    the [NameError] on [mlb] is raised by [yield_] on the first text. *)
Lemma construction_with_label_succeeds :
  exists ti,
    TweetIterator_init no_models [str "#a b"] false ["label"%string] = Ok ti
    /\ yield_ no_models ti (str "#a b") = Raise (NameError "mlb")
    /\ iter_next no_models ti [str "#a b"] = Thrown (NameError "mlb").
Proof.
  eexists. split; [reflexivity|]. split; vm_compute; reflexivity.
Qed.

Section LengthFacts.
Context {A : Type} `{Scalar A}.

Lemma filter_survives_cons (g : globals A) (t : pystr) (rest : list pystr) :
  filter (survives g) (t :: rest)
  = if survives g t then t :: filter (survives g) rest
    else filter (survives g) rest.
Proof.
  rewrite filter_cons. destruct (survives g t);
    destruct (decide _) as [Hy|Hn]; try reflexivity.
  - exfalso. apply Hn. exact I.
  - exfalso. exact Hy.
Qed.

Lemma counter_next (g : globals A) (src rest : list pystr) :
  match iter_next g (counter src) rest with
  | Exhausted => filter (survives g) rest = []
  | Yielded _ rest' =>
      length rest' < length rest
      /\ length (filter (survives g) rest)
         = S (length (filter (survives g) rest'))
  | Thrown _ => False
  end.
Proof.
  induction rest as [|t rest IH]; [reflexivity|].
  cbn [iter_next]. rewrite yield_unfold, filter_survives_cons.
  cbn [skip_nohashtag yield_list counter].
  destruct (survives g t); cbn [negb andb].
  - cbn. split; [lia|reflexivity].
  - destruct (iter_next g (counter src) rest) as [v rest'| |e];
      [|exact IH|exact IH].
    destruct IH as [Hlt Hcount]. split; [cbn [length]; lia|exact Hcount].
Qed.

Lemma count_loop_counts (g : globals A) (src : list pystr) (fuel : nat) :
  forall rest i,
    length rest < fuel ->
    count_loop g (counter src) fuel rest i
    = Ok (i + length (filter (survives g) rest)).
Proof.
  induction fuel as [|fuel IH]; intros rest i Hfuel; [lia|].
  cbn [count_loop]. pose proof (counter_next g src rest) as Hnext.
  destruct (iter_next g (counter src) rest) as [v rest'| |e].
  - destruct Hnext as [Hlt Hcount]. rewrite IH by lia. rewrite Hcount.
    f_equal. lia.
  - rewrite Hnext. cbn [length]. f_equal. lia.
  - contradiction.
Qed.

Lemma len_fresh (g : globals A) (ti : TweetIterator) :
  length_ ti = None ->
  len g ti = Ok (length (survivors g ti),
                 {| source := source ti; yield_list := yield_list ti;
                    skip_nohashtag := skip_nohashtag ti;
                    length_ := Some (length (survivors g ti)) |}).
Proof.
  intros Hfresh. unfold len, survivors. rewrite Hfresh.
  destruct (skip_nohashtag ti).
  - unfold TweetIterator_init. cbn [bind keep_options].
    change (count_loop g _ (S (length (source ti))) (source ti) 0)
      with (count_loop g (counter (source ti)) (S (length (source ti)))
              (source ti) 0).
    rewrite count_loop_counts by lia. reflexivity.
  - reflexivity.
Qed.

Lemma len_cached (g : globals A) (ti : TweetIterator) (n : nat) :
  length_ ti = Some n -> len g ti = Ok (n, ti).
Proof. intros Hc. unfold len. now rewrite Hc. Qed.

End LengthFacts.

(** C5.  On a fresh instance, [len] with skipping is the number of texts
    of the source that pass the skip filter, found by one counting pass,
    and without skipping the number of lines or elements of the source;
    the first call stores the length in the instance, and from then on
    [len] returns the stored number without looking at the source.  On
    the three-line source of which two lines carry the known hashtag the
    lengths are 2 and 3. *)
Theorem len_strategies_and_cache :
  forall (A : Type) (S : Scalar A) (g : globals A) (src : list pystr)
         (requested : list string),
    (forall ti, TweetIterator_init g src true requested = Ok ti ->
       exists ti', len g ti = Ok (length (filter (survives g) src), ti'))
    /\ (forall ti, TweetIterator_init g src false requested = Ok ti ->
          exists ti', len g ti = Ok (length src, ti'))
    /\ (forall ti n ti',
          len g ti = Ok (n, ti') ->
          length_ ti' = Some n
          /\ forall src',
               len g (with_source src' ti') = Ok (n, with_source src' ti'))
    /\ (let g3 : globals A := {| w2v := None; mlb := Some toy_mlb |} in
        let src3 := [str "#ok tweet one"; str "no tags here";
                     str "#ok tweet two"] in
        length (filter (survives g3) src3) = 2 /\ length src3 = 3).
Proof.
  intros A S g src requested. split; [|split; [|split]].
  - intros ti Hinit.
    destruct (init_yield_list g src true requested ti Hinit)
      as (Hsrc & Hskip & Hfresh & _).
    eexists. rewrite (len_fresh g ti Hfresh). unfold survivors.
    rewrite Hskip, Hsrc. reflexivity.
  - intros ti Hinit.
    destruct (init_yield_list g src false requested ti Hinit)
      as (Hsrc & Hskip & Hfresh & _).
    eexists. rewrite (len_fresh g ti Hfresh). unfold survivors.
    rewrite Hskip, Hsrc. reflexivity.
  - intros ti n ti' Hlen.
    assert (Hc : length_ ti' = Some n).
    { destruct (length_ ti) as [m|] eqn:Hm.
      - rewrite (len_cached g ti m Hm) in Hlen. inversion Hlen; subst.
        exact Hm.
      - rewrite (len_fresh g ti Hm) in Hlen. inversion Hlen. reflexivity. }
    split; [exact Hc|]. intros src'. apply len_cached. exact Hc.
  - split; vm_compute; reflexivity.
Qed.

Lemma len_strategies_and_cache_witness :
  let src3 := [str "#ok tweet one"; str "no tags here";
               str "#ok tweet two"] in
  let ti := {| source := src3; yield_list := ["raw_tweet"%string];
               skip_nohashtag := true; length_ := None |} in
  let ti' := {| source := src3; yield_list := ["raw_tweet"%string];
                skip_nohashtag := true; length_ := Some 2 |} in
  len toy_models ti = Ok (2, ti')
  /\ length_ ti' = Some 2
  /\ len toy_models (with_source [] ti') = Ok (2, with_source [] ti').
Proof.
  intros src3 ti ti'.
  assert (Hlen : len toy_models ti = Ok (2, ti'))
    by (vm_compute; reflexivity).
  split; [exact Hlen|].
  destruct (len_strategies_and_cache Z Z_scalar toy_models src3
              ["raw_tweet"%string]) as (_ & _ & Hcache & _).
  destruct (Hcache ti 2 ti' Hlen) as [Hc Hsrc].
  split; [exact Hc|exact (Hsrc [])].
Defined.

Section IndexFacts.
Context {A : Type} `{Scalar A}.

Lemma iter_next_with_length (g : globals A) (ti : TweetIterator) (n : nat)
    (rest : list pystr) :
  iter_next g (with_length n ti) rest = iter_next g ti rest.
Proof.
  induction rest as [|t rest IH]; [reflexivity|].
  cbn [iter_next]. rewrite IH. reflexivity.
Qed.

Lemma advance_eq (g : globals A) (ti : TweetIterator) (k : nat)
    (rest : list pystr) :
  advance g ti k rest
  = match iter_next g ti rest with
    | Yielded t rest' =>
        match k with
        | 0 => Ok t
        | S k' => advance g ti k' rest'
        end
    | Exhausted => Raise StopIteration
    | Thrown e => Raise e
    end.
Proof. destruct k; reflexivity. Qed.

Lemma advance_with_length (g : globals A) (ti : TweetIterator) (n k : nat) :
  forall rest, advance g (with_length n ti) k rest = advance g ti k rest.
Proof.
  induction k as [|k IH]; intros rest; cbn [advance];
    rewrite iter_next_with_length;
    destruct (iter_next g ti rest); try reflexivity.
  apply IH.
Qed.

Lemma advance_within (g : globals A) (ti : TweetIterator) :
  Forall (fun yw => mem_string yw yw_options = true) (yield_list ti) ->
  yield_list ti <> [] ->
  forall rest,
    (forall t, In t rest -> exists vs, yield_ g ti t = Ok vs) ->
    forall k,
      k < length (if skip_nohashtag ti then filter (survives g) rest
                  else rest) ->
      exists v, advance g ti k rest = Ok v.
Proof.
  intros Hvalid Hnonempty.
  induction rest as [|t rest IH]; intros Hprod k Hk.
  - destruct (skip_nohashtag ti); cbn in Hk; lia.
  - assert (Hrest : forall t', In t' rest ->
                               exists vs, yield_ g ti t' = Ok vs).
    { intros t' Ht'. apply Hprod. now right. }
    destruct (Hprod t (or_introl eq_refl)) as [vs Hvs].
    rewrite advance_eq. cbn [iter_next]. rewrite Hvs.
    rewrite yield_unfold in Hvs. rewrite filter_survives_cons in Hk.
    destruct (negb (survives g t) && skip_nohashtag ti) eqn:Hskip.
    + inversion Hvs; subst vs. rewrite <- advance_eq. apply IH; [exact Hrest|].
      apply andb_prop in Hskip as [Hs1 Hs2]. rewrite Hs2 in Hk |- *.
      apply Bool.negb_true_iff in Hs1. now rewrite Hs1 in Hk.
    + destruct (fields_in_order_lookup g t _ Hvalid vs Hvs) as [Hlen _].
      assert (Hk' : k < S (length (if skip_nohashtag ti
                                   then filter (survives g) rest
                                   else rest))).
      { destruct (skip_nohashtag ti); [|exact Hk].
        rewrite Bool.andb_true_r in Hskip.
        apply Bool.negb_false_iff in Hskip. now rewrite Hskip in Hk. }
      assert (Hgo : forall item,
                match k with
                | 0 => Ok item
                | S k' => advance g ti k' rest
                end = Ok item \/ exists v, match k with
                | 0 => Ok item
                | S k' => advance g ti k' rest
                end = Ok v).
      { intros item. right. destruct k as [|k']; [now exists item|].
        apply IH; [exact Hrest|lia]. }
      destruct vs as [|v1 [|v2 vs]].
      * destruct (yield_list ti); [congruence|discriminate].
      * destruct (Hgo v1) as [Hv|Hv]; [eexists; exact Hv|exact Hv].
      * destruct (Hgo (VList (v1 :: v2 :: vs))) as [Hv|Hv];
          [eexists; exact Hv|exact Hv].
Qed.

Lemma word_loop_raises (store : Word2Vec A) (ws : list pystr) :
  forall max_words i M e,
    word_loop store max_words i ws M = Raise e -> e = ValueError.
Proof.
  induction ws as [|w ws IH]; intros max_words i M e Hrun;
    cbn [word_loop] in Hrun; [discriminate|].
  destruct (max_words <=? i); [discriminate|].
  destruct (vector store w) as [v|]; [|now apply IH in Hrun].
  unfold set_row in Hrun.
  destruct (length v =? layer1_size store); cbn [bind] in Hrun;
    [now apply IH in Hrun|].
  destruct v as [|x [|? ?]]; cbn [bind] in Hrun;
    try (now inversion Hrun); now apply IH in Hrun.
Qed.

Lemma text2mat_raises (g : globals A) (text : pystr) (mat_type : string)
    (max_chars max_words : nat) (e : error) :
  text2mat g text mat_type max_chars max_words = Raise e ->
  production_error e.
Proof.
  unfold text2mat.
  destruct (String.eqb mat_type "char"); [discriminate|].
  destruct (String.eqb mat_type "word").
  - destruct (w2v g) as [store|]; intros Hrun.
    + apply word_loop_raises in Hrun. now subst e.
    + now inversion Hrun.
  - destruct (String.eqb mat_type "chrd"); [discriminate|].
    intros Hrun. now inversion Hrun.
Qed.

Lemma fields_in_order_raises (g : globals A) (text : pystr)
    (yl : list string) (e : error) :
  fields_in_order g text yl = Raise e -> production_error e.
Proof.
  induction yl as [|yw rest IH]; cbn [fields_in_order]; [discriminate|].
  destruct (field_value g text yw) as [[v|e']|] eqn:Hfv; cbn [bind].
  - destruct (fields_in_order g text rest); cbn [bind]; [discriminate|].
    intros Hrun. apply IH. now inversion Hrun.
  - intros Hrun. inversion Hrun; subst e'. clear Hrun IH.
    unfold field_value in Hfv.
    repeat match type of Hfv with
           | (if ?b then _ else _) = _ => destruct b
           end; try discriminate.
    + destruct (text2mat g _ "word" 140 30) eqn:Ht; cbn [bind] in Hfv;
        [discriminate|]. inversion Hfv; subst. now apply text2mat_raises in Ht.
    + destruct (mlb g); inversion Hfv. exact I.
  - exact IH.
Qed.

Lemma iter_next_raises (g : globals A) (ti : TweetIterator)
    (rest : list pystr) (e : error) :
  iter_next g ti rest = Thrown e -> production_error e.
Proof.
  induction rest as [|t rest IH]; cbn [iter_next]; [discriminate|].
  destruct (yield_ g ti t) as [vs|e'] eqn:Hy.
  - destruct vs as [|v1 [|v2 vs]]; [exact IH|discriminate|discriminate].
  - intros Hrun. inversion Hrun; subst e'. rewrite yield_unfold in Hy.
    destruct (_ && _); [discriminate|].
    now apply fields_in_order_raises in Hy.
Qed.

Lemma production_error_not_index (e : error) :
  production_error e -> not_index_error e.
Proof. now destruct e. Qed.

Lemma production_error_not_stop (e : error) :
  production_error e -> e <> StopIteration.
Proof. now destruct e. Qed.

End IndexFacts.

(** C6, as amended.  For a sequence with at least one valid requested
    field whose items are produced without an exception, of length
    [L > 0]: a negative index [i] gives what [i mod L] gives and succeeds;
    an index [i >= L] raises the [IndexError] that carries [i] and [L];
    and no exception raised by iteration, on any source, is an
    [IndexError]. *)
Theorem getitem_wraps_and_bounds :
  forall (A : Type) (S : Scalar A) (g : globals A) (src : list pystr)
         (skip : bool) (requested : list string) (ti : TweetIterator),
    TweetIterator_init g src skip requested = Ok ti ->
    let L := Z.of_nat (length (survivors g ti)) in
    (0 < L)%Z ->
    (exists yw, In yw requested /\ mem_string yw yw_options = true) ->
    (forall t, In t src -> exists vs, yield_ g ti t = Ok vs) ->
    (exists ti', len g ti = Ok (length (survivors g ti), ti'))
    /\ (forall i, (i < 0)%Z ->
          getitem g ti i = getitem g ti (i mod L)%Z
          /\ exists r, getitem g ti i = Ok r)
    /\ (forall i, (L <= i)%Z -> getitem g ti i = Raise (IndexError i L))
    /\ (forall rest e, iter_next g ti rest = Thrown e -> not_index_error e).
Proof.
  intros A S g src skip requested ti Hinit L HL [yw [Hyw Hvalid]] Hprod.
  destruct (init_yield_list g src skip requested ti Hinit)
    as (Hsrc & Hskip & Hfresh & Hyl).
  pose proof (len_fresh g ti Hfresh) as Hlen.
  fold (with_length (length (survivors g ti)) ti) in Hlen.
  assert (Hnames : Forall (fun yw => mem_string yw yw_options = true)
                     (yield_list ti)).
  { rewrite Hyl. apply valid_names_filter. }
  assert (Hsome : yield_list ti <> []).
  { rewrite Hyl. intros Hempty.
    assert (Hin : yw ∈ filter (fun yw => mem_string yw yw_options) requested).
    { apply list_elem_of_filter. split; [now rewrite Hvalid|].
      now apply list_elem_of_In. }
    rewrite Hempty in Hin. inversion Hin. }
  assert (Hadv : forall k, k < length (survivors g ti) ->
                           exists v, advance g ti k (source ti) = Ok v).
  { intros k Hk. apply (advance_within g ti Hnames Hsome).
    - rewrite Hsrc. exact Hprod.
    - exact Hk. }
  assert (Hin_range : forall j, (0 <= j < L)%Z ->
            getitem g ti j
            = let* t := advance g ti (Z.to_nat j) (source ti) in
              Ok (t, with_length (length (survivors g ti)) ti)).
  { intros j Hj. unfold getitem. rewrite Hlen. cbn [bind fst snd].
    fold L. replace (j <? 0)%Z with false by (symmetry; apply Z.ltb_ge; lia).
    replace (j >=? L)%Z with false
      by (symmetry; rewrite Z.geb_leb; apply Z.leb_gt; lia).
    cbn [bind]. rewrite advance_with_length. reflexivity. }
  split; [eexists; exact Hlen|]. split; [|split].
  - intros i Hi.
    assert (Hmod : (0 <= i mod L < L)%Z) by (apply Z.mod_pos_bound; lia).
    assert (Hneg : getitem g ti i
                   = let* t := advance g ti (Z.to_nat (i mod L)) (source ti) in
                     Ok (t, with_length (length (survivors g ti)) ti)).
    { unfold getitem. rewrite Hlen. cbn [bind fst snd]. fold L.
      replace (i <? 0)%Z with true by (symmetry; apply Z.ltb_lt; lia).
      replace (L =? 0)%Z with false by (symmetry; apply Z.eqb_neq; lia).
      cbn [bind]. rewrite advance_with_length. reflexivity. }
    split; [now rewrite Hneg, (Hin_range _ Hmod)|].
    rewrite Hneg.
    destruct (Hadv (Z.to_nat (i mod L))) as [v Hv];
      [unfold L in *; lia|].
    rewrite Hv. eexists. reflexivity.
  - intros i Hi. unfold getitem. rewrite Hlen. cbn [bind fst snd]. fold L.
    replace (i <? 0)%Z with false by (symmetry; apply Z.ltb_ge; lia).
    replace (i >=? L)%Z with true
      by (symmetry; rewrite Z.geb_leb; apply Z.leb_le; lia).
    reflexivity.
  - intros rest e Hrun.
    apply production_error_not_index, (iter_next_raises _ _ _ _ Hrun).
Qed.

Lemma getitem_wraps_and_bounds_witness :
  let src3 := [str "#ok tweet one"; str "no tags here";
               str "#ok tweet two"] in
  let ti := {| source := src3; yield_list := ["raw_tweet"%string];
               skip_nohashtag := true; length_ := None |} in
  (exists ti', len toy_models ti = Ok (2, ti'))
  /\ (forall i, (i < 0)%Z ->
        getitem toy_models ti i = getitem toy_models ti (i mod 2)%Z
        /\ exists r, getitem toy_models ti i = Ok r)
  /\ (forall i, (2 <= i)%Z ->
        getitem toy_models ti i = Raise (IndexError i 2))
  /\ (forall rest e, iter_next toy_models ti rest = Thrown e ->
                     not_index_error e).
Proof.
  intros src3 ti.
  apply (getitem_wraps_and_bounds Z Z_scalar toy_models src3 true
           ["raw_tweet"%string] ti eq_refl).
  - reflexivity.
  - exists "raw_tweet"%string. split; [left|]; reflexivity.
  - intros t [<- | [<- | [<- | []]]]; eexists; vm_compute; reflexivity.
Defined.

(** A sequence of length 1 with no valid field: the index [-1] wraps to 0
    and the scan finds nothing to return. *)
Lemma negative_index_can_fail :
  exists ti ti',
    TweetIterator_init no_models [str "#a x"] true [] = Ok ti
    /\ len no_models ti = Ok (1, ti')
    /\ getitem no_models ti (-1) = Raise StopIteration.
Proof.
  eexists. eexists. split; [reflexivity|].
  split; vm_compute; reflexivity.
Qed.

(** ** The batch aggregator *)

Section BatchSteps.
Context {A : Type} `{Scalar A}.

Lemma iter_next_cons (g : globals A) (ti : TweetIterator) (t : pystr)
    (rest : list pystr) :
  iter_next g ti (t :: rest)
  = match yield_ g ti t with
    | Raise e => Thrown e
    | Ok yw =>
        match yielded yw with
        | None => iter_next g ti rest
        | Some outs => Yielded outs rest
        end
    end.
Proof.
  cbn [iter_next]. destruct (yield_ g ti t) as [[|v [|v' yw]]|e];
    reflexivity.
Qed.

Lemma next_mono (g : globals A) (ki : KerasIterator) (fuel : nat) :
  forall s r d,
    KerasIterator_next g ki fuel s = Some r ->
    KerasIterator_next g ki (fuel + d) s = Some r.
Proof.
  induction fuel as [|fuel IH]; intros s r d Hrun; [discriminate|].
  cbn [KerasIterator_next Nat.add] in *.
  destruct (turn g ki s); [exact Hrun|exact Hrun|]. now apply IH.
Qed.

Lemma collect_count (ki : KerasIterator) (outs : value A) (a a' : accum A) :
  collect ki outs a = Ok a' -> count a' = S (count a).
Proof.
  unfold collect. intros Hrun.
  repeat match type of Hrun with
         | context [if ?b then _ else _] => destruct b
         | context [index ?v ?k] => destruct (index v k)
         end; cbn [bind fst snd] in Hrun;
    repeat match type of Hrun with
           | context [index ?v ?k] =>
               destruct (index v k); cbn [bind fst snd] in Hrun
           end;
    try discriminate; now inversion Hrun.
Qed.

Lemma next_skip (g : globals A) (ki : KerasIterator) (t : pystr)
    (rest : list pystr) (a : accum A) (yw : list (value A)) (fuel : nat) :
  yield_ g (tweet_iterator ki) t = Ok yw -> yielded yw = None ->
  KerasIterator_next g ki fuel {| pending := t :: rest; acc := a |}
  = KerasIterator_next g ki fuel {| pending := rest; acc := a |}.
Proof.
  intros Hy Hn. destruct fuel as [|fuel]; [reflexivity|].
  cbn [KerasIterator_next]. unfold turn. cbn [pending acc].
  now rewrite iter_next_cons, Hy, Hn.
Qed.

(** From a state of which the rest of the pass is known, the next batch
    comes within one turn per pending text and one more. *)
Lemma next_step (g : globals A) (ki : KerasIterator) (rest : list pystr) :
  forall a bs,
    rest_of_pass g ki rest a = Ok bs ->
    match bs with
    | b :: bs' =>
        exists s',
          KerasIterator_next g ki (S (length rest))
            {| pending := rest; acc := a |} = Some (Yielded b s')
          /\ acc s' = fresh
          /\ ((pending s' = source (tweet_iterator ki) /\ bs' = [])
              \/ (rest_of_pass g ki (pending s') fresh = Ok bs'
                  /\ length (pending s') <= length rest))
    | [] =>
        count a = 0
        /\ forall fuel,
             KerasIterator_next g ki (S fuel) {| pending := rest; acc := a |}
             = KerasIterator_next g ki fuel
                 {| pending := source (tweet_iterator ki); acc := a |}
    end.
Proof.
  induction rest as [|t rest IH]; intros a bs Hpass;
    cbn [rest_of_pass] in Hpass.
  - destruct (0 <? count a) eqn:Hc.
    + destruct (stacked ki a) as [b|e] eqn:Hs; cbn [bind] in Hpass;
        [|discriminate].
      inversion Hpass; subst bs.
      exists {| pending := source (tweet_iterator ki); acc := fresh |}.
      split; [|split; [reflexivity|left; now split]].
      cbn [KerasIterator_next length]. unfold turn.
      cbn [pending acc iter_next]. now rewrite Hc, Hs.
    + inversion Hpass; subst bs. apply Nat.ltb_ge in Hc as Hc'.
      split; [lia|]. intros fuel.
      cbn [KerasIterator_next]. unfold turn. cbn [pending acc iter_next].
      now rewrite Hc.
  - destruct (yield_ g (tweet_iterator ki) t) as [yw|e] eqn:Hy;
      cbn [bind] in Hpass; [|discriminate].
    destruct (yielded yw) as [outs|] eqn:Hyd.
    + destruct (collect ki outs a) as [a'|e] eqn:Hcol; cbn [bind] in Hpass;
        [|discriminate].
      assert (Hturn : forall fuel,
                KerasIterator_next g ki (S fuel)
                  {| pending := t :: rest; acc := a |}
                = match
                    (if (Z.of_nat (count a') =? batch_size ki)%Z
                     then match stacked ki a' with
                          | Raise e => Failed e
                          | Ok b => Emitted b {| pending := rest;
                                                 acc := fresh |}
                          end
                     else Silent {| pending := rest; acc := a' |})
                  with
                  | Emitted b s' => Some (Yielded b s')
                  | Failed e => Some (Thrown e)
                  | Silent s' => KerasIterator_next g ki fuel s'
                  end).
      { intros fuel. cbn [KerasIterator_next]. unfold turn.
        cbn [pending acc]. now rewrite iter_next_cons, Hy, Hyd, Hcol. }
      destruct (Z.of_nat (count a') =? batch_size ki)%Z.
      * destruct (stacked ki a') as [b|e]; cbn [bind] in Hpass;
          [|discriminate].
        destruct (rest_of_pass g ki rest fresh) as [bs'|e] eqn:Hrest;
          cbn [bind] in Hpass; [|discriminate].
        inversion Hpass; subst bs.
        exists {| pending := rest; acc := fresh |}.
        split; [apply Hturn|]. split; [reflexivity|].
        right. cbn [pending length]. split; [exact Hrest|lia].
      * specialize (IH a' bs Hpass). destruct bs as [|b bs'].
        -- destruct IH as [Hzero _]. apply collect_count in Hcol. lia.
        -- destruct IH as (s' & Hnext & Hfresh & Hwhere).
           exists s'. split; [rewrite Hturn; exact Hnext|].
           split; [exact Hfresh|].
           destruct Hwhere as [Hend|[Hmid Hlen]]; [now left|right].
           split; [exact Hmid|cbn [length]; lia].
    + specialize (IH a bs Hpass). destruct bs as [|b bs'].
      * destruct IH as [Hzero Hsilent]. split; [exact Hzero|].
        intros fuel. rewrite (next_skip g ki t rest a yw _ Hy Hyd).
        apply Hsilent.
      * destruct IH as (s' & Hnext & Hfresh & Hwhere).
        exists s'. split.
        -- rewrite (next_skip g ki t rest a yw _ Hy Hyd).
           replace (S (length (t :: rest))) with (S (length rest) + 1)
             by (cbn [length]; lia).
           now apply next_mono.
        -- split; [exact Hfresh|].
           destruct Hwhere as [Hend|[Hmid Hlen]]; [now left|right].
           split; [exact Hmid|cbn [length]; lia].
Qed.

End BatchSteps.

Section BatchCycle.
Context {A : Type} `{Scalar A}.

Lemma length_concat_replicate {X : Type} (p : nat) (l : list X) :
  length (concat (replicate p l)) = p * length l.
Proof.
  induction p as [|p IH]; [reflexivity|].
  cbn [replicate concat]. rewrite length_app, IH. lia.
Qed.

(** Once a pass is known to emit something, the batches obtained one
    after the other are those of the rest of the current pass and then
    those of whole passes, again and again. *)
Lemma batches_cycle (g : globals A) (ki : KerasIterator)
    (pass : list (batch A)) :
  one_pass g ki = Ok pass -> pass <> [] ->
  forall k p rest bs,
    k <= length (bs ++ concat (replicate p pass)) ->
    rest_of_pass g ki rest fresh = Ok bs ->
    length rest <= length (source (tweet_iterator ki)) ->
    first_batches g ki (length (source (tweet_iterator ki)) + 2) k
      {| pending := rest; acc := fresh |}
    = Some (take k (bs ++ concat (replicate p pass))).
Proof.
  intros Hpass Hsome. set (src := source (tweet_iterator ki)).
  induction k as [|k IH]; intros p rest bs Hk Hrest Hlen; [reflexivity|].
  assert (Hstart : forall q, k <= length (concat (replicate q pass)) ->
            first_batches g ki (length src + 2) k
              {| pending := src; acc := fresh |}
            = Some (take k (concat (replicate q pass)))).
  { intros [|q] Hq.
    - cbn in Hq. assert (k = 0) as -> by lia. reflexivity.
    - cbn [replicate concat] in *. now apply IH. }
  assert (Hafter : forall b bs' s' q,
            acc s' = fresh ->
            (pending s' = src /\ bs' = []
             \/ rest_of_pass g ki (pending s') fresh = Ok bs'
                /\ length (pending s') <= length src) ->
            k <= length (bs' ++ concat (replicate q pass)) ->
            match first_batches g ki (length src + 2) k s' with
            | Some l => Some (b :: l)
            | None => None
            end
            = Some (b :: take k (bs' ++ concat (replicate q pass)))).
  { intros b bs' [pend a'] q Hfresh Hwhere Hq. cbn [acc pending] in *.
    subst a'. destruct Hwhere as [[-> ->]|[Hmid Hle]].
    - cbn [app] in *. now rewrite (Hstart q Hq).
    - now rewrite (IH q pend bs' Hq Hmid Hle). }
  cbn [first_batches].
  pose proof (next_step g ki rest fresh bs Hrest) as Hstep.
  destruct bs as [|b bs'].
  - destruct Hstep as [_ Hsilent].
    replace (length src + 2) with (S (S (length src))) by lia.
    rewrite Hsilent.
    replace (S (S (length src))) with (length src + 2) by lia.
    cbn [app] in *. destruct p as [|q]; [cbn in Hk; lia|].
    cbn [replicate concat] in *.
    pose proof (next_step g ki src fresh pass Hpass) as Hfirst.
    destruct pass as [|b pass']; [congruence|].
    destruct Hfirst as (s' & Hnext & Hfresh & Hwhere).
    fold src. rewrite Hnext. cbn [app take length] in *.
    apply (Hafter b pass' s' q); [exact Hfresh|exact Hwhere|lia].
  - destruct Hstep as (s' & Hnext & Hfresh & Hwhere).
    replace (length src + 2)
      with (S (length rest) + (length src + 1 - length rest))
      by (unfold src in *; lia).
    rewrite (next_mono g ki _ _ _ _ Hnext).
    replace (S (length rest) + (length src + 1 - length rest))
      with (length src + 2) by (unfold src in *; lia).
    cbn [app take length] in *.
    apply (Hafter b bs' s' p); [exact Hfresh| |lia].
    destruct Hwhere as [Hend|[Hmid Hle]]; [now left|right].
    split; [exact Hmid|unfold src in *; lia].
Qed.

Lemma next_never_exhausted (g : globals A) (ki : KerasIterator)
    (fuel : nat) :
  forall s,
    KerasIterator_next g ki fuel s <> Some Exhausted
    /\ KerasIterator_next g ki fuel s <> Some (Thrown StopIteration).
Proof.
  induction fuel as [|fuel IH]; intros s; [split; discriminate|].
  cbn [KerasIterator_next].
  destruct (turn g ki s) as [b s'|e|s'] eqn:Hturn;
    [split; discriminate| |apply IH].
  split; [discriminate|]. intros Heq. inversion Heq; subst e. clear Heq.
  unfold turn in Hturn.
  destruct (iter_next g (tweet_iterator ki) (pending s))
    as [outs rest| |e] eqn:Hnext.
  - destruct (collect ki outs (acc s)) as [a|e] eqn:Hcol.
    + destruct (_ =? _)%Z; [|discriminate].
      unfold stacked, np_stack, np_vstack in Hturn.
      repeat match type of Hturn with
             | context [if ?b then _ else _] => destruct b
             | context [match ?l with [] => _ | _ :: _ => _ end] =>
                 destruct l
             | context [match all_mats ?l with _ => _ end] =>
                 destruct (all_mats l)
             | context [match all_vecs ?l with _ => _ end] =>
                 destruct (all_vecs l)
             | context [match all_rows ?l with _ => _ end] =>
                 destruct (all_rows l)
             end; cbn [bind] in Hturn; discriminate.
    + inversion Hturn; subst e. clear Hturn. unfold collect in Hcol.
      assert (Hidx : forall (v : value A) k,
                index v k <> Raise StopIteration).
      { intros v k. unfold index.
        destruct v; try destruct (_ !! _); discriminate. }
      repeat match type of Hcol with
             | context [if ?b then _ else _] => destruct b
             end; cbn [bind fst snd] in Hcol;
        repeat match type of Hcol with
               | context [index ?v ?k] =>
                   let E := fresh "E" in
                   destruct (index v k) eqn:E; cbn [bind fst snd] in Hcol;
                   [|inversion Hcol; subst; now apply Hidx in E]
               end; discriminate.
  - destruct (0 <? count (acc s)); [|discriminate].
    unfold stacked, np_stack, np_vstack in Hturn.
    repeat match type of Hturn with
           | context [if ?b then _ else _] => destruct b
           | context [match ?l with [] => _ | _ :: _ => _ end] =>
               destruct l
           | context [match all_mats ?l with _ => _ end] =>
               destruct (all_mats l)
           | context [match all_vecs ?l with _ => _ end] =>
               destruct (all_vecs l)
           | context [match all_rows ?l with _ => _ end] =>
               destruct (all_rows l)
           end; cbn [bind] in Hturn; discriminate.
  - inversion Hturn; subst e.
    now apply iter_next_raises, production_error_not_stop in Hnext.
Qed.

End BatchCycle.

Section BatchContents.
Context {A : Type} `{Scalar A}.

Lemma all_rows_snoc (l : list (value A)) (R rs : list (list A))
    (v : value A) :
  all_rows l = Some R -> rows_of v = Some rs ->
  all_rows (l ++ [v]) = Some (R ++ rs).
Proof.
  revert R. induction l as [|x l IH]; intros R Hl Hv; cbn [all_rows app] in *.
  - inversion Hl. rewrite Hv. cbn [app]. now rewrite app_nil_r.
  - destruct (rows_of x) as [rx|]; [|discriminate].
    destruct (all_rows l) as [R'|]; [|discriminate].
    inversion Hl; subst R. rewrite (IH R' eq_refl Hv).
    now rewrite app_assoc.
Qed.

Lemma all_mats_snoc (l : list (value A)) (M : list (list A)) :
  (exists Ms, all_mats l = Some Ms) ->
  exists Ms, all_mats (l ++ [VMat M]) = Some Ms.
Proof.
  induction l as [|x l IH]; intros [Ms HMs]; cbn [all_mats app] in *.
  - eexists. reflexivity.
  - destruct x; try discriminate.
    destruct (all_mats l) as [Ms'|]; [|discriminate].
    destruct IH as [Ms'' ->]; [now exists Ms'|]. eexists. reflexivity.
Qed.

Lemma stackable_snoc (flag : bool) (l : list (value A)) (n : nat)
    (M : list (list A)) :
  stackable flag l n ->
  stackable flag (if flag then l ++ [VMat M] else l) (S n).
Proof.
  unfold stackable. destruct flag; [|easy].
  intros [Hlen Hmats]. split.
  - rewrite length_app, Hlen. cbn [length]. lia.
  - now apply all_mats_snoc.
Qed.

Lemma np_stack_stackable (l : list (value A)) (n : nat) :
  stackable true l (S n) -> exists T, np_stack l = Ok (VTen T).
Proof.
  intros [Hlen [Ms HMs]]. unfold np_stack.
  destruct l as [|x l]; [discriminate|]. rewrite HMs. now exists Ms.
Qed.

Lemma stacked_holds (ki : KerasIterator) (a : accum A) (R : list (list A)) :
  holds ki a R -> R <> [] -> exists X, stacked ki a = Ok (X, VMat R).
Proof.
  intros (Hcount & Hylen & Hrows & Hc & Hd & Hw) Hsome.
  destruct R as [|r R]; [congruence|]. cbn [length] in *.
  unfold stacked.
  assert (Hy : np_vstack (output_y a) = Ok (VMat (r :: R))).
  { unfold np_vstack. destruct (output_y a); [discriminate|].
    now rewrite Hrows. }
  rewrite Hy.
  destruct (char ki);
    [destruct (np_stack_stackable _ _ Hc) as [Tc ->]|];
    (destruct (chrd ki);
     [destruct (np_stack_stackable _ _ Hd) as [Td ->]|]);
    (destruct (word ki);
     [destruct (np_stack_stackable _ _ Hw) as [Tw ->]|]);
    cbn [bind]; eexists; reflexivity.
Qed.

Lemma holds_fresh (ki : KerasIterator) : holds ki (fresh (A := A)) [].
Proof.
  unfold holds, stackable, fresh. cbn.
  repeat split; try reflexivity;
    match goal with
    | |- context [if ?b then _ else _] => destruct b
    end; try reflexivity; (split; [reflexivity|now exists []]).
Qed.

Lemma field_value_char (g : globals A) (t : pystr) :
  field_value g t "char_mat"
  = Some (let* M := text2mat g (fst (split_hashtags t)) "char" 140 30 in
          Ok (VMat M)).
Proof. reflexivity. Qed.

Lemma field_value_chrd (g : globals A) (t : pystr) :
  field_value g t "chrd_mat"
  = Some (let* M := text2mat g (fst (split_hashtags t)) "chrd" 140 30 in
          Ok (VMat M)).
Proof. reflexivity. Qed.

Lemma field_value_word (g : globals A) (t : pystr) :
  field_value g t "word_mat"
  = Some (let* M := text2mat g (fst (split_hashtags t)) "word" 140 30 in
          Ok (VMat M)).
Proof. reflexivity. Qed.

Lemma field_value_label (g : globals A) (t : pystr) :
  field_value g t "label"
  = Some (match mlb g with
          | None => Raise (NameError "mlb")
          | Some m => Ok (VMat (transform m [known_hashtags g t]))
          end).
Proof. reflexivity. Qed.

Lemma text2mat_word_ok (g : globals A) (store : Word2Vec A) (text : pystr)
    (max_chars max_words : nat) :
  w2v g = Some store -> well_formed store ->
  exists M, text2mat g text "word" max_chars max_words = Ok M.
Proof.
  intros Hg Hwf. unfold text2mat. rewrite Hg.
  cbn [String.eqb Ascii.eqb Bool.eqb].
  destruct (word_loop_shape store max_words
              (split (clean (strip (lower text)))) Hwf max_words 0 _
              (np_zeros_shape max_words (layer1_size store)))
    as (M & Hrun & _).
  now exists M.
Qed.

End BatchContents.

Section BatchExamples.
Context {A : Type} `{Scalar A}.

(** A text that passes the filter adds one example to the accumulators. *)
Lemma example_collected (g : globals A) (ki : KerasIterator)
    (m : MultiLabelBinarizer) (t : pystr) (a : accum A)
    (R : list (list A)) :
  wired ki -> mlb g = Some m -> word_ready g ki ->
  survives g t = true -> holds ki a R ->
  exists yw outs a',
    yield_ g (tweet_iterator ki) t = Ok yw
    /\ yielded yw = Some outs
    /\ collect ki outs a = Ok a'
    /\ holds ki a' (R ++ transform m [known_hashtags g t]).
Proof.
  intros [Hyl Hskip] Hmlb Hword Hsurv (Hcount & Hylen & Hrows & Hc & Hd & Hw).
  rewrite yield_unfold, Hskip, Hsurv, Hyl. cbn [negb andb].
  set (tw := fst (split_hashtags t)).
  assert (HMc : exists Mc, text2mat g tw "char" 140 30 = Ok Mc)
    by (eexists; reflexivity).
  assert (HMd : exists Md, text2mat g tw "chrd" 140 30 = Ok Md)
    by (eexists; reflexivity).
  destruct HMc as [Mc HMc]. destruct HMd as [Md HMd].
  assert (HMw : word ki = true ->
                exists Mw, text2mat g tw "word" 140 30 = Ok Mw).
  { intros Hon. destruct (Hword Hon) as (store & Hs & Hwf).
    now apply (text2mat_word_ok g store). }
  unfold collect, holds.
  pose proof (stackable_snoc _ _ _ Mc Hc) as Hc'.
  pose proof (stackable_snoc _ _ _ Md Hd) as Hd'.
  assert (Hy' : all_rows (output_y a
                          ++ [VMat (transform m [known_hashtags g t])])
                = Some (R ++ transform m [known_hashtags g t]))
    by (now apply all_rows_snoc).
  assert (Hy'' : all_rows
                   (output_y a ++
                    [VVec (map (fun c => if mem_text c (known_hashtags g t)
                                         then one else zero) (classes_ m))])
                 = Some (R ++ transform m [known_hashtags g t]))
    by (now apply all_rows_snoc).
  assert (Hlen1 : length (R ++ transform m [known_hashtags g t])
                  = S (length R))
    by (rewrite length_app; cbn; lia).
  destruct (char ki) eqn:Ec; destruct (chrd ki) eqn:Ed;
    destruct (word ki) eqn:Ew;
    try (destruct (HMw eq_refl) as [Mw HMw'];
         pose proof (stackable_snoc _ _ _ Mw Hw) as Hw');
    cbn [mat_types app fields_in_order];
    rewrite ?field_value_char, ?field_value_chrd, ?field_value_word,
      field_value_label; fold tw;
    rewrite ?HMc, ?HMd, ?HMw', Hmlb; cbn [bind];
    (eexists; eexists; eexists; split; [reflexivity|];
     split; [reflexivity|]; split; [reflexivity|]);
    cbn [count output_y output_charX output_chrdX output_wordX fst snd];
    rewrite Hlen1, ?length_app, Hcount, Hylen; cbn [length];
    (split; [|split; [|split; [|split; [|split]]]]);
    first [ exact Hc' | exact Hd' | exact Hw' | exact Hc | exact Hd
          | exact Hw | exact Hy' | exact Hy'' | lia | reflexivity ].
Qed.

Lemma skipped_yields_nothing (g : globals A) (ki : KerasIterator)
    (t : pystr) :
  wired ki -> survives g t = false ->
  yield_ g (tweet_iterator ki) t = Ok [].
Proof.
  intros [_ Hskip] Hsurv. now rewrite yield_unfold, Hskip, Hsurv.
Qed.

End BatchExamples.

Lemma sizes_end (B c : nat) :
  c < B \/ B = 0 -> sizes B c 0 = if 0 <? c then [c] else [].
Proof.
  intros Hc. unfold sizes. rewrite Nat.add_0_r.
  assert (Hdiv : c / B = 0).
  { destruct Hc as [Hc| ->]; [now apply Nat.div_small|apply Nat.div_0_r]. }
  assert (Hmod : c mod B = c).
  { destruct Hc as [Hc| ->]; [now apply Nat.mod_small|apply Nat.mod_0_r]. }
  rewrite Hdiv, Hmod. cbn [replicate app].
  destruct c; reflexivity.
Qed.

Lemma sizes_full (B c n : nat) :
  S c = B -> sizes B c (S n) = B :: sizes B 0 n.
Proof.
  intros HB. unfold sizes.
  replace (c + S n) with (n + 1 * B) by lia.
  rewrite Nat.div_add by lia. rewrite Nat.Div0.mod_add.
  replace (n / B + 1) with (S (n / B)) by lia. reflexivity.
Qed.

Lemma sizes_more (B c n : nat) : sizes B c (S n) = sizes B (S c) n.
Proof. unfold sizes. now replace (c + S n) with (S c + n) by lia. Qed.

Section PassContents.
Context {A : Type} `{Scalar A}.

(** The batches of the rest of a pass: their label rows, one after the
    other, are the rows accumulated so far and then one row per text that
    passes the filter; their sizes are [sizes]. *)
Lemma rest_of_pass_spec (g : globals A) (ki : KerasIterator)
    (m : MultiLabelBinarizer) :
  wired ki -> mlb g = Some m -> word_ready g ki ->
  let B := Z.to_nat (batch_size ki) in
  forall rest a R,
    holds ki a R -> length R < B \/ B = 0 ->
    exists bs,
      rest_of_pass g ki rest a = Ok bs
      /\ concat (map y_rows bs)
         = R ++ transform m (map (known_hashtags g)
                               (filter (survives g) rest))
      /\ map batch_len bs
         = sizes B (length R) (length (filter (survives g) rest)).
Proof.
  intros Hwired Hmlb Hword B.
  induction rest as [|t rest IH]; intros a R Hholds HB.
  - cbn [rest_of_pass filter list_filter length map].
    rewrite sizes_end by exact HB.
    destruct Hholds as (Hcount & Hrest). rewrite Hcount.
    destruct R as [|r R].
    + cbn [length Nat.ltb Nat.leb]. exists []. now split.
    + destruct (stacked_holds ki a (r :: R)) as [X HX];
        [now split|discriminate|].
      cbn [length Nat.ltb Nat.leb]. rewrite HX. cbn [bind].
      eexists. split; [reflexivity|].
      cbn. now rewrite !app_nil_r.
  - cbn [rest_of_pass]. rewrite filter_survives_cons.
    destruct (survives g t) eqn:Hsurv.
    + destruct (example_collected g ki m t a R Hwired Hmlb Hword Hsurv Hholds)
        as (yw & outs & a' & Hy & Hyd & Hcol & Hholds').
      rewrite Hy. cbn [bind]. rewrite Hyd, Hcol. cbn [bind].
      assert (Hcount' : count a' = S (length R)).
      { destruct Hholds' as [Hc _]. rewrite Hc, length_app. cbn. lia. }
      cbn [length map]. rewrite Hcount'.
      destruct (Z.of_nat (S (length R)) =? batch_size ki)%Z eqn:Hfull.
      * apply Z.eqb_eq in Hfull.
        assert (HB' : S (length R) = B) by (unfold B; lia).
        destruct (stacked_holds ki a' _ Hholds') as [X HX].
        { destruct R; discriminate. }
        rewrite HX. cbn [bind].
        destruct (IH fresh [] (holds_fresh ki)) as (bs & Hbs & Hrows & Hsz).
        { left. cbn [length]. lia. }
        rewrite Hbs. cbn [bind]. eexists. split; [reflexivity|].
        cbn [map concat]. rewrite Hrows, Hsz. split.
        -- unfold y_rows. cbn [snd app]. unfold transform.
           cbn [map]. now rewrite <- app_assoc.
        -- rewrite (sizes_full B (length R)) by exact HB'.
           unfold batch_len. cbn [snd length]. rewrite length_app.
           cbn. f_equal. lia.
      * apply Z.eqb_neq in Hfull.
        destruct (IH a' _ Hholds') as (bs & Hbs & Hrows & Hsz).
        { rewrite length_app. cbn [transform map length].
          destruct HB as [HB| ->]; [left; unfold B in *; lia|now right]. }
        exists bs. split; [exact Hbs|]. rewrite Hrows, Hsz. split.
        -- unfold transform. cbn [map]. now rewrite <- app_assoc.
        -- rewrite sizes_more, length_app. cbn [transform map length].
           f_equal. lia.
    + rewrite (skipped_yields_nothing g ki t Hwired Hsurv).
      cbn [bind yielded]. now apply IH.
Qed.

End PassContents.

Section PassGroups.
Context {A : Type} `{Scalar A}.

Lemma all_mats_map (Ms : list (list (list A))) :
  all_mats (map VMat Ms) = Some Ms.
Proof.
  induction Ms as [|M Ms IH]; [reflexivity|].
  cbn [map all_mats]. now rewrite IH.
Qed.

Lemma np_stack_mats {X : Type} (f : X -> list (list A)) (xs : list X) :
  xs <> [] ->
  np_stack (map (fun x => VMat (f x)) xs) = Ok (VTen (map f xs)).
Proof.
  intros Hxs. rewrite <- (map_map f VMat). unfold np_stack.
  rewrite all_mats_map. destruct xs; [congruence|reflexivity].
Qed.

Lemma gathered_fresh (g : globals A) (ki : KerasIterator) :
  gathered g ki fresh [].
Proof.
  unfold gathered, fresh. cbn.
  now destruct (char ki), (chrd ki), (word ki).
Qed.

(** The batch that is stacked from the accumulators of the texts [ts] *)
Lemma stacked_gathered (g : globals A) (ki : KerasIterator) (a : accum A)
    (R : list (list A)) (ts : list pystr) :
  holds ki a R -> gathered g ki a ts -> ts <> [] -> R <> [] ->
  stacked ki a = Ok (tensors_of g ki ts, VMat R).
Proof.
  intros (Hcount & Hylen & Hrows & _) (Hc & Hd & Hw) Hts HR.
  unfold stacked, tensors_of. rewrite Hc, Hd, Hw.
  assert (Hy : np_vstack (output_y a) = Ok (VMat R)).
  { unfold np_vstack. destruct (output_y a) as [|y ys].
    - destruct R; [congruence|discriminate].
    - now rewrite Hrows. }
  rewrite Hy.
  destruct (char ki), (chrd ki), (word ki);
    rewrite ?np_stack_mats by exact Hts; reflexivity.
Qed.

(** A text that passes the filter adds its matrices to the accumulators. *)
Lemma example_gathered (g : globals A) (ki : KerasIterator)
    (m : MultiLabelBinarizer) (t : pystr) (a : accum A)
    (ts : list pystr) :
  wired ki -> mlb g = Some m -> word_ready g ki ->
  survives g t = true ->
  gathered g ki a ts ->
  forall yw outs a',
    yield_ g (tweet_iterator ki) t = Ok yw ->
    yielded yw = Some outs ->
    collect ki outs a = Ok a' ->
    gathered g ki a' (ts ++ [t]).
Proof.
  intros [Hyl Hskip] Hmlb Hword Hsurv (Hc & Hd & Hw) yw outs a'.
  rewrite yield_unfold, Hskip, Hsurv, Hyl. cbn [negb andb].
  unfold gathered, mat_of.
  set (tw := fst (split_hashtags t)).
  assert (HMc : exists Mc, text2mat g tw "char" 140 30 = Ok Mc)
    by (eexists; reflexivity).
  assert (HMd : exists Md, text2mat g tw "chrd" 140 30 = Ok Md)
    by (eexists; reflexivity).
  destruct HMc as [Mc HMc]. destruct HMd as [Md HMd].
  assert (HMw : word ki = true ->
                exists Mw, text2mat g tw "word" 140 30 = Ok Mw).
  { intros Hon. destruct (Hword Hon) as (store & Hs & Hwf).
    now apply (text2mat_word_ok g store). }
  unfold collect. rewrite !map_app. cbn [map]. fold tw.
  rewrite HMc, HMd.
  destruct (char ki) eqn:Ec; destruct (chrd ki) eqn:Ed;
    destruct (word ki) eqn:Ew;
    try (destruct (HMw eq_refl) as [Mw HMw']);
    cbn [mat_types app fields_in_order];
    rewrite ?field_value_char, ?field_value_chrd, ?field_value_word,
      field_value_label; fold tw;
    rewrite ?HMc, ?HMd, ?HMw', Hmlb; cbn [bind];
    intros Hyw; inversion Hyw; subst yw; clear Hyw;
    cbn [yielded]; intros Houts; inversion Houts; subst outs; clear Houts;
    cbn; intros Ha; inversion Ha; subst a'; clear Ha;
    cbn [output_charX output_chrdX output_wordX];
    rewrite Hc, Hd, Hw; repeat split; reflexivity.
Qed.

(** The batches of the rest of a pass are the batches of consecutive
    groups of the texts: the texts accumulated so far and then those that
    pass the filter, cut into groups of the sizes [sizes]. *)
Lemma rest_of_pass_groups (g : globals A) (ki : KerasIterator)
    (m : MultiLabelBinarizer) :
  wired ki -> mlb g = Some m -> word_ready g ki ->
  let B := Z.to_nat (batch_size ki) in
  forall rest a ts,
    holds ki a (transform m (map (known_hashtags g) ts)) ->
    gathered g ki a ts ->
    length ts < B \/ B = 0 ->
    exists groups,
      rest_of_pass g ki rest a = Ok (map (batch_of g ki m) groups)
      /\ concat groups = ts ++ filter (survives g) rest
      /\ map (fun group => length group) groups
         = sizes B (length ts) (length (filter (survives g) rest))
      /\ Forall (fun group => group <> []) groups.
Proof.
  intros Hwired Hmlb Hword B.
  assert (Hlabels : forall us, length (transform m (map (known_hashtags g) us))
                               = length us).
  { intros us. unfold transform. now rewrite !length_map. }
  induction rest as [|t rest IH]; intros a ts Hholds Hgath HB.
  - cbn [rest_of_pass filter list_filter length].
    rewrite sizes_end by exact HB.
    pose proof Hholds as (Hcount & _). rewrite Hcount, Hlabels.
    destruct ts as [|t0 ts].
    + cbn [length Nat.ltb Nat.leb]. exists []. repeat split. constructor.
    + cbn [length Nat.ltb Nat.leb].
      rewrite (stacked_gathered g ki a _ (t0 :: ts) Hholds Hgath)
        by discriminate.
      cbn [bind]. exists [t0 :: ts]. cbn [map concat length].
      rewrite !app_nil_r. repeat split.
      constructor; [discriminate|constructor].
  - cbn [rest_of_pass]. rewrite filter_survives_cons.
    destruct (survives g t) eqn:Hsurv.
    + destruct (example_collected g ki m t a _ Hwired Hmlb Hword Hsurv Hholds)
        as (yw & outs & a' & Hy & Hyd & Hcol & Hholds').
      pose proof (example_gathered g ki m t a ts Hwired Hmlb Hword Hsurv
                    Hgath yw outs a' Hy Hyd Hcol) as Hgath'.
      assert (Hlab : transform m (map (known_hashtags g) ts)
                     ++ transform m [known_hashtags g t]
                     = transform m (map (known_hashtags g) (ts ++ [t]))).
      { unfold transform. now rewrite !map_app. }
      rewrite Hlab in Hholds'.
      rewrite Hy. cbn [bind]. rewrite Hyd, Hcol. cbn [bind].
      assert (Hcount' : count a' = S (length ts)).
      { destruct Hholds' as [Hc _]. rewrite Hc, Hlabels, length_app.
        cbn. lia. }
      cbn [length]. rewrite Hcount'.
      destruct (Z.of_nat (S (length ts)) =? batch_size ki)%Z eqn:Hfull.
      * apply Z.eqb_eq in Hfull.
        assert (HB' : S (length ts) = B) by (unfold B; lia).
        rewrite (stacked_gathered g ki a' _ (ts ++ [t]) Hholds' Hgath').
        2: { now destruct ts. }
        2: { intros HR. pose proof (Hlabels (ts ++ [t])) as Hl.
             rewrite HR, length_app in Hl. cbn [length] in Hl. lia. }
        cbn [bind].
        destruct (IH fresh []) as (groups & Hrun & Hcat & Hsz & Hne).
        { apply holds_fresh. }
        { apply gathered_fresh. }
        { left. cbn [length]. lia. }
        rewrite Hrun. cbn [bind].
        exists ((ts ++ [t]) :: groups). cbn [map concat].
        split; [reflexivity|]. split; [|split].
        -- rewrite Hcat. cbn [app]. now rewrite <- app_assoc.
        -- rewrite Hsz. cbn [length].
           rewrite (sizes_full B (length ts)) by exact HB'.
           rewrite length_app. cbn [length]. f_equal. lia.
        -- constructor; [now destruct ts|exact Hne].
      * apply Z.eqb_neq in Hfull.
        destruct (IH a' (ts ++ [t]) Hholds' Hgath')
          as (groups & Hrun & Hcat & Hsz & Hne).
        { rewrite length_app. cbn [length].
          destruct HB as [HB| ->]; [left; unfold B in *; lia|now right]. }
        exists groups. split; [exact Hrun|]. split; [|split].
        -- rewrite Hcat. now rewrite <- app_assoc.
        -- rewrite Hsz, sizes_more, length_app. cbn [length].
           f_equal. lia.
        -- exact Hne.
    + rewrite (skipped_yields_nothing g ki t Hwired Hsurv).
      cbn [bind yielded]. now apply IH.
Qed.

End PassGroups.

Lemma init_wired {A : Type} (g : globals A) (src : list pystr)
    (size : Z) (c d w : bool) (ki : KerasIterator) :
  KerasIterator_init g src size c d w = Ok ki ->
  wired ki
  /\ source (tweet_iterator ki) = src
  /\ batch_size ki = size
  /\ word ki = w.
Proof.
  unfold KerasIterator_init, TweetIterator_init. cbn [bind].
  intros Hinit. inversion Hinit. unfold wired.
  cbn [tweet_iterator yield_list skip_nohashtag source char chrd word
       batch_size].
  repeat split. now destruct c, d, w.
Qed.

(** C4.  With a binarizer loaded (and a well-formed model if word
    matrices are enabled), for every source and batch size: one pass emits
    [n / B] batches of exactly [B] examples and then, when [B] does not
    divide [n], one batch with the [n mod B] remaining ones, where [n] is
    the number of texts that pass the filter; the label rows of the
    batches, one after the other, are the labels of those texts in order;
    the batches are those of the consecutive groups of these texts, each
    holding, for every enabled matrix type, the stacked matrices of the
    texts of its group, and their label rows;
    the batches obtained by repeated [next] are those of the pass again
    and again, each within [length src + 2] turns, as soon as one text
    passes the filter; and [next] never ends with an exhaustion.  For
    [n = 7] and batch size 3 the sizes are 3, 3, 1. *)
Theorem batches_per_pass_and_forever :
  forall (A : Type) (Sc : Scalar A) (g : globals A) (src : list pystr)
         (batch_size : Z) (char chrd word : bool) (ki : KerasIterator)
         (m : MultiLabelBinarizer),
    KerasIterator_init g src batch_size char chrd word = Ok ki ->
    mlb g = Some m ->
    (word = true -> exists store, w2v g = Some store /\ well_formed store) ->
    let items := filter (survives g) src in
    let n := length items in
    let B := Z.to_nat batch_size in
    exists pass,
      one_pass g ki = Ok pass
      /\ map batch_len pass
         = replicate (n / B) B ++ (if n mod B =? 0 then [] else [n mod B])
      /\ concat (map y_rows pass)
         = transform m (map (known_hashtags g) items)
      /\ (exists groups,
            concat groups = items
            /\ map (fun group => length group) groups
               = replicate (n / B) B
                 ++ (if n mod B =? 0 then [] else [n mod B])
            /\ pass = map (batch_of g ki m) groups)
      /\ (n <> 0 ->
          forall k,
            first_batches g ki (length src + 2) k (start ki)
            = Some (take k (concat (replicate k pass))))
      /\ (forall fuel s,
            KerasIterator_next g ki fuel s <> Some Exhausted
            /\ KerasIterator_next g ki fuel s <> Some (Thrown StopIteration))
      /\ (n = 7 -> batch_size = 3%Z -> map batch_len pass = [3; 3; 1]).
Proof.
  intros A Sc g src batch_size char chrd word ki m Hinit Hmlb Hstore
    items n B.
  destruct (init_wired g src batch_size char chrd word ki Hinit)
    as (Hwired & Hsrc & Hbs & Hw).
  assert (Hword : word_ready g ki).
  { unfold word_ready. rewrite Hw. exact Hstore. }
  destruct (rest_of_pass_spec g ki m Hwired Hmlb Hword src fresh []
              (holds_fresh ki)) as (pass & Hpass & Hrows & Hsizes).
  { rewrite Hbs. cbn [length]. fold B. lia. }
  rewrite Hbs in Hsizes. fold B in Hsizes. fold items in Hrows, Hsizes.
  fold n in Hsizes. unfold sizes in Hsizes. cbn [length Nat.add] in Hsizes.
  cbn [app] in Hrows.
  assert (Hone : one_pass g ki = Ok pass).
  { unfold one_pass. now rewrite Hsrc. }
  exists pass. split; [exact Hone|]. split; [exact Hsizes|].
  split; [exact Hrows|]. split; [|split; [|split]].
  - destruct (rest_of_pass_groups g ki m Hwired Hmlb Hword src fresh []
                (holds_fresh ki) (gathered_fresh g ki))
      as (groups & Hrun & Hcat & Hlens & _).
    { rewrite Hbs. cbn [length]. fold B. lia. }
    exists groups. rewrite Hbs in Hlens. fold B in Hlens.
    fold items in Hcat, Hlens. fold n in Hlens.
    unfold sizes in Hlens. cbn [length Nat.add app] in Hcat, Hlens.
    split; [exact Hcat|]. split; [exact Hlens|].
    unfold one_pass in Hone. rewrite Hsrc, Hrun in Hone.
    now inversion Hone.
  - intros Hn k.
    assert (Hsome : pass <> []).
    { intros ->. cbn [map] in Hsizes.
      symmetry in Hsizes. apply app_eq_nil in Hsizes as [Hq Hr].
      destruct (n mod B =? 0) eqn:Hmod; [|discriminate].
      apply Nat.eqb_eq in Hmod.
      assert (Hdiv : n / B = 0) by (destruct (n / B); [lia|discriminate]).
      pose proof (Nat.div_mod_eq n B). lia. }
    destruct k as [|k]; [reflexivity|].
    unfold start. rewrite <- Hsrc.
    pose proof (batches_cycle g ki pass Hone Hsome (S k) k
                  (source (tweet_iterator ki)) pass) as Hcycle.
    cbn [replicate concat]. apply Hcycle.
    + rewrite length_app, length_concat_replicate.
      destruct pass; [congruence|]. cbn [length]. nia.
    + exact Hone.
    + lia.
  - apply next_never_exhausted.
  - intros Hn7 Hb3. rewrite Hsizes. unfold B. rewrite Hn7, Hb3.
    reflexivity.
Qed.

Lemma toy_word_ready :
  true = true -> exists store, w2v toy_models = Some store
                               /\ well_formed store.
Proof.
  intros _. exists toy_store. split; [reflexivity|].
  exact toy_store_well_formed.
Defined.

Lemma batches_per_pass_and_forever_witness :
  exists pass,
    one_pass toy_models seven_by_three = Ok pass
    /\ map batch_len pass = [3; 3; 1]
    /\ forall k,
         first_batches toy_models seven_by_three 9 k (start seven_by_three)
         = Some (take k (concat (replicate k pass))).
Proof.
  destruct (batches_per_pass_and_forever Z Z_scalar toy_models seven_tweets
              3 true true true seven_by_three toy_mlb eq_refl eq_refl
              toy_word_ready)
    as (pass & Hone & _ & _ & _ & Hcycle & _ & Hsizes).
  exists pass. split; [exact Hone|]. split.
  - apply Hsizes; reflexivity.
  - apply Hcycle. discriminate.
Defined.

(** ** The normaliser *)

Section RegexFacts.
Variables (p : Re.pattern) (repl : pystr).

(** Where the pattern matches nowhere, the substitution changes nothing. *)
Lemma sub_no_match (s : pystr) :
  forall bos,
    Re.search_from p bos s = false -> Re.sub_from p repl bos 0 s = s.
Proof.
  induction s as [|c s IH]; intros bos Hs; [reflexivity|].
  cbn [Re.search_from Re.sub_from] in *.
  destruct (Re.match_here p bos (c :: s)) as [[|n]|];
    try discriminate; now rewrite IH.
Qed.

(** The characters of the result come from the text or from [repl]. *)
Lemma sub_Forall (P : ascii -> Prop) (s : pystr) :
  Forall P repl -> Forall P s ->
  forall bos skip, Forall P (Re.sub_from p repl bos skip s).
Proof.
  intros Hrepl Hs. induction Hs as [|c s Hc Hs IH]; intros bos skip;
    cbn [Re.sub_from]; [constructor|].
  destruct skip as [|k]; [|apply IH].
  destruct (Re.match_here p bos (c :: s)) as [[|n]|].
  - constructor; [exact Hc|apply IH].
  - apply Forall_app. split; [exact Hrepl|apply IH].
  - constructor; [exact Hc|apply IH].
Qed.

End RegexFacts.

Section ClassRuns.
Variables (cls : ascii -> bool) (repl : pystr).

Lemma match_here_many (bos : bool) (s : pystr) :
  Re.match_here [[Re.Many cls]] bos s
  = match Re.span cls s with
    | 0 => None
    | S n => Some (S n)
    end.
Proof.
  cbn [Re.match_here Re.match_seq].
  destruct (Re.span cls s) as [|n]; [reflexivity|].
  cbn [Re.longest_first]. now rewrite Nat.add_0_r.
Qed.

(** A substitution of [cls+] squeezes each run of the class. *)
Lemma sub_many (s : pystr) :
  forall bos,
    Re.sub_from [[Re.Many cls]] repl bos 0 s = squeeze cls repl false s
    /\ Re.sub_from [[Re.Many cls]] repl bos (Re.span cls s) s
       = squeeze cls repl true s.
Proof.
  induction s as [|c s IH]; intros bos; [now split|].
  assert (Hzero : Re.sub_from [[Re.Many cls]] repl bos 0 (c :: s)
                  = squeeze cls repl false (c :: s)).
  { cbn [Re.sub_from squeeze]. rewrite match_here_many.
    cbn [Re.span]. destruct (cls c).
    - now rewrite (proj2 (IH false)).
    - now rewrite (proj1 (IH false)). }
  split; [exact Hzero|].
  cbn [Re.span]. destruct (cls c) eqn:Hc.
  - cbn [Re.sub_from squeeze]. rewrite Hc. apply (proj2 (IH false)).
  - rewrite Hzero. cbn [squeeze]. now rewrite Hc.
Qed.

Lemma squeeze_Forall (P Q : ascii -> Prop) (s : pystr) :
  Forall Q repl -> (forall c, cls c = false -> P c -> Q c) ->
  Forall P s -> forall b, Forall Q (squeeze cls repl b s).
Proof.
  intros Hrepl HPQ Hs. induction Hs as [|c s Hc Hs IH]; intros b;
    cbn [squeeze]; [constructor|].
  destruct (cls c) eqn:Ec.
  - destruct b; [apply IH|].
    apply Forall_app. split; [exact Hrepl|apply IH].
  - constructor; [now apply HPQ|apply IH].
Qed.

End ClassRuns.

Lemma occurrences_app (c : ascii) (s t : pystr) :
  occurrences c (s ++ t) = occurrences c s + occurrences c t.
Proof.
  induction s as [|d s IH]; [reflexivity|].
  cbn [app occurrences]. rewrite IH. lia.
Qed.

(** Squeezing the runs of a class keeps every character outside the class
    that the replacement does not contain. *)
Lemma squeeze_keeps (cls : ascii -> bool) (repl : pystr) (c0 : ascii) :
  cls c0 = false -> occurrences c0 repl = 0 ->
  forall s b, occurrences c0 (squeeze cls repl b s) = occurrences c0 s.
Proof.
  intros Hc0 Hrepl. induction s as [|c s IH]; intros b; [reflexivity|].
  cbn [squeeze occurrences]. destruct (cls c) eqn:Hc.
  - assert (Hne : Ascii.eqb c0 c = false).
    { apply Ascii.eqb_neq. intros ->. congruence. }
    rewrite Hne. cbn [Nat.add]. destruct b; [apply IH|].
    now rewrite occurrences_app, Hrepl, IH.
  - cbn [occurrences]. now rewrite IH.
Qed.

(** C8, as amended.  [clean] is [lower], then the substitutions in the
    order URL, collapse, email, mention, retweet, whitespace, then
    [strip]: the URL substitution runs before the collapse of the
    non-characters, the email and the mention substitutions run after it;
    the collapse leaves every [@] in place, which is what they match
    on. *)
Theorem clean_order_of_substitutions :
  forall x : pystr,
    clean x = run_stages code_order x
    /\ before Url Collapse code_order = true
    /\ before Collapse Email code_order = true
    /\ before Collapse Mention code_order = true
    /\ occurrences "@" (apply_stage Collapse x) = occurrences "@" x.
Proof.
  intros x. repeat split.
  cbn [apply_stage]. unfold Re.sub, noncharacter_regex.
  rewrite (proj1 (sub_many noncharacter_class (str " ") x true)).
  now apply squeeze_keeps.
Qed.

(** On ["@a_b"] the code gives ["@user b"]: the collapse has cut the
    mention at the underscore before the mention substitution runs.  With
    the email and mention substitutions before the collapse the result is
    ["@user"], and so it is in every order of the six substitutions that
    has the URL, email and mention substitutions before the collapse. *)
Lemma clean_differs_from_stated_order :
  clean (str "@a_b") = str "@user b"
  /\ run_stages stated_order (str "@a_b") = str "@user"
  /\ forallb
       (fun order =>
          implb (before Url Collapse order && before Email Collapse order
                 && before Mention Collapse order)
                (negb (text_eqb (run_stages order (str "@a_b"))
                                (clean (str "@a_b")))))
       (permutations code_order) = true.
Proof. repeat split; vm_compute; reflexivity. Qed.

(** *** Characters *)

Ltac by_all_chars c :=
  destruct c as [[] [] [] [] [] [] [] []]; vm_compute;
  try reflexivity; try discriminate; intros; try reflexivity;
  try discriminate.

Lemma lower_char_not_upper (c : ascii) :
  not_upper_ascii (lower_char c) = true.
Proof. by_all_chars c. Qed.

Lemma plain_lower (c : ascii) : plain_char c = true -> lower_char c = c.
Proof. by_all_chars c. Qed.

Lemma plain_noncharacter (c : ascii) :
  plain_char c = true -> noncharacter_class c = is_char 32 c.
Proof. by_all_chars c. Qed.

Lemma plain_isspace (c : ascii) :
  plain_char c = true -> isspace c = is_char 32 c.
Proof. by_all_chars c. Qed.

Lemma plain_of_kept (c : ascii) :
  noncharacter_class c = false -> not_upper_ascii c = true ->
  plain_char c = true.
Proof. by_all_chars c. Qed.

Lemma is_space_eq (c : ascii) : is_char 32 c = true -> c = " "%char.
Proof. by_all_chars c. Qed.

Lemma nonspace_not_32 (c : ascii) : isspace c = false -> is_char 32 c = false.
Proof. by_all_chars c. Qed.

(** *** Runs of spaces *)

Lemma single_spaced_cons (c d : ascii) (s : pystr) :
  single_spaced (c :: d :: s)
  = negb (is_char 32 c && is_char 32 d) && single_spaced (d :: s).
Proof. reflexivity. Qed.

Lemma squeeze_fixed (cls : ascii -> bool) :
  (forall c, plain_char c = true -> cls c = is_char 32 c) ->
  forall y,
    Forall (fun c => plain_char c = true) y -> single_spaced y = true ->
    squeeze cls (str " ") false y = y
    /\ (starts_unspaced y -> squeeze cls (str " ") true y = y).
Proof.
  intros Hcls y Hy. induction Hy as [|c y Hc Hy IH]; intros Hss;
    [now split|].
  assert (Hss' : single_spaced y = true).
  { destruct y as [|d y]; [reflexivity|].
    cbn [single_spaced] in Hss. now apply andb_prop in Hss as [_ ?]. }
  destruct (IH Hss') as [IH1 IH2].
  assert (Hfalse : squeeze cls (str " ") false (c :: y) = c :: y).
  { cbn [squeeze]. rewrite (Hcls c Hc).
    destruct (is_char 32 c) eqn:Hsp; [|now rewrite IH1].
    apply is_space_eq in Hsp as Hceq. subst c. cbn [str app].
    change (list_ascii_of_string " ") with [" "%char]. cbn [app].
    rewrite IH2; [reflexivity|].
    destruct y as [|d y]; [exact I|]. cbn [single_spaced] in Hss.
    apply andb_prop in Hss as [Hcd _].
    cbn [starts_unspaced]. destruct (is_char 32 d); [discriminate|easy]. }
  split; [exact Hfalse|].
  intros Hstart. cbn [starts_unspaced] in Hstart.
  cbn [squeeze]. rewrite (Hcls c Hc), Hstart. now rewrite IH1.
Qed.

Lemma squeeze_single_spaced (s : pystr) :
  forall b,
    single_spaced (squeeze isspace (str " ") b s) = true
    /\ (b = true -> starts_unspaced (squeeze isspace (str " ") b s)).
Proof.
  induction s as [|c s IH]; intros b; [now split|].
  cbn [squeeze]. destruct (isspace c) eqn:Hc.
  - destruct b; [apply IH|].
    split; [|discriminate].
    destruct (IH true) as [Hss Hstart].
    change (str " " ++ squeeze isspace (str " ") true s)
      with (" "%char :: squeeze isspace (str " ") true s).
    specialize (Hstart eq_refl).
    destruct (squeeze isspace (str " ") true s) as [|d out];
      [reflexivity|].
    rewrite single_spaced_cons. cbn [starts_unspaced] in Hstart.
    rewrite Hstart, Hss. reflexivity.
  - apply nonspace_not_32 in Hc as H32.
    destruct (IH false) as [Hss _]. split.
    + destruct (squeeze isspace (str " ") false s) as [|d out];
        [reflexivity|].
      rewrite single_spaced_cons, H32, Hss. reflexivity.
    + intros _. exact H32.
Qed.

Lemma single_spaced_app (s t : pystr) :
  single_spaced (s ++ t) = true ->
  single_spaced s = true /\ single_spaced t = true.
Proof.
  induction s as [|c s IH]; intros Hst; [now split|].
  destruct s as [|d s].
  - split; [reflexivity|]. cbn [app] in Hst.
    destruct t as [|e t]; [reflexivity|].
    cbn [single_spaced] in Hst. now apply andb_prop in Hst as [_ ?].
  - cbn [app single_spaced] in Hst |- *.
    apply andb_prop in Hst as [Hcd Hrest]. rewrite Hcd.
    destruct (IH Hrest) as [Hs Ht]. split; [exact Hs|exact Ht].
Qed.

(** *** Trimming *)

Lemma lstrip_suffix (s : pystr) : exists l, s = l ++ lstrip s.
Proof.
  induction s as [|c s [l IH]]; [now exists []|].
  cbn [lstrip]. destruct (isspace c); [|now exists []].
  exists (c :: l). cbn [app]. now rewrite <- IH.
Qed.

Lemma lstrip_starts (s : pystr) : starts_nonspace (lstrip s).
Proof.
  induction s as [|c s IH]; [exact I|].
  cbn [lstrip]. destruct (isspace c) eqn:Hc; [exact IH|exact Hc].
Qed.

Lemma lstrip_fixed (s : pystr) : starts_nonspace s -> lstrip s = s.
Proof.
  destruct s as [|c s]; [reflexivity|].
  cbn [starts_nonspace lstrip]. now intros ->.
Qed.

Lemma strip_infix (s : pystr) : exists l r, s = l ++ strip s ++ r.
Proof.
  unfold strip, rstrip.
  destruct (lstrip_suffix s) as [l Hl].
  destruct (lstrip_suffix (rev (lstrip s))) as [r Hr].
  exists l, (rev r). rewrite <- rev_app_distr, <- Hr, rev_involutive.
  exact Hl.
Qed.

Lemma trimmed_strip (s : pystr) : trimmed (strip s).
Proof.
  unfold trimmed, strip, rstrip. split.
  - apply lstrip_fixed.
    destruct (lstrip_suffix (rev (lstrip s))) as [r Hr].
    pose proof (lstrip_starts s) as Hstart.
    assert (Hs : lstrip s = rev (lstrip (rev (lstrip s))) ++ rev r).
    { rewrite <- rev_app_distr, <- Hr. now rewrite rev_involutive. }
    destruct (rev (lstrip (rev (lstrip s)))) as [|c u]; [exact I|].
    rewrite Hs in Hstart. exact Hstart.
  - rewrite rev_involutive. apply lstrip_fixed, lstrip_starts.
Qed.

Lemma strip_fixed (y : pystr) : trimmed y -> strip y = y.
Proof.
  intros [Hl Hr]. unfold strip, rstrip.
  now rewrite Hl, Hr, rev_involutive.
Qed.

(** *** The shape of a cleaned text *)

Lemma lower_not_upper (x : pystr) :
  Forall (fun c => not_upper_ascii c = true) (lower x).
Proof.
  induction x as [|c x IH]; constructor; [apply lower_char_not_upper|].
  exact IH.
Qed.

Lemma lower_fixed (y : pystr) :
  Forall (fun c => plain_char c = true) y -> lower y = y.
Proof.
  induction 1 as [|c y Hc _ IH]; [reflexivity|].
  unfold lower in *. cbn [map]. now rewrite (plain_lower c Hc), IH.
Qed.

Lemma normal_clean (x : pystr) : normal (clean x).
Proof.
  unfold clean.
  set (u := Re.sub url_regex (str " httpurl") (lower x)).
  set (v := Re.sub noncharacter_regex (str " ") u).
  set (z := Re.sub retweet_regex (str " ")
              (Re.sub mention_regex (str " @user")
                 (Re.sub email_regex (str " email@address ") v))).
  set (w := Re.sub multspace_regex (str " ") z).
  assert (Hu : Forall (fun c => not_upper_ascii c = true) u).
  { apply sub_Forall; [|apply lower_not_upper].
    repeat constructor. }
  assert (Hv : Forall (fun c => plain_char c = true) v).
  { unfold v, Re.sub, noncharacter_regex.
    rewrite (proj1 (sub_many noncharacter_class (str " ") u true)).
    apply (squeeze_Forall _ _ (fun c => not_upper_ascii c = true));
      [repeat constructor| |exact Hu].
    intros c. apply plain_of_kept. }
  assert (Hz : Forall (fun c => plain_char c = true) z).
  { unfold z. do 3 (apply sub_Forall; [repeat constructor|]). exact Hv. }
  assert (Hw : w = squeeze isspace (str " ") false z).
  { unfold w, Re.sub, multspace_regex.
    apply (proj1 (sub_many space_char (str " ") z true)). }
  assert (Hwp : Forall (fun c => plain_char c = true) w).
  { rewrite Hw.
    apply (squeeze_Forall _ _ (fun c => plain_char c = true));
      [repeat constructor|now intros|exact Hz]. }
  assert (Hws : single_spaced w = true).
  { rewrite Hw. apply (squeeze_single_spaced z false). }
  destruct (strip_infix w) as (l & r & Hlr).
  split; [|split].
  - rewrite Hlr in Hwp. apply Forall_app in Hwp as [_ Hwp].
    now apply Forall_app in Hwp as [Hwp _].
  - rewrite Hlr in Hws. apply single_spaced_app in Hws as [_ Hws].
    now apply single_spaced_app in Hws as [Hws _].
  - apply trimmed_strip.
Qed.

(** A text of that shape in which none of the four token patterns
    matches is left as it is. *)
Lemma clean_fixed (y : pystr) :
  normal y ->
  Re.search url_regex y = false -> Re.search email_regex y = false ->
  Re.search mention_regex y = false -> Re.search retweet_regex y = false ->
  clean y = y.
Proof.
  intros (Hplain & Hss & Htrim) Hurl Hemail Hmention Hretweet.
  unfold clean, Re.sub, Re.search in *.
  rewrite (lower_fixed y Hplain).
  rewrite (sub_no_match url_regex _ y true Hurl).
  unfold noncharacter_regex.
  rewrite (proj1 (sub_many noncharacter_class (str " ") y true)).
  rewrite (proj1 (squeeze_fixed noncharacter_class plain_noncharacter
                    y Hplain Hss)).
  rewrite (sub_no_match email_regex _ y true Hemail).
  rewrite (sub_no_match mention_regex _ y true Hmention).
  rewrite (sub_no_match retweet_regex _ y true Hretweet).
  unfold multspace_regex.
  rewrite (proj1 (sub_many space_char (str " ") y true)).
  rewrite (proj1 (squeeze_fixed space_char plain_isspace y Hplain Hss)).
  now apply strip_fixed.
Qed.


(** * Further properties *)

(** ** The normaliser *)

(** X1.  Whatever the input, the result of [clean] consists of [@],
    digits, lower-case ASCII letters and spaces only, has no two spaces in
    a row and no whitespace at either end. *)
Theorem clean_output_shape : forall x : pystr, normal (clean x).
Proof. intros x. apply normal_clean. Qed.

Lemma text_eqb_refl (s : pystr) : text_eqb s s = true.
Proof.
  induction s as [|c s IH]; [reflexivity|].
  cbn [text_eqb]. now rewrite Ascii.eqb_refl, IH.
Qed.

Lemma text_eqb_eq (s t : pystr) : text_eqb s t = true -> s = t.
Proof.
  revert t. induction s as [|c s IH]; intros [|d t] Hst;
    try reflexivity; try discriminate.
  cbn [text_eqb] in Hst. apply andb_prop in Hst as [Hcd Hst].
  apply Ascii.eqb_eq in Hcd. subst d. now rewrite (IH t Hst).
Qed.

(** X2.  Every hashtag that [split_hashtags] returns is a [#] followed by
    a non-empty cleaned text: characters [@], digits, lower-case ASCII
    letters and single inner spaces. *)
Theorem split_hashtags_shape :
  forall (text h : pystr),
    In h (snd (split_hashtags text)) ->
    exists y, h = str "#" ++ y /\ y <> [] /\ normal y.
Proof.
  intros text h Hin. unfold split_hashtags in Hin. cbn [snd] in Hin.
  apply list_elem_of_In, list_elem_of_filter in Hin as [Hne Hin].
  apply list_elem_of_In, in_map_iff in Hin as (m & <- & _).
  exists (clean m). split; [reflexivity|]. split; [|apply normal_clean].
  intros Hempty. rewrite Hempty in Hne. cbn in Hne. exact Hne.
Qed.

Lemma split_hashtags_shape_witness :
  exists y, str "#world" = str "#" ++ y /\ y <> [] /\ normal y.
Proof.
  apply (split_hashtags_shape (str "hello #World! foo") (str "#world")).
  vm_compute. left. reflexivity.
Defined.

Lemma findall_no_match (p : Re.pattern) (s : pystr) :
  forall bos,
    Re.search_from p bos s = false -> Re.findall_from p bos 0 s = [].
Proof.
  induction s as [|c s IH]; intros bos Hs; [reflexivity|].
  cbn [Re.search_from Re.findall_from] in *.
  destruct (Re.match_here p bos (c :: s)) as [[|n]|];
    try discriminate; now apply IH.
Qed.

Lemma hashtag_no_match (s : pystr) :
  no_hash s -> forall bos, Re.search_from hashtag_regex bos s = false.
Proof.
  induction 1 as [|c s Hc Hs IH]; intros bos; [reflexivity|].
  cbn [Re.search_from].
  assert (Hnone : Re.match_here hashtag_regex bos (c :: s) = None).
  { unfold hashtag_regex. cbn [Re.match_here Re.match_seq]. rewrite Hc.
    destruct bos; destruct (space_char c); try reflexivity;
      destruct Hs as [|d s Hd _]; try reflexivity; now rewrite Hd. }
  rewrite Hnone. apply IH.
Qed.

(** X3.  A text without [#] has no hashtags and is returned as it is. *)
Theorem split_hashtags_without_hash :
  forall text : pystr, no_hash text -> split_hashtags text = (text, []).
Proof.
  intros text Hno. unfold split_hashtags, Re.findall, Re.sub.
  rewrite (findall_no_match _ _ _ (hashtag_no_match text Hno true)).
  rewrite (sub_no_match _ _ _ _ (hashtag_no_match text Hno true)).
  reflexivity.
Qed.

Lemma split_hashtags_without_hash_witness :
  split_hashtags (str "no tags here") = (str "no tags here", []).
Proof.
  apply (split_hashtags_without_hash (str "no tags here")).
  repeat constructor.
Defined.

Lemma lower_no_characters (c : ascii) :
  noncharacter_class c = true -> noncharacter_class (lower_char c) = true.
Proof. by_all_chars c. Qed.

Lemma no_characters_not_h (c : ascii) :
  noncharacter_class c = true -> chr "h" c = false.
Proof. by_all_chars c. Qed.

Lemma url_no_match (s : pystr) :
  no_characters s -> forall bos, Re.search_from url_regex bos s = false.
Proof.
  induction 1 as [|c s Hc Hs IH]; intros bos; [reflexivity|].
  cbn [Re.search_from].
  assert (Hnone : Re.match_here url_regex bos (c :: s) = None).
  { unfold url_regex. cbn [Re.match_here Re.match_seq].
    rewrite (no_characters_not_h c Hc).
    destruct bos; destruct (space_char c); try reflexivity;
      destruct Hs as [|d s Hd _]; try reflexivity;
      now rewrite (no_characters_not_h d Hd). }
  rewrite Hnone. apply IH.
Qed.

Lemma squeeze_all (cls : ascii -> bool) (repl : pystr) (s : pystr) :
  Forall (fun c => cls c = true) s ->
  squeeze cls repl true s = []
  /\ squeeze cls repl false s = match s with [] => [] | _ => repl end.
Proof.
  induction 1 as [|c s Hc _ [IH1 IH2]]; [now split|].
  cbn [squeeze]. rewrite Hc, IH1. split; [reflexivity|apply app_nil_r].
Qed.

(** X4.  A text whose lower-cased form has none of [@], digits and ASCII
    letters (only punctuation, whitespace and the like) is cleaned to the
    empty text.  The condition bears on [lower x], as [clean] lower-cases
    first: lower-casing can bring ASCII letters in (outside the range
    covered here, U+212A becomes [k]). *)
Theorem clean_without_characters :
  forall x : pystr, no_characters (lower x) -> clean x = [].
Proof.
  intros x Hl. unfold clean.
  unfold Re.sub at 6.
  rewrite (sub_no_match _ _ _ _ (url_no_match (lower x) Hl true)).
  unfold Re.sub at 5, noncharacter_regex.
  rewrite (proj1 (sub_many noncharacter_class (str " ") (lower x) true)).
  rewrite (proj2 (squeeze_all noncharacter_class (str " ") (lower x) Hl)).
  destruct (lower x); vm_compute; reflexivity.
Qed.

Lemma clean_without_characters_witness : clean (str "?!... ;-)") = [].
Proof.
  apply (clean_without_characters (str "?!... ;-)")).
  vm_compute. repeat constructor.
Defined.

(** ** The feature encoder *)

Section RowLoops.
Context {A : Type} `{Scalar A}.

Lemma rows_loop_lookup {X : Type} (f : X -> list A -> list A)
    (xs : list X) :
  forall cap i (M : list (list A)) k,
    rows_loop f cap i xs M !! k =
    match xs !! (k - i) with
    | Some x =>
        if decide (i <= k /\ k < cap) then f x <$> M !! k else M !! k
    | None => M !! k
    end.
Proof.
  induction xs as [|x xs IH]; intros cap i M k; [reflexivity|].
  cbn [rows_loop]. destruct (cap <=? i) eqn:Hcap.
  - apply Nat.leb_le in Hcap.
    destruct ((x :: xs) !! (k - i)); [|reflexivity].
    destruct (decide _) as [[? ?]|]; [lia|reflexivity].
  - apply Nat.leb_gt in Hcap. rewrite IH.
    destruct (decide (k < i)) as [Hlt|Hge].
    + replace (k - S i) with 0 by lia. replace (k - i) with 0 by lia.
      cbn [lookup list_lookup]. rewrite list_lookup_alter_ne by lia.
      destruct xs as [|x' xs']; cbn [lookup list_lookup];
        repeat destruct (decide _); try reflexivity; lia.
    + destruct (decide (k = i)) as [->|Hne].
      * replace (i - S i) with 0 by lia. rewrite Nat.sub_diag.
        cbn [lookup list_lookup]. rewrite list_lookup_alter_eq.
        destruct (decide (i <= i /\ i < cap)) as [_|Hn]; [|lia].
        destruct xs as [|x' xs']; cbn [lookup list_lookup]; [reflexivity|].
        destruct (decide _) as [[? ?]|]; [lia|reflexivity].
      * rewrite list_lookup_alter_ne by lia.
        replace (k - i) with (S (k - S i)) by lia.
        cbn [lookup list_lookup].
        destruct (xs !! (k - S i)); [|reflexivity].
        destruct (decide (S i <= k /\ k < cap)) as [[? ?]|Hn];
          destruct (decide (i <= k /\ k < cap)) as [[? ?]|Hn'];
          try reflexivity; lia.
Qed.

Lemma rows_loop_length {X : Type} (f : X -> list A -> list A)
    (xs : list X) :
  forall cap i (M : list (list A)),
    length (rows_loop f cap i xs M) = length M.
Proof.
  induction xs as [|x xs IH]; intros cap i M; cbn [rows_loop];
    [reflexivity|].
  destruct (cap <=? i); [reflexivity|]. now rewrite IH, length_alter.
Qed.

Lemma char_loop_rows_loop (s : pystr) :
  forall max_chars i (M : list (list A)),
    char_loop max_chars i s M = rows_loop mark max_chars i s M.
Proof.
  induction s as [|c s IH]; intros max_chars i M;
    cbn [char_loop rows_loop]; [reflexivity|].
  destruct (max_chars <=? i); [reflexivity|]. rewrite IH. f_equal.
  unfold mark, set_entry. destruct (in_char_options_set c); [reflexivity|].
  symmetry. now apply list_alter_id.
Qed.

Lemma word_loop_rows_loop (store : Word2Vec A) (ws : list pystr) :
  well_formed store ->
  forall max_words i (M : list (list A)),
    word_loop store max_words i ws M
    = Ok (rows_loop (embed store) max_words i ws M).
Proof.
  intros Hwf. induction ws as [|w ws IH]; intros max_words i M;
    cbn [word_loop rows_loop]; [reflexivity|].
  destruct (max_words <=? i); [reflexivity|].
  unfold embed at 2. destruct (vector store w) as [v|] eqn:Hv.
  - unfold set_row. rewrite (proj2 (Nat.eqb_eq _ _) (Hwf w v Hv)).
    cbn [bind]. rewrite IH, list_insert_alter. reflexivity.
  - rewrite IH. now rewrite list_alter_id.
Qed.

End RowLoops.

(** X5.  The [char] matrix has [max_chars] rows; row [i] is the one-hot
    row of the [i]-th character of the lower-cased, trimmed text when that
    character is in the vocabulary, and zero otherwise, also past the end
    of the text. *)
Theorem char_rows_one_hot :
  forall (A : Type) (Sc : Scalar A) (g : globals A) (text : pystr)
         (max_chars max_words : nat),
    exists M,
      text2mat g text "char" max_chars max_words = Ok M
      /\ length M = max_chars
      /\ forall i, i < max_chars ->
           M !! i = Some (match strip (lower text) !! i with
                          | Some c => char_row c
                          | None => replicate (length char_options) zero
                          end).
Proof.
  intros A Sc g text max_chars max_words.
  eexists. split; [reflexivity|]. rewrite char_loop_rows_loop. split.
  - rewrite rows_loop_length. apply length_replicate.
  - intros i Hi. rewrite rows_loop_lookup, Nat.sub_0_r.
    unfold np_zeros. rewrite lookup_replicate_2 by exact Hi.
    destruct (strip (lower text) !! i) as [c|]; [|reflexivity].
    destruct (decide _) as [_|Hn]; [|lia].
    reflexivity.
Qed.

(** X6.  The [char] matrix depends on the first [max_chars] characters of
    the lower-cased, trimmed text only: two texts that agree there are
    encoded alike. *)
Theorem char_matrix_truncates :
  forall (A : Type) (Sc : Scalar A) (g : globals A) (text1 text2 : pystr)
         (max_chars max_words : nat),
    take max_chars (strip (lower text1))
    = take max_chars (strip (lower text2)) ->
    text2mat g text1 "char" max_chars max_words
    = text2mat g text2 "char" max_chars max_words.
Proof.
  intros A Sc g text1 text2 max_chars max_words Htake.
  unfold text2mat. cbn [String.eqb Ascii.eqb Bool.eqb]. f_equal.
  rewrite !char_loop_rows_loop. apply list_eq. intros k.
  rewrite !rows_loop_lookup, Nat.sub_0_r.
  destruct (decide (k < max_chars)) as [Hk|Hk].
  - rewrite <- (lookup_take_lt (strip (lower text1)) max_chars k Hk).
    rewrite <- (lookup_take_lt (strip (lower text2)) max_chars k Hk).
    now rewrite Htake.
  - destruct (strip (lower text1) !! k), (strip (lower text2) !! k);
      repeat destruct (decide _); try reflexivity; lia.
Qed.

Lemma char_matrix_truncates_witness :
  text2mat no_models (str "abcdef") "char" 3 30
  = text2mat no_models (str "ABCxyz") "char" 3 30.
Proof.
  apply (char_matrix_truncates Z Z_scalar no_models (str "abcdef")
           (str "ABCxyz") 3 30).
  reflexivity.
Defined.

(** X7.  With a loaded model whose vectors have [layer1_size] components,
    the [word] matrix has [max_words] rows; row [i] is the stored vector of
    the [i]-th token of the cleaned text when the model knows that token,
    and zero otherwise, also past the last token. *)
Theorem word_rows_are_vectors :
  forall (A : Type) (Sc : Scalar A) (g : globals A) (store : Word2Vec A)
         (text : pystr) (max_chars max_words : nat),
    w2v g = Some store -> well_formed store ->
    exists M,
      text2mat g text "word" max_chars max_words = Ok M
      /\ length M = max_words
      /\ forall i, i < max_words ->
           M !! i = Some (match split (clean (strip (lower text))) !! i with
                          | Some w => word_row store w
                          | None => replicate (layer1_size store) zero
                          end).
Proof.
  intros A Sc g store text max_chars max_words Hg Hwf.
  unfold text2mat. rewrite Hg. cbn [String.eqb Ascii.eqb Bool.eqb].
  rewrite (word_loop_rows_loop store _ Hwf).
  eexists. split; [reflexivity|]. split.
  - rewrite rows_loop_length. apply length_replicate.
  - intros i Hi. rewrite rows_loop_lookup, Nat.sub_0_r.
    unfold np_zeros. rewrite lookup_replicate_2 by exact Hi.
    destruct (split (clean (strip (lower text))) !! i) as [w|];
      [|reflexivity].
    destruct (decide _) as [_|Hn]; [|lia].
    reflexivity.
Qed.

Lemma word_rows_are_vectors_witness :
  exists M,
    text2mat toy_models (str "Hello, you") "word" 140 30 = Ok M
    /\ length M = 30
    /\ forall i, i < 30 ->
         M !! i = Some (match split (clean (strip (lower (str "Hello, you"))))
                              !! i with
                        | Some w => word_row toy_store w
                        | None => replicate 2 zero
                        end).
Proof.
  apply (word_rows_are_vectors Z Z_scalar toy_models toy_store
           (str "Hello, you") 140 30 eq_refl toy_store_well_formed).
Defined.

(** ** The tweet sequence *)

Section IterationFacts.
Context {A : Type} `{Scalar A}.

Lemma iter_all_cons (g : globals A) (ti : TweetIterator) (t : pystr)
    (rest : list pystr) :
  iter_all g ti (t :: rest)
  = match yield_ g ti t with
    | Raise e => ([], Some e)
    | Ok yw =>
        match yielded yw with
        | None => iter_all g ti rest
        | Some v => (v :: fst (iter_all g ti rest),
                     snd (iter_all g ti rest))
        end
    end.
Proof.
  cbn [iter_all]. destruct (yield_ g ti t) as [[|v [|v' yw]]|e];
    reflexivity.
Qed.

(** The scan of [__getitem__] returns what a pass yields at that
    position. *)
Lemma advance_iter_all (g : globals A) (ti : TweetIterator)
    (rest : list pystr) :
  forall k,
    advance g ti k rest
    = match fst (iter_all g ti rest) !! k with
      | Some v => Ok v
      | None => Raise (scan_end (snd (iter_all g ti rest)))
      end.
Proof.
  induction rest as [|t rest IH]; intros k.
  - rewrite advance_eq. reflexivity.
  - rewrite advance_eq, iter_next_cons, iter_all_cons.
    destruct (yield_ g ti t) as [yw|e]; [|reflexivity].
    destruct (yielded yw) as [v|].
    + cbn [fst snd]. destruct k as [|k]; [reflexivity|]. apply IH.
    + rewrite <- advance_eq. apply IH.
Qed.

(** With a valid field and no exception, a pass yields one item per text
    that the sequence does not skip, in order. *)
Lemma iter_all_survivors (g : globals A) (ti : TweetIterator) :
  Forall (fun yw => mem_string yw yw_options = true) (yield_list ti) ->
  yield_list ti <> [] ->
  forall rest,
    (forall t, In t rest -> exists vs, yield_ g ti t = Ok vs) ->
    snd (iter_all g ti rest) = None
    /\ Forall2 (fun item t => item_of g ti t item)
         (fst (iter_all g ti rest))
         (if skip_nohashtag ti then filter (survives g) rest else rest).
Proof.
  intros Hvalid Hsome. induction rest as [|t rest IH]; intros Hprod.
  - split; [reflexivity|]. destruct (skip_nohashtag ti); constructor.
  - destruct IH as [IHe IHl]; [intros t' Ht'; apply Hprod; now right|].
    destruct (Hprod t (or_introl eq_refl)) as [vs Hvs].
    rewrite iter_all_cons, Hvs, filter_survives_cons.
    pose proof Hvs as Hrun. rewrite yield_unfold in Hrun.
    destruct (negb (survives g t) && skip_nohashtag ti) eqn:Hskip.
    + inversion Hrun; subst vs. cbn [yielded].
      apply andb_prop in Hskip as [Hs1 Hs2].
      apply Bool.negb_true_iff in Hs1. rewrite Hs2 in *. rewrite Hs1.
      now split.
    + destruct (fields_in_order_lookup g t _ Hvalid vs Hrun) as [Hlen _].
      assert (Hitem : exists item, yielded vs = Some item).
      { destruct vs as [|v1 [|v2 vs]];
          [exfalso; destruct (yield_list ti); [congruence|discriminate]
          |eexists; reflexivity ..]. }
      destruct Hitem as [item Hitem]. rewrite Hitem. cbn [fst snd].
      split; [exact IHe|].
      assert (Hkeep : (if skip_nohashtag ti
                       then if survives g t
                            then t :: filter (survives g) rest
                            else filter (survives g) rest
                       else t :: rest)
                      = t :: (if skip_nohashtag ti
                              then filter (survives g) rest else rest)).
      { destruct (skip_nohashtag ti); [|reflexivity].
        rewrite Bool.andb_true_r in Hskip.
        apply Bool.negb_false_iff in Hskip. now rewrite Hskip. }
      rewrite Hkeep. constructor; [|exact IHl].
      exists vs. now split.
Qed.

End IterationFacts.

(** X8.  For a sequence built with at least one valid field whose items
    are produced without an exception, a pass yields exactly one item per
    text that is not skipped, in the order of the source, each the item
    of its text; so [len] is the number of items of a pass. *)
Theorem pass_yields_survivors :
  forall (A : Type) (Sc : Scalar A) (g : globals A) (src : list pystr)
         (skip : bool) (requested : list string) (ti : TweetIterator),
    TweetIterator_init g src skip requested = Ok ti ->
    (exists yw, In yw requested /\ mem_string yw yw_options = true) ->
    (forall t, In t src -> exists vs, yield_ g ti t = Ok vs) ->
    exists items ti',
      iter_all g ti src = (items, None)
      /\ Forall2 (fun item t => item_of g ti t item) items (survivors g ti)
      /\ len g ti = Ok (length items, ti').
Proof.
  intros A Sc g src skip requested ti Hinit [yw [Hyw Hvalid]] Hprod.
  destruct (init_yield_list g src skip requested ti Hinit)
    as (Hsrc & Hskip & Hfresh & Hyl).
  assert (Hnames : Forall (fun yw => mem_string yw yw_options = true)
                     (yield_list ti)).
  { rewrite Hyl. apply valid_names_filter. }
  assert (Hsome : yield_list ti <> []).
  { rewrite Hyl. intros Hempty.
    assert (Hin : yw ∈ filter (fun yw => mem_string yw yw_options) requested).
    { apply list_elem_of_filter. split; [now rewrite Hvalid|].
      now apply list_elem_of_In. }
    rewrite Hempty in Hin. inversion Hin. }
  destruct (iter_all_survivors g ti Hnames Hsome src Hprod) as [Herr Hall].
  exists (fst (iter_all g ti src)). eexists.
  split; [rewrite <- Herr; now destruct (iter_all g ti src)|].
  unfold survivors. rewrite Hsrc. split; [exact Hall|].
  rewrite (len_fresh g ti Hfresh). unfold survivors. rewrite Hsrc.
  now rewrite (Forall2_length _ _ _ Hall).
Qed.

Lemma pass_yields_survivors_witness :
  let src3 := [str "#ok tweet one"; str "no tags here";
               str "#ok tweet two"] in
  let ti := {| source := src3; yield_list := ["raw_tweet"%string];
               skip_nohashtag := true; length_ := None |} in
  exists items ti',
    iter_all toy_models ti src3 = (items, None)
    /\ Forall2 (fun item t => item_of toy_models ti t item) items
         (survivors toy_models ti)
    /\ len toy_models ti = Ok (length items, ti').
Proof.
  intros src3 ti.
  apply (pass_yields_survivors Z Z_scalar toy_models src3 true
           ["raw_tweet"%string] ti eq_refl).
  - exists "raw_tweet"%string. split; [left|]; reflexivity.
  - intros t [<- | [<- | [<- | []]]]; eexists; vm_compute; reflexivity.
Defined.

(** X9.  On a fresh sequence of length [L], [ti[i]] for [0 <= i < L] is
    the item at position [i] of a pass; where the pass has no item at
    that position the scan ends with the exception that ended the pass,
    or with [StopIteration]. *)
Theorem getitem_is_nth_of_pass :
  forall (A : Type) (Sc : Scalar A) (g : globals A) (src : list pystr)
         (skip : bool) (requested : list string) (ti : TweetIterator)
         (i : Z),
    TweetIterator_init g src skip requested = Ok ti ->
    (0 <= i < Z.of_nat (length (survivors g ti)))%Z ->
    getitem g ti i
    = match fst (iter_all g ti src) !! Z.to_nat i with
      | Some v => Ok (v, with_length (length (survivors g ti)) ti)
      | None => Raise (scan_end (snd (iter_all g ti src)))
      end.
Proof.
  intros A Sc g src skip requested ti i Hinit Hi.
  destruct (init_yield_list g src skip requested ti Hinit)
    as (Hsrc & _ & Hfresh & _).
  unfold getitem. rewrite (len_fresh g ti Hfresh). cbn [bind fst snd].
  replace (i <? 0)%Z with false by (symmetry; apply Z.ltb_ge; lia).
  replace (i >=? _)%Z with false
    by (symmetry; rewrite Z.geb_leb; apply Z.leb_gt; lia).
  cbn [bind source].
  change {| source := source ti; yield_list := yield_list ti;
            skip_nohashtag := skip_nohashtag ti;
            length_ := Some (length (survivors g ti)) |}
    with (with_length (length (survivors g ti)) ti).
  rewrite advance_with_length, advance_iter_all, Hsrc.
  now destruct (fst (iter_all g ti src) !! Z.to_nat i).
Qed.

Lemma getitem_is_nth_of_pass_witness :
  let src3 := [str "#ok tweet one"; str "no tags here";
               str "#ok tweet two"] in
  let ti := {| source := src3; yield_list := ["raw_tweet"%string];
               skip_nohashtag := true; length_ := None |} in
  getitem toy_models ti 1
  = match fst (iter_all toy_models ti src3) !! Z.to_nat 1 with
    | Some v => Ok (v, with_length (length (survivors toy_models ti)) ti)
    | None => Raise (scan_end (snd (iter_all toy_models ti src3)))
    end.
Proof.
  intros src3 ti.
  apply (getitem_is_nth_of_pass Z Z_scalar toy_models src3 true
           ["raw_tweet"%string] ti 1 eq_refl).
  vm_compute. split; [discriminate|reflexivity].
Defined.

(** ** The batch aggregator *)

Section EmptyPass.
Context {A : Type} `{Scalar A}.

Lemma iter_next_none (g : globals A) (ki : KerasIterator)
    (rest : list pystr) :
  wired ki -> filter (survives g) rest = [] ->
  iter_next g (tweet_iterator ki) rest = Exhausted.
Proof.
  intros Hwired. induction rest as [|t rest IH]; intros Hnone;
    [reflexivity|].
  rewrite filter_survives_cons in Hnone.
  destruct (survives g t) eqn:Hsurv; [discriminate|].
  rewrite iter_next_cons, (skipped_yields_nothing g ki t Hwired Hsurv).
  cbn [yielded]. now apply IH.
Qed.

End EmptyPass.

(** X10.  If no text of the source passes the hashtag filter, [next] on
    the aggregator never returns: however many turns it is given, it has
    neither yielded a batch nor raised. *)
Theorem next_never_returns_on_empty_pass :
  forall (A : Type) (Sc : Scalar A) (g : globals A) (src : list pystr)
         (size : Z) (c d w : bool) (ki : KerasIterator),
    KerasIterator_init g src size c d w = Ok ki ->
    filter (survives g) src = [] ->
    forall fuel, KerasIterator_next g ki fuel (start ki) = None.
Proof.
  intros A Sc g src size c d w ki Hinit Hnone fuel.
  destruct (init_wired g src size c d w ki Hinit) as (Hwired & Hsrc & _).
  induction fuel as [|fuel IH]; [reflexivity|].
  cbn [KerasIterator_next]. unfold turn, start at 1. cbn [pending acc].
  rewrite (iter_next_none g ki _ Hwired) by (now rewrite Hsrc).
  cbn [count fresh Nat.ltb Nat.leb]. exact IH.
Qed.

Lemma next_never_returns_on_empty_pass_witness :
  KerasIterator_next toy_models
    {| tweet_iterator :=
         {| source := [str "no tags here"; str "#unknown tag"];
            yield_list := mat_types true false false;
            skip_nohashtag := true; length_ := None |};
       char := true; chrd := false; word := false; batch_size := 2 |}
    1000
    {| pending := [str "no tags here"; str "#unknown tag"];
       acc := fresh |}
  = None.
Proof.
  refine (next_never_returns_on_empty_pass Z Z_scalar toy_models
            [str "no tags here"; str "#unknown tag"] 2 true false false
            _ eq_refl _ 1000).
  vm_compute. reflexivity.
Defined.

Section StackFacts.
Context {A : Type} `{Scalar A}.

Lemma mats_shaped (g : globals A) (t : pystr) : shaped g t.
Proof.
  unfold shaped, mat_of, text2mat.
  cbn [String.eqb Ascii.eqb Bool.eqb]. split; [|split].
  - apply char_loop_shape, np_zeros_shape.
  - apply chrd_loop_shape, np_zeros_shape.
  - intros store Hg Hwf. rewrite Hg.
    destruct (word_loop_shape store 30
                (split (clean (strip (lower (fst (split_hashtags t))))))
                Hwf 30 0 _ (np_zeros_shape 30 (layer1_size store)))
      as (M & -> & Hshape).
    exact Hshape.
Qed.

Lemma batch_of_well_stacked (g : globals A) (ki : KerasIterator)
    (m : MultiLabelBinarizer) (ts : list pystr) :
  ts <> [] -> well_stacked g ki (batch_of g ki m ts).
Proof.
  intros Hts. exists ts. unfold batch_of, tensors_of, batch_len, enabled.
  cbn [fst snd]. split; [exact Hts|]. split; [reflexivity|].
  split; [|split].
  - now destruct (char ki), (chrd ki), (word ki).
  - unfold transform. now rewrite !length_map.
  - apply Forall_forall. intros t _. apply mats_shaped.
Qed.

End StackFacts.



(** ** Counting hashtags *)

Lemma text_eqb_neq (s t : pystr) : text_eqb s t = false -> s <> t.
Proof. intros Hst ->. now rewrite text_eqb_refl in Hst. Qed.

Lemma text_eqb_sym (s t : pystr) : text_eqb s t = text_eqb t s.
Proof.
  destruct (text_eqb s t) eqn:Hst.
  - apply text_eqb_eq in Hst. subst. now rewrite text_eqb_refl.
  - destruct (text_eqb t s) eqn:Hts; [|reflexivity].
    apply text_eqb_eq in Hts. subst. now rewrite text_eqb_refl in Hst.
Qed.

Lemma dict_get_count_one (h k : pystr) (counts : dict nat) :
  dict_get (count_one h counts) k
  = if text_eqb k h then Some (S (count_of counts k))
    else dict_get counts k.
Proof.
  unfold count_of.
  induction counts as [|[k' n] rest IH]; cbn [count_one dict_get].
  - now destruct (text_eqb k h).
  - destruct (text_eqb h k') eqn:Hh; cbn [dict_get].
    + apply text_eqb_eq in Hh. subst k'.
      now destruct (text_eqb k h).
    + destruct (text_eqb k k') eqn:Hk.
      * apply text_eqb_eq in Hk. subst k'.
        now rewrite text_eqb_sym, Hh.
      * exact IH.
Qed.

Lemma dict_get_tally (l : list pystr) :
  forall (counts : dict nat) (k : pystr),
    dict_get (fold_left (fun counts h => count_one h counts) l counts) k
    = match tally k l with
      | 0 => dict_get counts k
      | S n => Some (S n + count_of counts k)
      end.
Proof.
  induction l as [|h l IH]; intros counts k; [reflexivity|].
  cbn [fold_left tally]. rewrite IH. unfold count_of.
  rewrite dict_get_count_one. unfold count_of.
  destruct (text_eqb k h); cbn [Nat.add].
  - destruct (tally k l); [reflexivity|]. f_equal. lia.
  - reflexivity.
Qed.

Lemma keys_count_one (h x : pystr) (counts : dict nat) :
  In x (keys (count_one h counts)) -> x = h \/ In x (keys counts).
Proof.
  induction counts as [|[k n] rest IH]; cbn [count_one keys map fst].
  - intros [<-|[]]. now left.
  - destruct (text_eqb h k); cbn [map fst]; [now right|].
    intros [<-|Hx]; [right; now left|].
    destruct (IH Hx) as [->|Hin]; [now left|right; now right].
Qed.

Lemma NoDup_count_one (h : pystr) (counts : dict nat) :
  NoDup (keys counts) -> NoDup (keys (count_one h counts)).
Proof.
  induction counts as [|[k n] rest IH]; cbn [count_one keys map fst];
    intros Hnd.
  - repeat constructor. intros Hin. inversion Hin.
  - destruct (text_eqb h k) eqn:Hh; cbn [map fst]; [exact Hnd|].
    apply NoDup_cons in Hnd as [Hk Hrest].
    apply NoDup_cons. split; [|now apply IH].
    intros Hin. apply list_elem_of_In, keys_count_one in Hin as [->|Hin].
    + now rewrite text_eqb_refl in Hh.
    + now apply Hk, list_elem_of_In.
Qed.

Lemma NoDup_counts (l : list pystr) :
  forall counts : dict nat,
    NoDup (keys counts) ->
    NoDup (keys (fold_left (fun counts h => count_one h counts) l counts)).
Proof.
  induction l as [|h l IH]; intros counts Hnd; [exact Hnd|].
  cbn [fold_left]. now apply IH, NoDup_count_one.
Qed.

(** *** The stable sort *)

Section SortFacts.
Variable key : pystr -> Z.

Lemma insert_by_Permutation (x : pystr) (l : list pystr) :
  insert_by key x l ≡ₚ x :: l.
Proof.
  induction l as [|y l IH]; cbn [insert_by]; [reflexivity|].
  destruct (key x <? key y)%Z; [reflexivity|].
  rewrite IH. apply Permutation_swap.
Qed.

Lemma insert_by_sorted (x : pystr) (l : list pystr) :
  StronglySorted (fun a b => (key a <= key b)%Z) l ->
  StronglySorted (fun a b => (key a <= key b)%Z) (insert_by key x l).
Proof.
  induction 1 as [|y l Hl IH Hy]; cbn [insert_by].
  - repeat constructor.
  - destruct (key x <? key y)%Z eqn:Hxy.
    + apply Z.ltb_lt in Hxy. constructor; [now constructor|].
      constructor; [lia|].
      eapply Forall_impl; [exact Hy|]. intros b Hb. cbn in Hb. lia.
    + apply Z.ltb_ge in Hxy. constructor; [exact IH|].
      rewrite (insert_by_Permutation x l). constructor; assumption.
Qed.

Lemma sorted_by_spec (l : list pystr) :
  forall placed,
    StronglySorted (fun a b => (key a <= key b)%Z) placed ->
    StronglySorted (fun a b => (key a <= key b)%Z)
      (fold_left (fun placed x => insert_by key x placed) l placed)
    /\ fold_left (fun placed x => insert_by key x placed) l placed
       ≡ₚ placed ++ l.
Proof.
  induction l as [|x l IH]; intros placed Hs.
  - split; [exact Hs|now rewrite app_nil_r].
  - cbn [fold_left].
    destruct (IH (insert_by key x placed) (insert_by_sorted x placed Hs))
      as [Hsorted Hperm].
    split; [exact Hsorted|].
    rewrite Hperm, (insert_by_Permutation x placed).
    cbn [app]. apply Permutation_middle.
Qed.

End SortFacts.

Section PrepareFacts.
Context {A : Type} `{Scalar A}.

(** The pass of the sequence that [PrepareHashtags] builds: the hashtag
    lists of the texts that have any. *)
Lemma hashtags_pass (g : globals A) (src rest : list pystr) :
  iter_all g (counter src) rest
  = (map (fun t => VStrs (known_hashtags g t))
       (filter (survives g) rest), None).
Proof.
  induction rest as [|t rest IH]; [reflexivity|].
  rewrite iter_all_cons, yield_unfold, filter_survives_cons.
  cbn [skip_nohashtag yield_list counter].
  destruct (survives g t); cbn [negb andb]; [|exact IH].
  rewrite IH. reflexivity.
Qed.

Lemma survivors_hashtags (g : globals A) (src : list pystr) :
  concat (map (known_hashtags g) (filter (survives g) src))
  = concat (map (known_hashtags g) src).
Proof.
  induction src as [|t src IH]; [reflexivity|].
  rewrite filter_survives_cons. cbn [map concat]. unfold survives at 1.
  destruct (known_hashtags g t) eqn:Ht; cbn [length Nat.eqb negb].
  - exact IH.
  - cbn [map concat]. now rewrite Ht, IH.
Qed.

Lemma fold_hashtag_lists (ls : list (list pystr)) :
  forall counts : dict nat,
    fold_left
      (fun counts (item : value A) =>
         fold_left (fun counts h => count_one h counts)
           (hashtags_of item) counts)
      (map VStrs ls) counts
    = fold_left (fun counts h => count_one h counts) (concat ls) counts.
Proof.
  induction ls as [|l ls IH]; intros counts; [reflexivity|].
  cbn [map fold_left concat hashtags_of]. rewrite IH.
  now rewrite fold_left_app.
Qed.

Lemma PrepareHashtags_unfold (g : globals A) (src : list pystr)
    (top_n : Z) :
  let tags := concat (map (known_hashtags g) (filter (survives g) src)) in
  let counts := fold_left (fun counts h => count_one h counts) tags [] in
  PrepareHashtags g src top_n
  = Ok (up_to top_n
          (sorted_by (fun x => (- Z.of_nat (count_of counts x))%Z)
             (keys counts)),
        counts).
Proof.
  intros tags counts. unfold PrepareHashtags, TweetIterator_init.
  cbn [bind].
  change {| source := src; yield_list := keep_options ["hashtags"%string] [];
            skip_nohashtag := true; length_ := None |}
    with (counter src).
  rewrite hashtags_pass. cbn [fst snd].
  rewrite <- (map_map (known_hashtags g) VStrs), fold_hashtag_lists.
  reflexivity.
Qed.

End PrepareFacts.

(** X12.  [PrepareHashtags] never raises, and the dictionary it saves
    maps every hashtag to the number of times it occurs in the hashtag
    lists of all the texts of the source (skipping the texts without
    hashtags loses nothing), and holds no other key. *)
Theorem prepare_counts_occurrences :
  forall (A : Type) (Sc : Scalar A) (g : globals A) (src : list pystr)
         (top_n : Z),
    exists top counts,
      PrepareHashtags g src top_n = Ok (top, counts)
      /\ forall h,
           dict_get counts h
           = match tally h (concat (map (known_hashtags g) src)) with
             | 0 => None
             | S n => Some (S n)
             end.
Proof.
  intros A Sc g src top_n. rewrite PrepareHashtags_unfold.
  eexists. eexists. split; [reflexivity|].
  intros h. rewrite dict_get_tally, survivors_hashtags.
  unfold count_of. cbn [dict_get].
  destruct (tally h _); [reflexivity|]. f_equal. lia.
Qed.

(** X13.  For [top_n >= 0] the list that [PrepareHashtags] saves holds
    the first [top_n] hashtags (all of them if there are fewer) of the
    distinct hashtags ordered by decreasing count: no hashtag twice, and no
    hashtag left out occurs more often than one that is kept. *)
Theorem prepare_top_hashtags :
  forall (A : Type) (Sc : Scalar A) (g : globals A) (src : list pystr)
         (top_n : Z),
    (0 <= top_n)%Z ->
    exists top counts rest,
      PrepareHashtags g src top_n = Ok (top, counts)
      /\ NoDup (keys counts)
      /\ top ++ rest ≡ₚ keys counts
      /\ StronglySorted (fun a b => count_of counts b <= count_of counts a)
           (top ++ rest)
      /\ length top = Nat.min (Z.to_nat top_n) (length counts).
Proof.
  intros A Sc g src top_n Hn. rewrite PrepareHashtags_unfold.
  set (tags := concat (map (known_hashtags g) (filter (survives g) src))).
  set (counts := fold_left (fun counts h => count_one h counts) tags []).
  set (key := fun x => (- Z.of_nat (count_of counts x))%Z).
  destruct (sorted_by_spec key (keys counts) [] (SSorted_nil _))
    as [Hsorted Hperm].
  fold (sorted_by key (keys counts)) in Hsorted, Hperm.
  exists (up_to top_n (sorted_by key (keys counts))), counts,
    (drop (Z.to_nat top_n) (sorted_by key (keys counts))).
  unfold up_to. replace (0 <=? top_n)%Z with true
    by (symmetry; now apply Z.leb_le).
  split; [reflexivity|]. split; [|split; [|split]].
  - apply (NoDup_counts tags []). constructor.
  - now rewrite take_drop.
  - rewrite take_drop.
    eapply StronglySorted_ind
      with (P := StronglySorted
                   (fun a b => count_of counts b <= count_of counts a));
      [constructor| |exact Hsorted].
    intros a l _ IHl Ha. constructor; [exact IHl|].
    eapply Forall_impl; [exact Ha|]. intros b Hb. unfold key in Hb.
    cbn in Hb. lia.
  - rewrite length_take. f_equal.
    rewrite (Permutation_length Hperm). cbn [app]. unfold keys.
    now rewrite length_map.
Qed.

Lemma prepare_top_hashtags_witness :
  exists top counts rest,
    PrepareHashtags no_models
      [str "#a #b x"; str "nothing"; str "#b #c #b"; str "#c"] 2
    = Ok (top, counts)
    /\ NoDup (keys counts)
    /\ top ++ rest ≡ₚ keys counts
    /\ StronglySorted (fun a b => count_of counts b <= count_of counts a)
         (top ++ rest)
    /\ length top = Nat.min (Z.to_nat 2) (length counts).
Proof.
  apply (prepare_top_hashtags Z Z_scalar no_models
           [str "#a #b x"; str "nothing"; str "#b #c #b"; str "#c"] 2).
  discriminate.
Defined.

(** ** Substituting a similar word *)

Lemma split_from_token (w : pystr) :
  forall cur s,
    Forall (fun c => isspace c = false) w ->
    split_from cur (w ++ s) = split_from (cur ++ w) s.
Proof.
  induction w as [|c w IH]; intros cur s Hw.
  - now rewrite app_nil_r.
  - apply Forall_cons in Hw as [Hc Hw]. cbn [app split_from].
    rewrite Hc, IH by exact Hw. now rewrite <- app_assoc.
Qed.

Lemma split_from_tokens (s : pystr) :
  forall cur,
    Forall (fun c => isspace c = false) cur ->
    Forall token (split_from cur s).
Proof.
  induction s as [|c s IH]; intros cur Hcur; cbn [split_from].
  - destruct cur as [|d cur]; constructor; [|constructor].
    split; [discriminate|exact Hcur].
  - destruct (isspace c) eqn:Hc.
    + destruct cur as [|d cur]; [now apply IH|].
      constructor; [split; [discriminate|exact Hcur]|now apply IH].
    + apply IH, Forall_app. split; [exact Hcur|].
      constructor; [exact Hc|constructor].
Qed.

Lemma split_tokens (s : pystr) : Forall token (split s).
Proof. apply split_from_tokens. constructor. Qed.

Lemma split_join (ws : list pystr) :
  Forall token ws -> split (join (str " ") ws) = ws.
Proof.
  unfold split. induction ws as [|w ws IH]; intros Hws; [reflexivity|].
  apply Forall_cons in Hws as [[Hne Hw] Hws].
  destruct ws as [|w' ws].
  - cbn [join]. rewrite <- (app_nil_r w) at 1.
    rewrite split_from_token by exact Hw. cbn [app split_from].
    now destruct w.
  - change (join (str " ") (w :: w' :: ws))
      with (w ++ str " " ++ join (str " ") (w' :: ws)).
    rewrite split_from_token by exact Hw. cbn [app].
    change (str " " ++ join (str " ") (w' :: ws))
      with (" "%char :: join (str " ") (w' :: ws)).
    cbn [split_from].
    replace (isspace " "%char) with true by reflexivity.
    rewrite (IH Hws). now destruct w.
Qed.

Lemma split_blank (s : pystr) :
  Forall (fun c => isspace c = true) s -> split s = [].
Proof.
  unfold split. induction 1 as [|c s Hc _ IH]; [reflexivity|].
  cbn [split_from]. now rewrite Hc.
Qed.

Lemma split_from_nonblank (s : pystr) :
  forall cur, cur <> [] -> split_from cur s <> [].
Proof.
  induction s as [|c s IH]; intros cur Hcur; cbn [split_from].
  - now destruct cur.
  - destruct (isspace c); [now destruct cur|].
    apply IH. now destruct cur.
Qed.

Lemma split_from_nonspace (s : pystr) :
  Exists (fun c => isspace c = false) s ->
  forall cur, split_from cur s <> [].
Proof.
  induction 1 as [c s Hc|c s _ IH]; intros cur; cbn [split_from].
  - rewrite Hc. apply split_from_nonblank. now destruct cur.
  - destruct (isspace c); [|apply IH].
    destruct cur; [apply IH|discriminate].
Qed.

Lemma split_nonblank (s : pystr) :
  Exists (fun c => isspace c = false) s -> split s <> [].
Proof. intros Hs. now apply split_from_nonspace. Qed.

Section SubFacts.
Context {A : Type}.
Variable most_similar : Word2Vec A -> pystr -> list (pystr * A).
Variable gt : A -> A -> bool.

Lemma sub_loop_passed (m : Word2Vec A) (thresh : A) (rest : list pystr) :
  forall pre,
    Forall (fun w => passed_over most_similar gt m thresh w = true) rest ->
    sub_loop most_similar gt m thresh
      (seq (length pre) (length rest)) (pre ++ rest)
    = Ok (pre ++ rest).
Proof.
  induction rest as [|u rest IH]; intros pre Hrest; [reflexivity|].
  apply Forall_cons in Hrest as [Hu Hrest].
  cbn [length seq sub_loop].
  rewrite (list_lookup_middle pre rest u (length pre) eq_refl).
  specialize (IH (pre ++ [u]) Hrest).
  rewrite length_app, Nat.add_1_r, <- app_assoc in IH. cbn [app] in IH.
  unfold passed_over in Hu.
  destruct (vector m u); [|exact IH].
  destruct (most_similar m u) as [|most_sim others]; [discriminate|].
  destruct (gt (snd most_sim) thresh); [discriminate|exact IH].
Qed.

Lemma sub_loop_first (m : Word2Vec A) (thresh : A) (w w' : pystr)
    (post : list pystr) (mid : list pystr) :
  forall pre,
    Forall (fun w => passed_over most_similar gt m thresh w = true) mid ->
    replaced_by most_similar gt m thresh w w' ->
    sub_loop most_similar gt m thresh
      (seq (length pre) (length (mid ++ w :: post)))
      (pre ++ mid ++ w :: post)
    = Ok (pre ++ mid ++ w' :: post).
Proof.
  induction mid as [|u mid IH]; intros pre Hmid Hw.
  - destruct Hw as (Hin & score & others & Hsim & Hgt).
    cbn [app length seq sub_loop].
    rewrite (list_lookup_middle pre post w (length pre) eq_refl).
    destruct (vector m w); [|congruence].
    rewrite Hsim. cbn [snd fst]. rewrite Hgt. f_equal.
    rewrite insert_app_r_alt by lia.
    now rewrite Nat.sub_diag.
  - apply Forall_cons in Hmid as [Hu Hmid].
    cbn [app length seq sub_loop].
    rewrite (list_lookup_middle pre (mid ++ w :: post) u (length pre)
               eq_refl).
    specialize (IH (pre ++ [u]) Hmid Hw).
    rewrite length_app, Nat.add_1_r, <- !app_assoc in IH. cbn [app] in IH.
    unfold passed_over in Hu.
    destruct (vector m u); [|exact IH].
    destruct (most_similar m u) as [|most_sim others]; [discriminate|].
    destruct (gt (snd most_sim) thresh); [discriminate|exact IH].
Qed.

End SubFacts.

(** X14.  With a model loaded, [sub] replaces the first word that is in
    the model and whose nearest neighbour scores above the threshold by
    that neighbour, leaves every other word as it is, and returns the words
    joined by single spaces. *)
Theorem sub_replaces_first_match :
  forall (A : Type) (most_similar : Word2Vec A -> pystr -> list (pystr * A))
         (gt : A -> A -> bool) (g : globals A) (m : Word2Vec A)
         (tweet : pystr) (thresh : A) (pre post : list pystr)
         (w w' : pystr),
    w2v g = Some m ->
    split tweet = pre ++ w :: post ->
    Forall (fun u => passed_over most_similar gt m thresh u = true) pre ->
    replaced_by most_similar gt m thresh w w' ->
    sub most_similar gt g tweet thresh
    = Ok (join (str " ") (pre ++ w' :: post)).
Proof.
  intros A most_similar gt g m tweet thresh pre post w w' Hm Hsplit Hpre Hw.
  unfold sub. rewrite Hm, Hsplit.
  pose proof (sub_loop_first most_similar gt m thresh w w' post pre []
                Hpre Hw) as Hloop.
  cbn [length app] in Hloop. now rewrite Hloop.
Qed.

Lemma sub_replaces_first_match_witness :
  sub toy_neighbours Z.gtb pet_models (str "a dog  cat cat") 90%Z
  = Ok (join (str " ") ([str "a"; str "dog"] ++ str "dog" :: [str "cat"])).
Proof.
  apply (sub_replaces_first_match Z toy_neighbours Z.gtb pet_models pets
           (str "a dog  cat cat") 90%Z [str "a"; str "dog"] [str "cat"]
           (str "cat") (str "dog")).
  - reflexivity.
  - reflexivity.
  - repeat constructor.
  - split; [discriminate|].
    exists 95%Z, []. split; reflexivity.
Defined.

(** X15.  With a model loaded, a text none of whose words qualifies for a
    replacement comes back with its words unchanged and joined by single
    spaces; splitting the result gives the words of the text again. *)
Theorem sub_keeps_unmatched_text :
  forall (A : Type) (most_similar : Word2Vec A -> pystr -> list (pystr * A))
         (gt : A -> A -> bool) (g : globals A) (m : Word2Vec A)
         (tweet : pystr) (thresh : A),
    w2v g = Some m ->
    Forall (fun u => passed_over most_similar gt m thresh u = true)
      (split tweet) ->
    exists out,
      sub most_similar gt g tweet thresh = Ok out
      /\ out = join (str " ") (split tweet)
      /\ split out = split tweet.
Proof.
  intros A most_similar gt g m tweet thresh Hm Hwords.
  exists (join (str " ") (split tweet)).
  split; [|split; [reflexivity|apply split_join, split_tokens]].
  unfold sub. rewrite Hm.
  pose proof (sub_loop_passed most_similar gt m thresh (split tweet) []
                Hwords) as Hloop.
  cbn [length app] in Hloop. now rewrite Hloop.
Qed.

Lemma sub_keeps_unmatched_text_witness :
  exists out,
    sub toy_neighbours Z.gtb pet_models (str "  a   dog ") 90%Z = Ok out
    /\ out = join (str " ") (split (str "  a   dog "))
    /\ split out = split (str "  a   dog ").
Proof.
  apply (sub_keeps_unmatched_text Z toy_neighbours Z.gtb pet_models pets
           (str "  a   dog ") 90%Z).
  - reflexivity.
  - repeat constructor.
Defined.

(** X16.  With no model loaded, [sub] returns the empty string for a text
    of whitespace only (the empty text too) and raises a [TypeError] for
    every text that has a word. *)
Theorem sub_without_model :
  forall (A : Type) (most_similar : Word2Vec A -> pystr -> list (pystr * A))
         (gt : A -> A -> bool) (g : globals A) (tweet : pystr)
         (thresh : A),
    w2v g = None ->
    (Forall (fun c => isspace c = true) tweet ->
     sub most_similar gt g tweet thresh = Ok [])
    /\ (Exists (fun c => isspace c = false) tweet ->
        sub most_similar gt g tweet thresh = Raise TypeError).
Proof.
  intros A most_similar gt g tweet thresh Hg. unfold sub. rewrite Hg.
  split; intros Htweet.
  - now rewrite split_blank.
  - apply split_nonblank in Htweet. now destruct (split tweet).
Qed.

Lemma sub_without_model_witness :
  sub toy_neighbours Z.gtb no_models (str "  ") 90%Z = Ok []
  /\ sub toy_neighbours Z.gtb no_models (str " cat") 90%Z = Raise TypeError.
Proof.
  split.
  - apply (sub_without_model Z toy_neighbours Z.gtb no_models (str "  ")
             90%Z eq_refl).
    repeat constructor.
  - apply (sub_without_model Z toy_neighbours Z.gtb no_models (str " cat")
             90%Z eq_refl).
    right. left. reflexivity.
Defined.

(** ** Slices *)

Lemma slice_indices_bounds (s : Slice.slice) (n a b c : Z) :
  (0 <= n)%Z ->
  Slice.indices s n = Ok (a, b, c) ->
  (c <> 0)%Z
  /\ ((0 < c)%Z -> (0 <= a)%Z /\ (b <= n)%Z)
  /\ ((c < 0)%Z -> (a <= n - 1)%Z /\ (-1 <= b)%Z).
Proof.
  intros Hn. unfold Slice.indices.
  destruct (Z.eqb_spec (match Slice.step s with
                        | Some k => k | None => 1%Z end) 0) as [|Hc];
    [discriminate|].
  intros Hidx. inversion Hidx as [[Ha Hb Hcc]]. clear Hidx.
  rewrite Hcc in *. split; [exact Hc|].
  destruct (Z.ltb_spec c 0) as [Hneg|Hpos].
  - split; [lia|]. intros _.
    destruct (Slice.start s) as [a0|], (Slice.stop s) as [b0|];
      try destruct (Z.ltb_spec a0 0); try destruct (Z.ltb_spec b0 0); lia.
  - split; [|lia]. intros _.
    destruct (Slice.start s) as [a0|], (Slice.stop s) as [b0|];
      try destruct (Z.ltb_spec a0 0); try destruct (Z.ltb_spec b0 0); lia.
Qed.

Lemma range_bounds (a b c j : Z) :
  In j (Slice.range a b c) ->
  ((0 < c)%Z -> (a <= j < b)%Z) /\ ((c < 0)%Z -> (b < j <= a)%Z).
Proof.
  unfold Slice.range, Slice.range_len. intros Hj.
  apply in_map_iff in Hj as (k & <- & Hk). apply in_seq in Hk.
  destruct (Z.ltb_spec 0 c) as [Hpos|Hnpos].
  - split; [intros _|lia].
    destruct (Z.ltb_spec a b) as [Hab|Hab]; [|cbn in Hk; lia].
    pose proof (Z.mul_div_le (b - a - 1) c Hpos) as Hq.
    pose proof (Z.div_pos (b - a - 1) c ltac:(lia) Hpos) as Hq0.
    nia.
  - split; [lia|intros Hneg].
    replace (c <? 0)%Z with true in Hk by (symmetry; now apply Z.ltb_lt).
    destruct (Z.ltb_spec b a) as [Hab|Hab]; [|cbn in Hk; lia].
    pose proof (Z.mul_div_le (a - b - 1) (- c) ltac:(lia)) as Hq.
    pose proof (Z.div_pos (a - b - 1) (- c) ltac:(lia) ltac:(lia)) as Hq0.
    nia.
Qed.

Lemma range_full (n : nat) :
  Slice.range 0 (Z.of_nat n) 1 = map Z.of_nat (seq 0 n).
Proof.
  unfold Slice.range, Slice.range_len. cbn [Z.ltb Z.compare].
  destruct (Z.ltb_spec 0 (Z.of_nat n)) as [Hn|Hn].
  - rewrite Z.div_1_r. replace (Z.to_nat _) with n by lia.
    apply map_ext. intros k. lia.
  - destruct n; [reflexivity|lia].
Qed.

Section SliceFacts.
Context {A : Type} `{Scalar A}.

(** What a well-behaved sequence is: built by the constructor with a
    valid field, and producing every item without an exception. *)
Lemma pass_of_well_behaved (g : globals A) (src : list pystr) (skip : bool)
    (requested : list string) (ti : TweetIterator) :
  TweetIterator_init g src skip requested = Ok ti ->
  (exists yw, In yw requested /\ mem_string yw yw_options = true) ->
  (forall t, In t src -> exists vs, yield_ g ti t = Ok vs) ->
  source ti = src /\ length_ ti = None
  /\ snd (iter_all g ti src) = None
  /\ length (fst (iter_all g ti src)) = length (survivors g ti).
Proof.
  intros Hinit [yw [Hyw Hvalid]] Hprod.
  destruct (init_yield_list g src skip requested ti Hinit)
    as (Hsrc & Hskip & Hfresh & Hyl).
  assert (Hnames : Forall (fun yw => mem_string yw yw_options = true)
                     (yield_list ti)).
  { rewrite Hyl. apply valid_names_filter. }
  assert (Hsome : yield_list ti <> []).
  { rewrite Hyl. intros Hempty.
    assert (Hin : yw ∈ filter (fun yw => mem_string yw yw_options) requested).
    { apply list_elem_of_filter. split; [now rewrite Hvalid|].
      now apply list_elem_of_In. }
    rewrite Hempty in Hin. inversion Hin. }
  destruct (iter_all_survivors g ti Hnames Hsome src Hprod) as [Herr Hall].
  repeat split; try assumption.
  unfold survivors. rewrite Hsrc. exact (Forall2_length _ _ _ Hall).
Qed.

(** Indexing a sequence whose length is stored, inside the bounds *)
Lemma getitem_cached (g : globals A) (ti : TweetIterator) (L : nat)
    (j : Z) (v : value A) :
  (0 <= j < Z.of_nat L)%Z ->
  fst (iter_all g ti (source ti)) !! Z.to_nat j = Some v ->
  getitem g (with_length L ti) j = Ok (v, with_length L ti).
Proof.
  intros Hj Hv. unfold getitem.
  rewrite (len_cached g (with_length L ti) L eq_refl). cbn [bind fst snd].
  replace (j <? 0)%Z with false by (symmetry; apply Z.ltb_ge; lia).
  replace (j >=? _)%Z with false
    by (symmetry; rewrite Z.geb_leb; apply Z.leb_gt; lia).
  cbn [bind with_length source].
  change {| source := source ti; yield_list := yield_list ti;
            skip_nohashtag := skip_nohashtag ti; length_ := Some L |}
    with (with_length L ti).
  now rewrite advance_with_length, advance_iter_all, Hv.
Qed.

Lemma getitems_cached (g : globals A) (ti : TweetIterator) (L : nat)
    (js : list Z) :
  length (fst (iter_all g ti (source ti))) = L ->
  Forall (fun j => (0 <= j < Z.of_nat L)%Z) js ->
  exists out,
    getitems g (with_length L ti) js = Ok (out, with_length L ti)
    /\ Forall2 (fun j v =>
                  fst (iter_all g ti (source ti)) !! Z.to_nat j = Some v)
         js out.
Proof.
  intros Hlen. induction 1 as [|j js Hj _ (out & Hout & Hall)].
  - exists []. split; [reflexivity|constructor].
  - destruct (lookup_lt_is_Some_2 (fst (iter_all g ti (source ti)))
                (Z.to_nat j) ltac:(lia)) as [v Hv].
    exists (v :: out). cbn [getitems].
    rewrite (getitem_cached g ti L j v Hj Hv). cbn [bind fst snd].
    rewrite Hout. split; [reflexivity|now constructor].
Qed.

End SliceFacts.

Lemma indexed_by_positions {X : Type} (l out : list X) (pos : nat -> nat)
    (n : nat) :
  Forall2 (fun j v => l !! Z.to_nat j = Some v)
    (map (fun k => Z.of_nat (pos k)) (seq 0 n)) out ->
  length out = n
  /\ forall i, i < n -> out !! i = l !! pos i.
Proof.
  intros Hall. split.
  - rewrite <- (Forall2_length _ _ _ Hall). now rewrite length_map, length_seq.
  - intros i Hi.
    change (map (fun k => Z.of_nat (pos k)) (seq 0 n))
      with ((fun k => Z.of_nat (pos k)) <$> seq 0 n) in Hall.
    destruct (Forall2_lookup_l _ _ _ i (Z.of_nat (pos i)) Hall)
      as (v & Hv & Hl).
    + rewrite list_lookup_fmap, lookup_seq_lt by exact Hi. reflexivity.
    + rewrite Hv, <- Hl. now rewrite Nat2Z.id.
Qed.

(** X17.  On a well-behaved sequence (a valid field, no exception while
    producing) of length [L], a slice with a step other than 0 never
    fails: every index of the range that [slice.indices(L)] describes
    lies between 0 and [L - 1], and the result lists, in the order of the
    range, the items that a pass yields at these positions. *)
Theorem slice_lists_items_of_range :
  forall (A : Type) (Sc : Scalar A) (g : globals A) (src : list pystr)
         (skip : bool) (requested : list string) (ti : TweetIterator)
         (s : Slice.slice),
    TweetIterator_init g src skip requested = Ok ti ->
    (exists yw, In yw requested /\ mem_string yw yw_options = true) ->
    (forall t, In t src -> exists vs, yield_ g ti t = Ok vs) ->
    Slice.step s <> Some 0%Z ->
    exists a b c out,
      Slice.indices s (Z.of_nat (length (survivors g ti))) = Ok (a, b, c)
      /\ Forall (fun j => (0 <= j < Z.of_nat (length (survivors g ti)))%Z)
           (Slice.range a b c)
      /\ getitem_slice g ti s
         = Ok (out, with_length (length (survivors g ti)) ti)
      /\ Forall2 (fun j v => fst (iter_all g ti src) !! Z.to_nat j = Some v)
           (Slice.range a b c) out.
Proof.
  intros A Sc g src skip requested ti s Hinit Hvalid Hprod Hstep.
  destruct (pass_of_well_behaved g src skip requested ti Hinit Hvalid Hprod)
    as (Hsrc & Hfresh & _ & Hlen).
  set (L := length (survivors g ti)) in *.
  destruct (Slice.indices s (Z.of_nat L)) as [[[a b] c]|e] eqn:Hidx.
  - exists a, b, c.
    destruct (slice_indices_bounds s (Z.of_nat L) a b c ltac:(lia) Hidx)
      as (Hc & Hpos & Hneg).
    assert (Hin : Forall (fun j => (0 <= j < Z.of_nat L)%Z)
                    (Slice.range a b c)).
    { apply Forall_forall. intros j Hj. apply list_elem_of_In in Hj.
      destruct (range_bounds a b c j Hj) as [Hup Hdown].
      destruct (Z.lt_trichotomy c 0) as [Hlt|[Heq|Hgt]];
        [specialize (Hneg Hlt); specialize (Hdown Hlt)|
         contradiction|
         specialize (Hpos Hgt); specialize (Hup Hgt)]; lia. }
    rewrite <- Hsrc in Hlen.
    destruct (getitems_cached g ti L (Slice.range a b c) Hlen Hin)
      as (out & Hout & Hall).
    exists out. split; [reflexivity|]. split; [exact Hin|].
    rewrite <- Hsrc. split; [|exact Hall].
    unfold getitem_slice. rewrite (len_fresh g ti Hfresh).
    fold L. cbn [bind fst snd]. rewrite Hidx. cbn [bind fst snd].
    exact Hout.
  - exfalso. unfold Slice.indices in Hidx.
    destruct (Slice.step s) as [k|].
    + destruct (Z.eqb_spec k 0) as [->|_]; [now apply Hstep|discriminate].
    + discriminate.
Qed.

Lemma slice_lists_items_of_range_witness :
  let src3 := [str "#ok tweet one"; str "no tags here";
               str "#ok tweet two"] in
  let ti := {| source := src3; yield_list := ["raw_tweet"%string];
               skip_nohashtag := false; length_ := None |} in
  let s := {| Slice.start := Some 10%Z; Slice.stop := None;
              Slice.step := Some (-2)%Z |} in
  exists a b c out,
    Slice.indices s (Z.of_nat (length (survivors toy_models ti)))
    = Ok (a, b, c)
    /\ Forall (fun j => (0 <= j
                         < Z.of_nat (length (survivors toy_models ti)))%Z)
         (Slice.range a b c)
    /\ getitem_slice toy_models ti s
       = Ok (out, with_length (length (survivors toy_models ti)) ti)
    /\ Forall2 (fun j v =>
                  fst (iter_all toy_models ti src3) !! Z.to_nat j = Some v)
         (Slice.range a b c) out.
Proof.
  intros src3 ti s.
  apply (slice_lists_items_of_range Z Z_scalar toy_models src3 false
           ["raw_tweet"%string] ti s eq_refl).
  - exists "raw_tweet"%string. split; [left|]; reflexivity.
  - intros t [<- | [<- | [<- | []]]]; eexists; vm_compute; reflexivity.
  - discriminate.
Defined.

(** X18.  On a well-behaved sequence the full slice [ti[:]] is the list of
    the items of one pass, and [ti[::-1]] is that list reversed. *)
Theorem full_slice_is_the_pass :
  forall (A : Type) (Sc : Scalar A) (g : globals A) (src : list pystr)
         (skip : bool) (requested : list string) (ti : TweetIterator),
    TweetIterator_init g src skip requested = Ok ti ->
    (exists yw, In yw requested /\ mem_string yw yw_options = true) ->
    (forall t, In t src -> exists vs, yield_ g ti t = Ok vs) ->
    getitem_slice g ti
      {| Slice.start := None; Slice.stop := None; Slice.step := None |}
    = Ok (fst (iter_all g ti src),
          with_length (length (survivors g ti)) ti)
    /\ getitem_slice g ti
         {| Slice.start := None; Slice.stop := None;
            Slice.step := Some (-1)%Z |}
       = Ok (rev (fst (iter_all g ti src)),
             with_length (length (survivors g ti)) ti).
Proof.
  intros A Sc g src skip requested ti Hinit Hvalid Hprod.
  destruct (pass_of_well_behaved g src skip requested ti Hinit Hvalid Hprod)
    as (Hsrc & Hfresh & _ & Hlen).
  set (L := length (survivors g ti)) in *.
  set (items := fst (iter_all g ti src)) in *.
  unfold getitem_slice. rewrite (len_fresh g ti Hfresh). fold L.
  cbn [bind fst snd]. unfold Slice.indices.
  cbn [Slice.start Slice.stop Slice.step Z.eqb Z.ltb Z.compare bind fst snd].
  change {| source := source ti; yield_list := yield_list ti;
            skip_nohashtag := skip_nohashtag ti; length_ := Some L |}
    with (with_length L ti).
  split.
  - rewrite range_full.
    destruct (getitems_cached g ti L (map Z.of_nat (seq 0 L)))
      as (out & Hout & Hall).
    + now rewrite Hsrc.
    + apply Forall_forall. intros j Hj.
      apply list_elem_of_In, in_map_iff in Hj as (k & <- & Hk).
      apply in_seq in Hk. lia.
    + rewrite Hout. do 2 f_equal. rewrite Hsrc in Hall. fold items in Hall.
      destruct (indexed_by_positions items out (fun k => k) L Hall)
        as [Hlo Hat].
      apply list_eq. intros i. destruct (Nat.lt_ge_cases i L) as [Hi|Hi].
      * now apply Hat.
      * rewrite !lookup_ge_None_2 by lia. reflexivity.
  - assert (Hrange : Slice.range (Z.of_nat L - 1) (-1) (-1)
                     = map (fun k => Z.of_nat (L - S k)) (seq 0 L)).
    { unfold Slice.range, Slice.range_len. cbn [Z.ltb Z.compare Z.opp].
      destruct (Z.ltb_spec (-1) (Z.of_nat L - 1)) as [HL|HL].
      - rewrite Z.div_1_r. replace (Z.to_nat _) with L by lia.
        apply map_ext_in. intros k Hk. apply in_seq in Hk. lia.
      - replace L with 0 by lia. reflexivity. }
    rewrite Hrange.
    destruct (getitems_cached g ti L
                (map (fun k => Z.of_nat (L - S k)) (seq 0 L)))
      as (out & Hout & Hall).
    + now rewrite Hsrc.
    + apply Forall_forall. intros j Hj.
      apply list_elem_of_In, in_map_iff in Hj as (k & <- & Hk).
      apply in_seq in Hk. lia.
    + rewrite Hout. do 2 f_equal. rewrite Hsrc in Hall. fold items in Hall.
      destruct (indexed_by_positions items out (fun k => L - S k) L Hall)
        as [Hlo Hat].
      rewrite rev_alt. change (rev_append items []) with (reverse items).
      apply list_eq. intros i. destruct (Nat.lt_ge_cases i L) as [Hi|Hi].
      * rewrite reverse_lookup by lia. rewrite Hlen. now apply Hat.
      * rewrite !lookup_ge_None_2; [reflexivity| |lia].
        rewrite length_reverse. lia.
Qed.

Lemma full_slice_is_the_pass_witness :
  let src3 := [str "#ok tweet one"; str "no tags here";
               str "#ok tweet two"] in
  let ti := {| source := src3; yield_list := ["raw_tweet"%string];
               skip_nohashtag := true; length_ := None |} in
  getitem_slice toy_models ti
    {| Slice.start := None; Slice.stop := None; Slice.step := None |}
  = Ok (fst (iter_all toy_models ti src3),
        with_length (length (survivors toy_models ti)) ti)
  /\ getitem_slice toy_models ti
       {| Slice.start := None; Slice.stop := None;
          Slice.step := Some (-1)%Z |}
     = Ok (rev (fst (iter_all toy_models ti src3)),
           with_length (length (survivors toy_models ti)) ti).
Proof.
  intros src3 ti.
  apply (full_slice_is_the_pass Z Z_scalar toy_models src3 true
           ["raw_tweet"%string] ti eq_refl).
  - exists "raw_tweet"%string. split; [left|]; reflexivity.
  - intros t [<- | [<- | [<- | []]]]; eexists; vm_compute; reflexivity.
Defined.

(** ** Labels *)

Lemma mem_text_In (s : pystr) (l : list pystr) :
  mem_text s l = true <-> In s l.
Proof.
  unfold mem_text. rewrite existsb_exists. split.
  - intros (t & Ht & Heq). apply text_eqb_eq in Heq. now subst.
  - intros Hs. exists s. split; [exact Hs|apply text_eqb_refl].
Qed.

Section LabelFacts.
Context {A : Type} `{Scalar A}.

Lemma known_hashtags_valid (g : globals A) (m : MultiLabelBinarizer)
    (text h : pystr) :
  mlb g = Some m -> classes_ m <> [] ->
  In h (known_hashtags g text) -> In h (classes_ m).
Proof.
  intros Hm Hclasses Hh. unfold known_hashtags, valid_hashtags in Hh.
  rewrite Hm in Hh. destruct (classes_ m) as [|c cs] eqn:Hcs;
    [contradiction|].
  apply list_elem_of_In, list_elem_of_filter in Hh as [Hh _].
  apply mem_text_In. now destruct (mem_text h (c :: cs)).
Qed.

End LabelFacts.

(** X19.  With a binarizer that has at least one class loaded, a sequence
    that skips texts without hashtags and yields the label gives, for
    every text it does not skip, a one-row matrix with one column per
    class, whose entry for a class is 1 exactly when the class is one of
    the known hashtags of the text; at least one entry is 1. *)
Theorem label_row_marks_known_hashtags :
  forall (A : Type) (Sc : Scalar A) (g : globals A)
         (m : MultiLabelBinarizer) (src : list pystr) (text : pystr),
    mlb g = Some m ->
    classes_ m <> [] ->
    known_hashtags g text <> [] ->
    exists row,
      yield_ g {| source := src; yield_list := ["label"%string];
                  skip_nohashtag := true; length_ := None |} text
      = Ok [VMat [row]]
      /\ length row = length (classes_ m)
      /\ (forall j c,
            classes_ m !! j = Some c ->
            row !! j = Some (if mem_text c (known_hashtags g text)
                             then one else zero))
      /\ exists j c,
           classes_ m !! j = Some c /\ In c (known_hashtags g text)
           /\ row !! j = Some one.
Proof.
  intros A Sc g m src text Hm Hclasses Hknown.
  set (row := (fun c => if mem_text c (known_hashtags g text)
                        then one else zero) <$> classes_ m).
  assert (Hrow : forall j c,
             classes_ m !! j = Some c ->
             row !! j = Some (if mem_text c (known_hashtags g text)
                              then one else zero)).
  { intros j c Hc. unfold row. now rewrite list_lookup_fmap, Hc. }
  exists row. split; [|split; [|split]].
  - unfold yield_. cbn [skip_nohashtag yield_list].
    destruct (length (known_hashtags g text) =? 0) eqn:Hlen.
    + apply Nat.eqb_eq in Hlen.
      destruct (known_hashtags g text); [contradiction|discriminate].
    + cbn [andb yield_fields String.eqb Ascii.eqb Bool.eqb app].
      rewrite Hm. reflexivity.
  - unfold row. now rewrite length_fmap.
  - exact Hrow.
  - assert (Hsome : exists h, In h (known_hashtags g text)).
    { destruct (known_hashtags g text) as [|h hs]; [contradiction|].
      exists h. now left. }
    destruct Hsome as [h Hh].
    pose proof (known_hashtags_valid g m text h Hm Hclasses Hh) as Hin.
    apply list_elem_of_In, list_elem_of_lookup in Hin as [j Hj].
    exists j, h. split; [exact Hj|]. split; [exact Hh|].
    rewrite (Hrow j h Hj).
    now replace (mem_text h (known_hashtags g text)) with true
      by (symmetry; now apply mem_text_In).
Qed.

Lemma label_row_marks_known_hashtags_witness :
  exists row,
    yield_ toy_models
      {| source := [str "#ok tweet"]; yield_list := ["label"%string];
         skip_nohashtag := true; length_ := None |} (str "#ok tweet")
    = Ok [VMat [row]]
    /\ length row = length (classes_ toy_mlb)
    /\ (forall j c,
          classes_ toy_mlb !! j = Some c ->
          row !! j
          = Some (if mem_text c (known_hashtags toy_models (str "#ok tweet"))
                  then one else zero))
    /\ exists j c,
         classes_ toy_mlb !! j = Some c
         /\ In c (known_hashtags toy_models (str "#ok tweet"))
         /\ row !! j = Some one.
Proof.
  apply (label_row_marks_known_hashtags Z Z_scalar toy_models toy_mlb
           [str "#ok tweet"] (str "#ok tweet") eq_refl);
    vm_compute; discriminate.
Defined.

(** ** Tokens of a cleaned text *)

Lemma ends_nonspace_cons (c d : ascii) (s : pystr) :
  starts_nonspace (rev (c :: d :: s)) -> starts_nonspace (rev (d :: s)).
Proof.
  change (rev (c :: d :: s)) with (rev (d :: s) ++ [c]).
  destruct (rev (d :: s)) as [|e u] eqn:Hrev; [|trivial].
  cbn [rev] in Hrev. now destruct (rev s).
Qed.

Lemma join_cons (sep w : pystr) (ws : list pystr) :
  ws <> [] -> join sep (w :: ws) = w ++ sep ++ join sep ws.
Proof. now destruct ws. Qed.

Lemma join_split_from (s : pystr) :
  forall cur,
    Forall (fun c => plain_char c = true) s ->
    single_spaced s = true ->
    starts_nonspace (rev s) ->
    (cur = [] -> starts_nonspace s) ->
    join (str " ") (split_from cur s) = cur ++ s.
Proof.
  induction s as [|c s IH]; intros cur Hplain Hss Hend Hcur.
  - cbn [split_from]. rewrite app_nil_r. now destruct cur.
  - apply Forall_cons in Hplain as [Hc Hplain]. cbn [split_from].
    assert (Hss' : single_spaced s = true).
    { destruct s as [|d s]; [reflexivity|].
      rewrite single_spaced_cons in Hss.
      now apply andb_prop in Hss as [_ Hss]. }
    assert (Hend' : starts_nonspace (rev s)).
    { destruct s as [|d s]; [exact I|]. now apply ends_nonspace_cons in Hend. }
    destruct (isspace c) eqn:Hsp.
    + assert (Hc32 : c = " "%char).
      { apply is_space_eq. now rewrite <- (plain_isspace c Hc). }
      destruct cur as [|e cur].
      { specialize (Hcur eq_refl). cbn [starts_nonspace] in Hcur. congruence. }
      destruct s as [|d s].
      { cbn [rev app starts_nonspace] in Hend. congruence. }
      assert (Hd : isspace d = false).
      { apply Forall_cons in Hplain as [Hd _].
        rewrite (plain_isspace d Hd). rewrite single_spaced_cons in Hss.
        apply andb_prop in Hss as [Hss _].
        rewrite (plain_isspace c Hc) in Hsp. rewrite Hsp in Hss.
        now destruct (is_char 32 d). }
      rewrite join_cons
        by (apply split_from_nonspace; now constructor).
      rewrite (IH [] Hplain Hss' Hend' (fun _ => Hd)).
      subst c. reflexivity.
    + rewrite (IH (cur ++ [c]) Hplain Hss' Hend').
      * now rewrite <- app_assoc.
      * intros Hnil. now destruct cur.
Qed.

(** X20.  The tokens of a cleaned text, joined by single spaces, give the
    cleaned text back: [' '.join(clean(x).split()) == clean(x)], so the
    [tokenized_tweet] field loses nothing of the [clean_tweet] field. *)
Theorem tokens_rebuild_clean_text :
  forall x : pystr, join (str " ") (split (clean x)) = clean x.
Proof.
  intros x. destruct (normal_clean x) as (Hplain & Hss & Hstart & Hend).
  unfold split. rewrite join_split_from; try assumption.
  - reflexivity.
  - rewrite <- Hend. apply lstrip_starts.
  - intros _. rewrite <- Hstart. apply lstrip_starts.
Qed.

(** ** A second pass of the normaliser *)

Lemma sp_join_cons (t : pystr) (T : list pystr) :
  sp_join (t :: T) = " "%char :: t ++ sp_join T.
Proof. reflexivity. Qed.

Lemma sp_join_gap (T : list pystr) (rest : pystr) :
  gap rest -> gap (sp_join T ++ rest).
Proof.
  intros Hrest. destruct T as [|t T]; [exact Hrest|].
  right. rewrite sp_join_cons. cbn [app]. now eexists.
Qed.

Section Engine.

Lemma longest_first_none (k : nat -> option nat) (m : nat) :
  (forall n, 1 <= n -> n <= m -> k n = None) ->
  Re.longest_first k m = None.
Proof.
  induction m as [|m IH]; intros Hk; [reflexivity|].
  cbn [Re.longest_first]. rewrite Hk by lia. apply IH.
  intros n H1 Hn. apply Hk; lia.
Qed.

Lemma span_stops (cls : ascii -> bool) (u r : pystr) :
  r = [] \/ (exists c r', r = c :: r' /\ cls c = false) ->
  Re.span cls (u ++ r) = Re.span cls u.
Proof.
  intros Hr. induction u as [|c u IH]; cbn [app Re.span].
  - destruct Hr as [->|(c & r' & -> & Hc)]; [reflexivity|].
    cbn [Re.span]. now rewrite Hc.
  - now rewrite IH.
Qed.

Lemma span_all (cls : ascii -> bool) (u : pystr) :
  Forall (fun c => cls c = true) u -> Re.span cls u = length u.
Proof.
  induction 1 as [|c u Hc _ IH]; [reflexivity|].
  cbn [Re.span length]. now rewrite Hc, IH.
Qed.

Lemma span_le (cls : ascii -> bool) (u : pystr) :
  Re.span cls u <= length u.
Proof.
  induction u as [|c u IH]; [reflexivity|].
  cbn [Re.span length]. destruct (cls c); lia.
Qed.

Variables (p : Re.pattern) (repl : pystr).

Lemma sub_from_skip (u r : pystr) :
  Re.sub_from p repl false (length u) (u ++ r)
  = Re.sub_from p repl false 0 r.
Proof.
  induction u as [|c u IH]; [reflexivity|].
  cbn [length app Re.sub_from]. exact IH.
Qed.

End Engine.

Section Anchored.
Variable body : list Re.atom.
Hypothesis body_sp :
  forall b s, Re.match_seq body b (" "%char :: s) = None.

Lemma anchored_inside (c : ascii) (s : pystr) :
  isspace c = false ->
  Re.match_here (anchored body) false (c :: s) = None.
Proof.
  intros Hc. unfold anchored. cbn [Re.match_here Re.match_seq].
  unfold space_char. now rewrite Hc.
Qed.

Lemma anchored_copy (w u r : pystr) :
  Forall (fun c => isspace c = false) u ->
  Re.sub_from (anchored body) (" "%char :: w) false 0 (u ++ r)
  = u ++ Re.sub_from (anchored body) (" "%char :: w) false 0 r.
Proof.
  induction 1 as [|c u Hc _ IH]; [reflexivity|].
  cbn [app Re.sub_from]. rewrite (anchored_inside c (u ++ r) Hc).
  now rewrite IH.
Qed.

Lemma anchored_at_space (b : bool) (s : pystr) :
  Re.match_here (anchored body) b (" "%char :: s)
  = match Re.match_seq body false s with
    | Some n => Some (S n)
    | None => None
    end.
Proof.
  unfold anchored. cbn [Re.match_here Re.match_seq].
  replace (space_char " "%char) with true by reflexivity.
  destruct b; [rewrite body_sp|];
    now destruct (Re.match_seq body false s).
Qed.

(** A token after a space *)
Lemma step_sp (w t r : pystr) (b : bool) :
  Forall (fun c => isspace c = false) t ->
  reproduced body w t r ->
  Re.sub_from (anchored body) (" "%char :: w) b 0 (" "%char :: t ++ r)
  = " "%char :: t
    ++ Re.sub_from (anchored body) (" "%char :: w) false 0 r.
Proof.
  intros Ht [Hnone|(Hw & [u ->] & Hsome)].
  - cbn [Re.sub_from]. rewrite anchored_at_space, Hnone.
    now rewrite anchored_copy.
  - cbn [Re.sub_from]. rewrite anchored_at_space, Hsome.
    apply Forall_app in Ht as [_ Hu].
    rewrite <- app_assoc, sub_from_skip, anchored_copy by exact Hu.
    cbn [app]. now rewrite <- app_assoc.
Qed.

(** The first token of a text *)
Lemma step_bos (w t r : pystr) :
  t <> [] ->
  Forall (fun c => isspace c = false) t ->
  reproduced body w t r ->
  exists lead,
    (lead = [] \/ lead = [" "%char])
    /\ Re.sub_from (anchored body) (" "%char :: w) true 0 (t ++ r)
       = lead ++ t
         ++ Re.sub_from (anchored body) (" "%char :: w) false 0 r.
Proof.
  intros Hne Ht [Hnone|(Hw & [u ->] & Hsome)].
  - exists []. split; [now left|].
    destruct t as [|c t]; [congruence|].
    apply Forall_cons in Ht as [Hc Ht].
    cbn [app Re.sub_from]. unfold anchored at 1.
    cbn [Re.match_here Re.match_seq].
    pose proof (Hnone true) as Hn. cbn [app] in Hn. rewrite Hn.
    unfold space_char. rewrite Hc.
    now rewrite anchored_copy.
  - exists [" "%char]. split; [now right|].
    destruct w as [|c w']; [congruence|].
    apply Forall_app in Ht as [_ Hu].
    cbn [app Re.sub_from]. unfold anchored at 1.
    cbn [Re.match_here Re.match_seq].
    specialize (Hsome true). cbn [app length] in Hsome. rewrite Hsome.
    rewrite <- app_assoc, sub_from_skip, anchored_copy by exact Hu.
    cbn [app]. now rewrite <- app_assoc.
Qed.

(** The tokens after the first *)
Lemma anchored_scan (w : pystr) (T : list pystr) (rest : pystr) :
  each_token (fun t r => Forall (fun c => isspace c = false) t
                         /\ reproduced body w t r) T rest ->
  (forall b, Re.sub_from (anchored body) (" "%char :: w) b 0 rest = rest) ->
  forall b,
    Re.sub_from (anchored body) (" "%char :: w) b 0 (sp_join T ++ rest)
    = sp_join T ++ rest.
Proof.
  intros Hall Hrest. induction T as [|t T IH]; intros b; [apply Hrest|].
  destruct Hall as [[Ht Hrep] Hall].
  rewrite sp_join_cons. cbn [app]. rewrite <- app_assoc.
  rewrite (step_sp w t (sp_join T ++ rest) b Ht Hrep).
  now rewrite (IH Hall false).
Qed.

End Anchored.

(** *** The bodies of the patterns on one token *)

Lemma longest_first_const (n : nat) :
  Re.longest_first (fun _ => Some 0) n
  = match n with
    | 0 => None
    | S m => Some (S m)
    end.
Proof. destruct n as [|m]; [reflexivity|]. cbn. f_equal. lia. Qed.

Lemma nonspace_span (t r : pystr) :
  Forall (fun c => isspace c = false) t -> gap r ->
  Re.span nonspace_char (t ++ r) = length t.
Proof.
  intros Ht Hr. rewrite span_stops.
  - apply span_all. eapply Forall_impl; [exact Ht|].
    intros c Hc. cbn in Hc. unfold nonspace_char. now rewrite Hc.
  - destruct Hr as [->|[r' ->]]; [now left|right].
    eexists. eexists. split; reflexivity.
Qed.

Lemma url_body_token (t r : pystr) (b : bool) :
  Forall (fun c => isspace c = false) t -> gap r ->
  Re.match_seq url_body b (t ++ r)
  = if url_like t then Some (length t) else None.
Proof.
  intros Ht Hr. unfold url_body, url_like, chr.
  cbn [str list_ascii_of_string].
  destruct t as [|c1 t]; cbn [app starts_with andb];
    [destruct Hr as [->|[r' ->]]; reflexivity|].
  cbn [Re.match_seq].
  destruct (Ascii.eqb "h" c1); [|reflexivity]. cbn [andb].
  destruct t as [|c2 t]; cbn [app starts_with andb];
    [destruct Hr as [->|[r' ->]]; reflexivity|].
  cbn [Re.match_seq].
  destruct (Ascii.eqb "t" c2); [|reflexivity]. cbn [andb].
  destruct t as [|c3 t]; cbn [app starts_with andb];
    [destruct Hr as [->|[r' ->]]; reflexivity|].
  cbn [Re.match_seq].
  destruct (Ascii.eqb "t" c3); [|reflexivity]. cbn [andb].
  destruct t as [|c4 t]; cbn [app starts_with andb];
    [destruct Hr as [->|[r' ->]]; reflexivity|].
  cbn [Re.match_seq].
  destruct (Ascii.eqb "p" c4); [|reflexivity]. cbn [andb].
  apply Forall_cons in Ht as [_ Ht]. apply Forall_cons in Ht as [_ Ht].
  apply Forall_cons in Ht as [_ Ht]. apply Forall_cons in Ht as [_ Ht].
  rewrite longest_first_const, (nonspace_span t r Ht Hr).
  destruct t as [|c5 t]; reflexivity.
Qed.

Lemma url_reproduced (t r : pystr) :
  passes t r -> reproduced url_body (str "httpurl") t r.
Proof.
  intros (Hne & Ht & Hr & Hord). unfold ordinary in Hord.
  apply andb_prop in Hord as [Hord _].
  apply andb_prop in Hord as [_ Hurl].
  destruct (url_like t) eqn:Hlike.
  - right. cbn [negb orb] in Hurl. apply text_eqb_eq in Hurl. subst t.
    split; [discriminate|]. split; [now exists []|].
    intros b. now rewrite (url_body_token _ r b Ht Hr), Hlike.
  - left. intros b. now rewrite (url_body_token t r b Ht Hr), Hlike.
Qed.

Lemma mention_body_token (t r : pystr) (b : bool) :
  gap r ->
  Re.match_seq mention_body b (t ++ r)
  = match t with
    | c :: t' =>
        if Ascii.eqb c "@"
        then match Re.span word_char t' with
             | 0 => None
             | S m => Some (S (S m))
             end
        else None
    | [] => None
    end.
Proof.
  intros Hr. unfold mention_body, chr. destruct t as [|c t'].
  - destruct Hr as [->|[r' ->]]; reflexivity.
  - cbn [app Re.match_seq]. rewrite (Ascii.eqb_sym "@" c).
    destruct (Ascii.eqb c "@"); [|reflexivity].
    rewrite longest_first_const, span_stops.
    + now destruct (Re.span word_char t').
    + destruct Hr as [->|[r' ->]]; [now left|right].
      eexists. eexists. split; reflexivity.
Qed.

Lemma mention_reproduced (t r : pystr) :
  passes t r -> reproduced mention_body (str "@user") t r.
Proof.
  intros (Hne & Ht & Hr & Hord). unfold ordinary in Hord.
  apply andb_prop in Hord as [Hord _].
  apply andb_prop in Hord as [Hord _].
  apply andb_prop in Hord as [_ Hm].
  unfold mention_ok in Hm. destruct t as [|c t']; [congruence|].
  destruct (Ascii.eqb c "@") eqn:Hc.
  - cbn zeta in Hm. destruct (Re.span word_char t') as [|m] eqn:Hspan.
    + left. intros b. rewrite (mention_body_token _ r b Hr), Hc, Hspan.
      reflexivity.
    + right. cbn [Nat.eqb orb] in Hm. apply text_eqb_eq in Hm.
      assert (Hlen : S m = 4).
      { pose proof (span_le word_char t') as Hle. rewrite Hspan in Hle.
        apply (f_equal (fun l => length l)) in Hm.
        rewrite length_take in Hm.
        change (length (str "user")) with 4 in Hm. lia. }
      apply Ascii.eqb_eq in Hc. subst c.
      split; [discriminate|]. split.
      * exists (drop (S m) t').
        rewrite <- (take_drop (S m) t') at 1. rewrite Hm. reflexivity.
      * intros b. rewrite (mention_body_token _ r b Hr).
        cbn. rewrite Hspan. now rewrite Hlen.
  - left. intros b. now rewrite (mention_body_token _ r b Hr), Hc.
Qed.

Lemma retweet_reproduced (t r : pystr) :
  passes t r -> reproduced retweet_body [] t r.
Proof.
  intros (Hne & Ht & Hr & Hord). left. intros b.
  unfold ordinary in Hord. apply andb_prop in Hord as [_ Hrt].
  unfold retweet_body, chr.
  destruct t as [|c1 t]; [congruence|].
  cbn [app Re.match_seq].
  destruct (Ascii.eqb "r" c1) eqn:H1; [|reflexivity].
  destruct t as [|c2 t];
    [destruct Hr as [->|[r' ->]]; reflexivity|].
  cbn [app Re.match_seq].
  destruct (Ascii.eqb "t" c2) eqn:H2; [|reflexivity].
  destruct t as [|c3 t].
  - apply Ascii.eqb_eq in H1, H2. subst c1 c2.
    cbn [text_eqb str list_ascii_of_string Ascii.eqb Bool.eqb andb negb orb]
      in Hrt.
    destruct r; [reflexivity|discriminate].
  - cbn [app Re.match_seq].
    apply Forall_cons in Ht as [_ Ht]. apply Forall_cons in Ht as [_ Ht].
    apply Forall_cons in Ht as [H3 _]. unfold space_char. now rewrite H3.
Qed.

(** *** The email pattern *)

Lemma match_seq_many (cls : ascii -> bool) (rest : list Re.atom) (b : bool)
    (s : pystr) :
  Re.match_seq (Re.Many cls :: rest) b s
  = Re.longest_first (fun n => Re.match_seq rest false (drop n s))
      (Re.span cls s).
Proof. reflexivity. Qed.

Lemma match_seq_one (cls : ascii -> bool) (rest : list Re.atom) (b : bool)
    (c : ascii) (s : pystr) :
  Re.match_seq (Re.One cls :: rest) b (c :: s)
  = if cls c
    then match Re.match_seq rest false s with
         | Some r => Some (S r)
         | None => None
         end
    else None.
Proof. reflexivity. Qed.

Lemma at_ok_drop (last : bool) (s : pystr) :
  at_ok last s = true ->
  forall n c s',
    drop n s = c :: s' -> Ascii.eqb c "@" = true ->
    length s' = 0 \/ (last = true /\ length s' <= 2).
Proof.
  induction s as [|d s IH]; intros Hok n c s' Hd Hc.
  - now rewrite drop_nil in Hd.
  - cbn [at_ok] in Hok. apply andb_prop in Hok as [Hd0 Hok].
    destruct n as [|n].
    + cbn [drop] in Hd. inversion Hd; subst d s'. rewrite Hc in Hd0.
      apply orb_prop in Hd0 as [Hz|Hl].
      * left. now apply Nat.eqb_eq.
      * apply andb_prop in Hl as [Hlast Hle]. right.
        split; [exact Hlast|now apply Nat.leb_le].
    + cbn [drop] in Hd. exact (IH Hok n c s' Hd Hc).
Qed.

Lemma email_none (u r : pystr) (last b : bool) :
  Forall (fun c => isspace c = false) u ->
  gap r -> (last = true -> r = []) ->
  at_ok last (tail u) = true ->
  Re.match_here email_regex b (u ++ r) = None.
Proof.
  intros Hu Hr Hlast Hok. unfold email_regex. cbn [Re.match_here].
  rewrite match_seq_many, (nonspace_span u r Hu Hr).
  rewrite longest_first_none; [reflexivity|].
  intros n H1 Hn. rewrite drop_app_le by exact Hn.
  destruct (drop n u) as [|c s'] eqn:Hd.
  - cbn [app]. destruct Hr as [->|[r' ->]]; reflexivity.
  - cbn [app]. rewrite match_seq_one. unfold chr.
    destruct (Ascii.eqb "@" c) eqn:Hc; [|reflexivity].
    rewrite Ascii.eqb_sym in Hc.
    destruct u as [|c0 u']; [now rewrite drop_nil in Hd|].
    destruct n as [|n]; [lia|]. cbn [drop tail] in Hd, Hok.
    destruct (at_ok_drop last u' Hok n c s' Hd Hc) as [Hz|[Hl Hle]].
    + destruct s'; [|discriminate]. cbn [app].
      rewrite match_seq_many.
      replace (Re.span nonspace_char r) with 0; [reflexivity|].
      destruct Hr as [->|[r' ->]]; reflexivity.
    + rewrite (Hlast Hl), app_nil_r.
      destruct s' as [|a [|a2 [|a3 s']]]; cbn [length] in Hle; [| | |lia];
        cbn; repeat match goal with
                    | |- context [if ?x then _ else _] => destruct x; cbn
                    end; reflexivity.
Qed.

Lemma email_copy (repl u r : pystr) (last : bool) :
  Forall (fun c => isspace c = false) u ->
  gap r -> (last = true -> r = []) ->
  at_ok last (tail u) = true ->
  forall b,
    Re.sub_from email_regex repl b 0 (u ++ r)
    = u ++ Re.sub_from email_regex repl false 0 r.
Proof.
  intros Hu Hr Hlast. induction Hu as [|c u Hc Hu IH]; intros Hok b.
  - destruct r; reflexivity.
  - pose proof (email_none (c :: u) r last b
                  (Forall_cons_2 _ _ _ Hc Hu) Hr Hlast Hok) as Hnone.
    cbn [app] in Hnone |- *. cbn [Re.sub_from]. rewrite Hnone.
    f_equal. apply IH.
    cbn [tail] in Hok. destruct u as [|c' u']; [reflexivity|].
    cbn [at_ok] in Hok. now apply andb_prop in Hok as [_ Hok].
Qed.

Lemma email_space (repl r : pystr) (b : bool) :
  Re.sub_from email_regex repl b 0 (" "%char :: r)
  = " "%char :: Re.sub_from email_regex repl false 0 r.
Proof. reflexivity. Qed.

Lemma is_last_nil (r : pystr) : is_last r = true -> r = [].
Proof. now destruct r. Qed.

Lemma passes_at_ok (t r : pystr) :
  passes t r -> at_ok (is_last r) (tail t) = true.
Proof.
  intros (_ & _ & _ & Hord). unfold ordinary in Hord.
  apply andb_prop in Hord as [Hord _].
  apply andb_prop in Hord as [Hord _].
  now apply andb_prop in Hord as [Hord _].
Qed.

Lemma email_scan (repl : pystr) (T : list pystr) (rest : pystr) :
  each_token passes T rest ->
  forall b,
    Re.sub_from email_regex repl b 0 (sp_join T ++ rest)
    = sp_join T ++ Re.sub_from email_regex repl false 0 rest.
Proof.
  induction T as [|t T IH]; intros Hall b.
  - cbn [sp_join map concat app]. destruct rest; reflexivity.
  - destruct Hall as [Ht Hall]. pose proof Ht as (_ & Hns & Hr & _).
    rewrite sp_join_cons. cbn [app]. rewrite <- !app_assoc.
    rewrite email_space.
    rewrite (email_copy repl t (sp_join T ++ rest)
               (is_last (sp_join T ++ rest))
               Hns Hr (is_last_nil _) (passes_at_ok _ _ Ht)).
    now rewrite (IH Hall).
Qed.

(** *** Whole texts *)

Lemma each_token_impl (P Q : pystr -> pystr -> Prop) (T : list pystr)
    (rest : pystr) :
  (forall t r, P t r -> Q t r) ->
  each_token P T rest -> each_token Q T rest.
Proof.
  intros HPQ. induction T as [|t T IH]; [trivial|].
  intros [Ht HT]. split; [now apply HPQ|now apply IH].
Qed.

Lemma is_last_sp_join (T : list pystr) (rest rest' : pystr) :
  is_last rest' = is_last rest ->
  is_last (sp_join T ++ rest') = is_last (sp_join T ++ rest).
Proof. intros Hl. destruct T; [exact Hl|reflexivity]. Qed.

(** The tokens pass whatever follows the last of them, an end of the text
    apart. *)
Lemma each_token_rest (T : list pystr) (rest rest' : pystr) :
  gap rest' -> is_last rest' = is_last rest ->
  each_token passes T rest -> each_token passes T rest'.
Proof.
  intros Hgap Hlast. induction T as [|t T IH]; [trivial|].
  intros [(Hne & Hns & _ & Hord) HT]. split; [|now apply IH].
  split; [exact Hne|]. split; [exact Hns|].
  split; [now apply sp_join_gap|].
  now rewrite (is_last_sp_join T rest rest' Hlast).
Qed.

Section AnchoredText.
Variable body : list Re.atom.
Hypothesis body_sp :
  forall b s, Re.match_seq body b (" "%char :: s) = None.
Variable w : pystr.
Hypothesis body_passes : forall t r, passes t r -> reproduced body w t r.

(** A substitution of an anchored pattern on a text of tokens that pass:
    the text comes back, with one space before it at most. *)
Lemma anchored_text (l t1 : pystr) (T : list pystr) (rest : pystr) :
  l = [] \/ l = [" "%char] ->
  each_token passes (t1 :: T) rest ->
  (forall b, Re.sub_from (anchored body) (" "%char :: w) b 0 rest = rest) ->
  exists l',
    (l' = [] \/ l' = [" "%char])
    /\ Re.sub (anchored body) (" "%char :: w) (l ++ t1 ++ sp_join T ++ rest)
       = l' ++ t1 ++ sp_join T ++ rest.
Proof.
  intros Hl [Ht1 HT] Hrest. pose proof Ht1 as (Hne & Hns & _ & _).
  assert (Hscan : forall b,
             Re.sub_from (anchored body) (" "%char :: w) b 0
               (sp_join T ++ rest)
             = sp_join T ++ rest).
  { apply (anchored_scan body body_sp w T rest); [|exact Hrest].
    apply (each_token_impl passes); [|exact HT].
    intros t r Ht. split; [apply Ht|now apply body_passes]. }
  unfold Re.sub. destruct Hl as [->| ->]; cbn [app].
  - destruct (step_bos body w t1 (sp_join T ++ rest) Hne Hns
                (body_passes _ _ Ht1)) as (l' & Hl' & Hrun).
    exists l'. split; [exact Hl'|]. now rewrite Hrun, Hscan.
  - exists [" "%char]. split; [now right|].
    rewrite (step_sp body body_sp w t1 (sp_join T ++ rest) true Hns
               (body_passes _ _ Ht1)).
    now rewrite Hscan.
Qed.

End AnchoredText.

Lemma email_text (repl l t1 : pystr) (T : list pystr) (rest : pystr) :
  l = [] \/ l = [" "%char] ->
  each_token passes (t1 :: T) rest ->
  Re.sub email_regex repl (l ++ t1 ++ sp_join T ++ rest)
  = l ++ t1 ++ sp_join T ++ Re.sub_from email_regex repl false 0 rest.
Proof.
  intros Hl [Ht1 HT]. pose proof Ht1 as (_ & Hns & Hr & _).
  unfold Re.sub.
  assert (Htok : forall b,
             Re.sub_from email_regex repl b 0 (t1 ++ sp_join T ++ rest)
             = t1 ++ sp_join T ++ Re.sub_from email_regex repl false 0 rest).
  { intros b.
    rewrite (email_copy repl t1 (sp_join T ++ rest)
               (is_last (sp_join T ++ rest))
               Hns Hr (is_last_nil _) (passes_at_ok _ _ Ht1)).
    now rewrite (email_scan repl T rest HT). }
  destruct Hl as [->| ->]; cbn [app]; [apply Htok|].
  now rewrite email_space, Htok.
Qed.

Lemma squeeze_app_last (cls : ascii -> bool) (repl a : pystr) :
  forall (b : bool) (c : ascii) (s : pystr),
    cls c = false ->
    squeeze cls repl b (a ++ c :: s)
    = squeeze cls repl b (a ++ [c]) ++ squeeze cls repl false s.
Proof.
  induction a as [|d a IH]; intros b c s Hc; cbn [app squeeze].
  - now rewrite Hc.
  - destruct (cls d), b; rewrite (IH _ c s Hc); try reflexivity.
    now rewrite app_assoc.
Qed.

Lemma text_ends_token (T : list pystr) (rest : pystr) :
  forall t1 pre,
    each_token passes (t1 :: T) rest ->
    exists a c, pre ++ t1 ++ sp_join T = a ++ [c] /\ isspace c = false.
Proof.
  induction T as [|t2 T IH]; intros t1 pre [(Hne & Hns & _) HT].
  - cbn [sp_join map concat]. rewrite app_nil_r.
    destruct t1 as [|c0 t1] using rev_ind; [congruence|].
    apply Forall_app in Hns as [_ Hc]. apply Forall_cons in Hc as [Hc _].
    exists (pre ++ t1), c0. split; [now rewrite app_assoc|exact Hc].
  - destruct (IH t2 (pre ++ t1 ++ [" "%char]) HT) as (a & c & Heq & Hc).
    exists a, c. split; [|exact Hc]. rewrite <- Heq, sp_join_cons.
    rewrite <- !app_assoc. reflexivity.
Qed.

Lemma strip_padded (l pad y : pystr) :
  l = [] \/ l = [" "%char] ->
  pad = [] \/ pad = [" "%char] ->
  trimmed y -> y <> [] ->
  strip (l ++ y ++ pad) = y.
Proof.
  intros Hl Hpad [Hleft Hright] Hne.
  assert (Hstart : starts_nonspace y)
    by (rewrite <- Hleft; apply lstrip_starts).
  assert (Hl1 : lstrip (l ++ y ++ pad) = y ++ pad).
  { destruct Hl as [->| ->]; cbn [app lstrip];
      [|replace (isspace " "%char) with true by reflexivity];
      apply lstrip_fixed; destruct y; [congruence|exact Hstart
                                      |congruence|exact Hstart]. }
  unfold strip, rstrip. rewrite Hl1.
  destruct Hpad as [->| ->].
  - now rewrite app_nil_r, Hright, rev_involutive.
  - rewrite rev_app_distr. cbn [rev app lstrip].
    replace (isspace " "%char) with true by reflexivity.
    now rewrite Hright, rev_involutive.
Qed.

Lemma pad_plain (l y : pystr) :
  l = [] \/ l = [" "%char] ->
  Forall (fun c => plain_char c = true) y ->
  single_spaced y = true ->
  starts_nonspace y ->
  Forall (fun c => plain_char c = true) (l ++ y)
  /\ single_spaced (l ++ y) = true.
Proof.
  intros [->| ->] Hplain Hss Hstart; cbn [app]; [now split|].
  split; [constructor; [reflexivity|exact Hplain]|].
  destruct y as [|c y]; [reflexivity|].
  rewrite single_spaced_cons, Hss. cbn [starts_nonspace] in Hstart.
  now rewrite (nonspace_not_32 c Hstart).
Qed.

Lemma url_body_sp (b : bool) (s : pystr) :
  Re.match_seq url_body b (" "%char :: s) = None.
Proof. reflexivity. Qed.

Lemma mention_body_sp (b : bool) (s : pystr) :
  Re.match_seq mention_body b (" "%char :: s) = None.
Proof. reflexivity. Qed.

Lemma retweet_body_sp (b : bool) (s : pystr) :
  Re.match_seq retweet_body b (" "%char :: s) = None.
Proof. reflexivity. Qed.

(** A text of tokens that pass, the last of them possibly followed by the
    placeholder of an email address, is left as it is by [clean]. *)
Lemma second_pass (t1 : pystr) (T : list pystr) (e : bool) :
  each_token passes (t1 :: T) (if e then [] else str " email@address") ->
  normal (t1 ++ sp_join T ++ (if e then [] else str " email@address")) ->
  clean (t1 ++ sp_join T ++ (if e then [] else str " email@address"))
  = t1 ++ sp_join T ++ (if e then [] else str " email@address").
Proof.
  set (tail0 := if e then [] else str " email@address").
  set (tail1 := if e then [] else str "  email@address ").
  set (y0 := t1 ++ sp_join T).
  intros Hall (Hplain & Hss & Htrim).
  pose proof Hall as [(Hne & Hns & _) _].
  assert (Hy : t1 ++ sp_join T ++ tail0 = y0 ++ tail0)
    by (unfold y0; now rewrite app_assoc).
  assert (Hstart : forall s, starts_nonspace (t1 ++ s)).
  { intros s. destruct t1 as [|c t1]; [congruence|].
    apply Forall_cons in Hns as [Hc _]. exact Hc. }
  assert (Hgap1 : gap tail1)
    by (unfold tail1; destruct e; [now left|right; now eexists]).
  assert (Hlast1 : is_last tail1 = is_last tail0)
    by (unfold tail1, tail0; now destruct e).
  pose proof (each_token_rest (t1 :: T) tail0 tail1 Hgap1 Hlast1 Hall)
    as Hall1.
  unfold clean, Re.sub. rewrite (lower_fixed _ Hplain).
  (* the URL substitution *)
  destruct (anchored_text url_body url_body_sp (str "httpurl")
              url_reproduced [] t1 T tail0 (or_introl eq_refl) Hall)
    as (l1 & Hl1 & Hurl).
  { unfold tail0. destruct e; intros []; vm_compute; reflexivity. }
  unfold Re.sub in Hurl. cbn [app] in Hurl.
  change url_regex with (anchored url_body).
  change (str " httpurl") with (" "%char :: str "httpurl").
  rewrite Hurl.
  (* the collapse *)
  destruct (pad_plain l1 _ Hl1 Hplain Hss (Hstart _)) as [Hplain1 Hss1].
  unfold noncharacter_regex.
  rewrite (proj1 (sub_many noncharacter_class (str " ") _ true)).
  rewrite (proj1 (squeeze_fixed noncharacter_class plain_noncharacter
                    _ Hplain1 Hss1)).
  (* the email substitution *)
  pose proof (email_text (str " email@address ") l1 t1 T tail0 Hl1 Hall)
    as Hemail.
  unfold Re.sub in Hemail. rewrite Hemail.
  replace (Re.sub_from email_regex (str " email@address ") false 0 tail0)
    with tail1
    by (unfold tail0, tail1; destruct e; vm_compute; reflexivity).
  (* the mention substitution *)
  destruct (anchored_text mention_body mention_body_sp (str "@user")
              mention_reproduced l1 t1 T tail1 Hl1 Hall1)
    as (l2 & Hl2 & Hmention).
  { unfold tail1. destruct e; intros []; vm_compute; reflexivity. }
  unfold Re.sub in Hmention.
  change mention_regex with (anchored mention_body).
  change (str " @user") with (" "%char :: str "@user").
  rewrite Hmention.
  (* the retweet substitution *)
  destruct (anchored_text retweet_body retweet_body_sp []
              retweet_reproduced l2 t1 T tail1 Hl2 Hall1)
    as (l3 & Hl3 & Hretweet).
  { unfold tail1. destruct e; intros []; vm_compute; reflexivity. }
  unfold Re.sub in Hretweet.
  change (Re.sub_from retweet_regex (str " "))
    with (Re.sub_from (anchored retweet_body) [" "%char]).
  rewrite Hretweet.
  (* the whitespace substitution and [strip] *)
  unfold multspace_regex.
  rewrite (proj1 (sub_many space_char (str " ") _ true)).
  destruct e.
  - unfold tail1, tail0 in *.
    destruct (pad_plain l3 _ Hl3 Hplain Hss (Hstart _)) as [Hplain3 Hss3].
    rewrite (proj1 (squeeze_fixed space_char plain_isspace _ Hplain3 Hss3)).
    rewrite <- (app_nil_r (t1 ++ sp_join T ++ [])) at 1.
    apply strip_padded; [exact Hl3|now left|exact Htrim|].
    destruct t1; [congruence|discriminate].
  - unfold tail1, tail0 in *. rewrite Hy in Hplain, Hss.
    apply Forall_app in Hplain as [Hplain0 _].
    apply single_spaced_app in Hss as [Hss0 _].
    destruct (pad_plain l3 y0 Hl3 Hplain0 Hss0 (Hstart _))
      as [Hplain3 Hss3].
    destruct (text_ends_token T _ t1 l3 Hall) as (a & c & Hends & Hc).
    fold y0 in Hends.
    replace (l3 ++ t1 ++ sp_join T ++ str "  email@address ")
      with (a ++ c :: str "  email@address ").
    2: { change (a ++ c :: str "  email@address ")
           with (a ++ [c] ++ str "  email@address ").
         rewrite app_assoc, <- Hends. unfold y0.
         now rewrite <- !app_assoc. }
    rewrite squeeze_app_last by exact Hc. rewrite <- Hends.
    rewrite (proj1 (squeeze_fixed space_char plain_isspace _ Hplain3 Hss3)).
    replace (squeeze space_char (str " ") false (str "  email@address "))
      with (str " email@address" ++ [" "%char])
      by (vm_compute; reflexivity).
    replace ((l3 ++ y0) ++ str " email@address" ++ [" "%char])
      with (l3 ++ (t1 ++ sp_join T ++ str " email@address") ++ [" "%char])
      by (unfold y0; now rewrite <- !app_assoc).
    apply strip_padded; [exact Hl3|now right|exact Htrim|].
    destruct t1; [congruence|discriminate].
Qed.

(** *** From the tokens of a cleaned text *)

Lemma join_sp_join (T : list pystr) :
  forall t, join (str " ") (t :: T) = t ++ sp_join T.
Proof.
  induction T as [|t2 T IH]; intros t.
  - cbn [join sp_join map concat]. now rewrite app_nil_r.
  - rewrite join_cons by discriminate. rewrite IH, sp_join_cons.
    reflexivity.
Qed.

Lemma sp_join_app (T1 T2 : list pystr) :
  sp_join (T1 ++ T2) = sp_join T1 ++ sp_join T2.
Proof. unfold sp_join. now rewrite map_app, concat_app. Qed.

Lemma join_split_normal (y : pystr) :
  normal y -> join (str " ") (split y) = y.
Proof.
  intros (Hplain & Hss & Hstart & Hend).
  unfold split. rewrite join_split_from; try assumption.
  - reflexivity.
  - rewrite <- Hend. apply lstrip_starts.
  - intros _. rewrite <- Hstart. apply lstrip_starts.
Qed.

(** Settled tokens all pass, the placeholder of an email address at the
    end apart. *)
Lemma settled_cases (ts : list pystr) :
  Forall token ts -> settled ts = true ->
  each_token passes ts []
  \/ exists T,
       ts = T ++ [str "email@address"]
       /\ each_token passes T (str " email@address").
Proof.
  induction 1 as [|t ts [Hne Hns] Hts IH]; intros Hs; [now left|].
  cbn [settled] in Hs. destruct ts as [|t' ts'].
  - unfold settled_token in Hs. destruct (ordinary true t) eqn:Hord.
    + left. split; [|exact I]. split; [exact Hne|]. split; [exact Hns|].
      split; [now left|exact Hord].
    + right. rewrite Bool.orb_false_r in Hs. cbn [andb] in Hs.
      apply text_eqb_eq in Hs. subst t. exists []. now split.
  - apply andb_prop in Hs as [Ht Hs]. unfold settled_token in Ht.
    cbn [andb orb] in Ht.
    destruct (IH Hs) as [Hall|(T & HT & Hall)].
    + left. split; [|exact Hall]. split; [exact Hne|].
      split; [exact Hns|]. split; [|exact Ht].
      right. rewrite sp_join_cons. cbn [app]. now eexists.
    + right. exists (t :: T). split; [now rewrite HT|].
      split; [|exact Hall]. split; [exact Hne|]. split; [exact Hns|].
      assert (Hgap : gap (sp_join T ++ str " email@address"))
        by (apply sp_join_gap; right; now eexists).
      split; [exact Hgap|].
      replace (is_last (sp_join T ++ str " email@address")) with false
        by (now destruct T).
      exact Ht.
Qed.


